(** * FlexGet [Entry]: a shallow embedding of [flexget/entry.py]

    The record type [Entry] is a Python 2 [dict] subclass whose write path
    ([__setitem__]) normalises strings to [unicode], tracks [original_url],
    canonicalises [imdb_url], and whose read path ([__getitem__]) evaluates
    [LazyField] wrappers.  The embedding below follows the source method by
    method:

    - Python objects with identity (lists, opaque objects, [LazyField]
      wrappers) live in a heap and are referred to by address, so that
      in-place mutation and aliasing are visible;
    - every method is a computation in a state-and-exception monad over
      the state of the entry, the heap and the logger;
    - what the file imports but does not define (the resolver callbacks,
      [flexget.utils.imdb], the behaviour of foreign objects under [repr],
      [str] and [copy.deepcopy], the iteration order of a [dict]) is
      gathered in a record [Env] that every definition takes as a
      parameter. *)

From stdpp Require Import gmap strings list fin_maps pretty sorting.
From Stdlib Require Import ZArith.

(** ** Values and objects *)

(** Address of an object in the heap, and identity of a resolver callback
    (Python compares functions by identity in [func in lazy_funcs]). *)
Abbreviation addr := nat (only parsing).
Abbreviation func := nat (only parsing).

(** A Python value as an entry field holds it.  [VStr] is a byte string
    ([str]); [VUnicode exact text] is a [unicode] object, [exact] telling
    whether its type is [unicode] itself rather than a subclass of it; text
    is held as its UTF-8 encoding.  [VRef] points to an object with
    identity. *)
Inductive val :=
| VNone
| VBool (b : bool)
| VInt (z : Z)
| VStr (bytes : string)
| VUnicode (exact : bool) (text : string)
| VRef (a : addr).

#[global] Instance val_eq_dec : EqDecision val.
Proof. solve_decision. Defined.

(** How [copy.deepcopy] fares on an object that is not a container: a new
    equal object is built, the object itself is handed back (functions,
    classes, objects whose [__deepcopy__] returns [self]), [TypeError] is
    raised (locks, file handles, generators, ...), or something else is
    raised. *)
Inductive copy_kind :=
| CopyFresh
| CopySame
| CopyTypeError
| CopyOther (n : nat).

(** Heap objects.  [OLazy field funcs] is a [LazyField]: the back reference
    [self.entry] is the one entry of the state and is left implicit. *)
Inductive object :=
| OList (items : list val)
| OOpaque (tag : nat) (cp : copy_kind)
| OLazy (field : string) (funcs : list func).

(** ** Exceptions and diagnostics *)

Inductive plugin_msg :=
| TriedToSetUrl (title : val) (v : val)
| TriedToSetTitle (v : val).

#[global] Instance copy_kind_eq_dec : EqDecision copy_kind.
Proof. solve_decision. Defined.
#[global] Instance object_eq_dec : EqDecision object.
Proof. solve_decision. Defined.

Inductive exc :=
| EntryUnicodeError (key : string) (v : val)
| PluginError (msg : plugin_msg)
| KeyError (key : string)
| TypeError
| UnicodeDecodeError
| RuntimeError
| SystemError
| OtherError (n : nat).

#[global] Instance plugin_msg_eq_dec : EqDecision plugin_msg.
Proof. solve_decision. Defined.
#[global] Instance exc_eq_dec : EqDecision exc.
Proof. solve_decision. Defined.

Inductive result (A : Type) :=
| Ok (a : A)
| Raise (e : exc).
Arguments Ok {A} a.
Arguments Raise {A} e.

Inductive level := TRACE | DEBUG | WARNING.

(** The messages the module logs, before formatting. *)
Inductive message :=
| EntrySet (key : string) (v : val)
| EntrySetFailed (key : string) (e : exc)
| InvalidImdbUrl (v : val)
| EvaluatingLazy (key : string)
| DeprecatedLazyKwarg
| SnapshotFieldSkipped (name field : string) (title : val)
| SnapshotOverwritten (name : string) (title : val).

(** ** State *)

(** [fields] is the dict itself, [trace] and [snapshots] are the two
    attributes [__init__] creates; [heap] holds the objects with identity
    and [log] is what the module logger received, oldest first. *)
Record State := mkState {
  fields : gmap string val;
  trace : list string;
  snapshots : gmap string (gmap string val);
  heap : list object;
  log : list (level * message)
}.

Definition set_fields (f : gmap string val → gmap string val) (s : State) : State :=
  mkState (f (fields s)) (trace s) (snapshots s) (heap s) (log s).
Definition set_trace (t : list string) (s : State) : State :=
  mkState (fields s) t (snapshots s) (heap s) (log s).
Definition set_snapshots
    (f : gmap string (gmap string val) → gmap string (gmap string val))
    (s : State) : State :=
  mkState (fields s) (trace s) (f (snapshots s)) (heap s) (log s).
Definition set_heap (f : list object → list object) (s : State) : State :=
  mkState (fields s) (trace s) (snapshots s) (f (heap s)) (log s).
Definition emit (l : level) (m : message) (s : State) : State :=
  mkState (fields s) (trace s) (snapshots s) (heap s) (log s ++ [(l, m)]).

(** ** The monad of methods: state passing, with exceptions that keep the
    state reached when they were raised. *)
Definition M (A : Type) : Type := State → State * result A.

Definition ret {A} (a : A) : M A := λ s, (s, Ok a).
Definition bind {A B} (m : M A) (k : A → M B) : M B := λ s,
  match m s with
  | (s', Ok a) => k a s'
  | (s', Raise e) => (s', Raise e)
  end.

Declare Scope M_scope.
Delimit Scope M_scope with M.
Bind Scope M_scope with M.
Notation "x ← y ; z" := (bind y (λ x, z))
  (at level 20, y at level 100, z at level 200, only parsing) : M_scope.
Notation "y ;; z" := (bind y (λ _, z))
  (at level 100, z at level 200, only parsing, right associativity) : M_scope.
Open Scope M_scope.

Definition raise {A} (e : exc) : M A := λ s, (s, Raise e).
Definition gets {A} (f : State → A) : M A := λ s, (s, Ok (f s)).
Definition modify (f : State → State) : M unit := λ s, (f s, Ok tt).

(** [try: m except E: h] where [E] is recognised by [catches]. *)
Definition try_except {A} (m : M A) (catches : exc → bool) (h : exc → M A) : M A :=
  λ s, match m s with
       | (s', Raise e) => if catches e then h e s' else (s', Raise e)
       | r => r
       end.

Definition is_KeyError (e : exc) : bool :=
  match e with KeyError _ => true | _ => false end.
Definition is_TypeError (e : exc) : bool :=
  match e with TypeError => true | _ => false end.
Definition is_Exception (e : exc) : bool := true.

(** ** What the module imports *)

Record Env := mkEnv {
  (** [func(entry, field)] for the callback [func]. *)
  call : func → string → M val;
  (** [flexget.utils.imdb.extract_id] and [make_url], on text. *)
  extract_id : string → option string;
  make_url : string → string;
  (** The exception [repr(v)] raises, if it raises. *)
  repr_raises : list object → val → option exc;
  (** [str]/[unicode] of the object at an address, as [%s] formats it: the
      flag tells whether the text is [unicode]. *)
  str_of_object : list object → addr → result (bool * string);
  (** How [copy.deepcopy] fares on the [LazyField] at an address: it drags
      in the owning entry and the callbacks. *)
  lazy_copy : State → addr → copy_kind;
  (** How many nested [deepcopy] calls fit below the interpreter's
      recursion limit. *)
  depth_limit : nat;
  (** [dict(v)], the dict built from a mapping or from a sequence of
      pairs. *)
  dict_of : list object → val → result (gmap string val);
  (** The order in which a [dict] with the given items is iterated. *)
  dict_iter : gmap string val → list (string * val)
}.

(** A Python 2 [dict] is iterated in an order the language leaves open: all
    that is known is that each item comes once. *)
Definition iter_ok (env : Env) : Prop :=
  ∀ d, dict_iter env d ≡ₚ map_to_list d.

(** ** Builtins on values *)

(** [isinstance(v, basestring)] and [type(v) == unicode]. *)
Definition is_basestring (v : val) : bool :=
  match v with VStr _ | VUnicode _ _ => true | _ => false end.
Definition type_is_unicode (v : val) : bool :=
  match v with VUnicode true _ => true | _ => false end.

(** Decoding with the default (ASCII) codec. *)
Fixpoint is_ascii (b : string) : bool :=
  match b with
  | EmptyString => true
  | String c rest => (Ascii.N_of_ascii c <? 128)%N && is_ascii rest
  end.
Definition decode_ascii (b : string) : result string :=
  if is_ascii b then Ok b else Raise UnicodeDecodeError.

(** The text [%s] inserts for a value, with a flag telling whether that
    text is [unicode]. *)
Definition text_of (env : Env) (h : list object) (v : val) : result (bool * string) :=
  match v with
  | VNone => Ok (false, "None")
  | VBool b => Ok (false, if b then "True" else "False")
  | VInt z => Ok (false, pretty z)
  | VStr b => Ok (false, b)
  | VUnicode _ t => Ok (true, t)
  | VRef a => str_of_object env h a
  end.

(** [unicode(v)]. *)
Definition unicode (env : Env) (h : list object) (v : val) : result val :=
  match text_of env h v with
  | Ok (true, t) => Ok (VUnicode true t)
  | Ok (false, b) =>
      match decode_ascii b with
      | Ok t => Ok (VUnicode true t)
      | Raise e => Raise e
      end
  | Raise e => Raise e
  end.

(** ['%s | %s' % (a, b)]: a [unicode] argument makes the result [unicode],
    and byte strings are then decoded. *)
Definition format_pair (env : Env) (h : list object) (a b : val) : result val :=
  match text_of env h a with
  | Raise e => Raise e
  | Ok (ua, ta) =>
      match text_of env h b with
      | Raise e => Raise e
      | Ok (ub, tb) =>
          if ua || ub then
            match (if ua then Ok ta else decode_ascii ta) with
            | Raise e => Raise e
            | Ok xa =>
                match (if ub then Ok tb else decode_ascii tb) with
                | Raise e => Raise e
                | Ok xb => Ok (VUnicode true (xa +:+ " | " +:+ xb))
                end
            end
          else Ok (VStr (ta +:+ " | " +:+ tb))
      end
  end.

(** The [LazyField] a value is, if it is one: [isinstance(v, LazyField)]. *)
Definition as_lazy (h : list object) (v : val) : option (addr * string * list func) :=
  match v with
  | VRef a =>
      match h !! a with
      | Some (OLazy field funcs) => Some (a, field, funcs)
      | _ => None
      end
  | _ => None
  end.

(** Truth value of [v], as [not v] tests it. *)
Definition truthy (h : list object) (v : val) : bool :=
  match v with
  | VNone => false
  | VBool b => b
  | VInt z => negb (z =? 0)%Z
  | VStr b => negb (String.eqb b "")
  | VUnicode _ t => negb (String.eqb t "")
  | VRef a =>
      match h !! a with
      | Some (OList []) => false
      | _ => true
      end
  end.

(** [l.remove(x)] on a list that holds [x]: the first occurrence goes. *)
Fixpoint remove_first (x : func) (l : list func) : list func :=
  match l with
  | [] => []
  | y :: rest => if decide (x = y) then rest else y :: remove_first x rest
  end.

(** ** [copy.deepcopy] *)

Section Deepcopy.
Variable kind_of_lazy : addr → copy_kind.

(** The heap and the memo of one [deepcopy] call. *)
Definition cstate : Type := list object * gmap addr addr.

Definition list_append (v : val) (o : object) : object :=
  match o with
  | OList items => OList (items ++ [v])
  | _ => o
  end.

(** [for a in x: y.append(deepcopy(a, memo))] *)
Fixpoint copy_items (rec : val → cstate → cstate * result val)
    (y : addr) (items : list val) (c : cstate) : cstate * result unit :=
  match items with
  | [] => (c, Ok tt)
  | x :: rest =>
      match rec x c with
      | ((h, memo), Ok v) => copy_items rec y rest (alter (list_append v) y h, memo)
      | (c', Raise e) => (c', Raise e)
      end
  end.

(** An object that is not a container is rebuilt, is handed back as it
    is, or refuses.  What [deepcopy] returns is entered in the memo in
    either case ([memo[id(x)] = y]). *)
Definition copy_plain (a : addr) (o : object) (k : copy_kind) (c : cstate)
    : cstate * result val :=
  match k with
  | CopyFresh => ((c.1 ++ [o], <[a := length c.1]> c.2), Ok (VRef (length c.1)))
  | CopySame => ((c.1, <[a := a]> c.2), Ok (VRef a))
  | CopyTypeError => (c, Raise TypeError)
  | CopyOther n => (c, Raise (OtherError n))
  end.

(** [deepcopy(x, memo)] with [n] nested calls left before the recursion
    limit.  Values without identity are returned as they are; a list is
    rebuilt item by item after the copy under construction has been
    entered in the memo, which is what keeps sharing and cycles. *)
Fixpoint deepcopy_at (n : nat) (x : val) (c : cstate) : cstate * result val :=
  match x with
  | VRef a =>
      match c.2 !! a with
      | Some y => (c, Ok (VRef y))
      | None =>
          match n with
          | 0 => (c, Raise RuntimeError)
          | S n' =>
              match c.1 !! a with
              | None => (c, Raise SystemError)
              | Some (OList items) =>
                  let y := length c.1 in
                  match copy_items (deepcopy_at n') y items
                          (c.1 ++ [OList []], <[a := y]> c.2) with
                  | (c', Ok _) => (c', Ok (VRef y))
                  | (c', Raise e) => (c', Raise e)
                  end
              | Some (OOpaque tag cp) => copy_plain a (OOpaque tag cp) cp c
              | Some (OLazy field funcs) =>
                  copy_plain a (OLazy field funcs) (kind_of_lazy a) c
              end
          end
      end
  | _ => (c, Ok x)
  end.
End Deepcopy.

(** [copy.deepcopy(x)]: a fresh memo for each call. *)
Definition deepcopy (env : Env) (x : val) : M val :=
  λ s, let r := deepcopy_at (lazy_copy env s) (depth_limit env) x (heap s, ∅) in
       (set_heap (λ _, r.1.1) s, r.2).

(** ** [class LazyField] *)

Module LazyField.
Section WithEnv.
Variable env : Env.

(** [__call__]: the loop runs over [self.funcs[:]], the resolvers as
    they are when the call starts, given here with [self.field]; falling
    off the end of the loop returns [None]. *)
Fixpoint __call__ (field : string) (funcs : list func) : M val :=
  match funcs with
  | [] => ret VNone
  | f :: rest =>
      result ← call env f field;
      if decide (result = VNone) then __call__ field rest else ret result
  end.
End WithEnv.
End LazyField.

(** ** [class Entry(dict)] *)

Module Entry.
Section WithEnv.
Variable env : Env.

(** [is_lazy]: [isinstance(dict.get(self, field), LazyField)]. *)
Definition lazy_at (s : State) (field : string) : option (addr * string * list func) :=
  match fields s !! field with
  | Some v => as_lazy (heap s) v
  | None => None
  end.
Definition is_lazy (field : string) : M bool :=
  gets (λ s, bool_decide (is_Some (lazy_at s field))).

Definition __getitem__ (key : string) : M val :=
  stored ← gets (λ s, fields s !! key);
  match stored with
  | None => raise (KeyError key)
  | Some result =>
      lz ← gets (λ s, as_lazy (heap s) result);
      match lz with
      | Some (_, field, funcs) =>
          modify (emit TRACE (EvaluatingLazy key));;
          LazyField.__call__ env field funcs
      | None => ret result
      end
  end.

(** [get(key, default=None, eval_lazy=True, lazy=None)]; the [try] also
    covers the resolvers that [self[key]] runs. *)
Definition get (key : string) (default : val) (eval_lazy : bool)
    (lazy : option bool) : M val :=
  eval_lazy ← (match lazy with
               | Some l => modify (emit WARNING DeprecatedLazyKwarg);; ret l
               | None => ret eval_lazy
               end : M bool);
  skip ← (if eval_lazy then ret false else is_lazy key : M bool);
  if skip : bool then ret default
  else try_except (__getitem__ key) is_KeyError (λ _, ret default).

Definition __contains__ (key : string) : M bool :=
  v ← get key VNone true None;
  ret (negb (bool_decide (v = VNone))).

(** [setdefault], over the [__setitem__] it calls. *)
Definition setdefault_with (setitem : string → val → M unit)
    (key : string) (value : val) : M val :=
  present ← __contains__ key;
  (if present : bool then ret tt else setitem key value : M unit);;
  __getitem__ key.

(** The body of [__setitem__], block by block.  First the cast of
    every string that is not exactly [unicode]. *)
Definition enforce_unicode (key : string) (value : val) : M val :=
  if is_basestring value && negb (type_is_unicode value) then
    λ s, match unicode env (heap s) value with
         | Ok u => (s, Ok u)
         | Raise UnicodeDecodeError => (s, Raise (EntryUnicodeError key value))
         | Raise e => (s, Raise e)
         end
  else ret value.

(** [url] and [original_url] handling, over the [__setitem__] that
    [self.setdefault] calls. *)
Definition url_handling (self_setitem : string → val → M unit)
    (key : string) (value : val) : M unit :=
  if decide (key = "url") then
    if is_basestring value then
      setdefault_with self_setitem "original_url" value;; ret tt
    else
      title ← get "title" VNone true None;
      h ← gets heap;
      match repr_raises env h title, repr_raises env h value with
      | Some e, _ => raise e
      | None, Some e => raise e
      | None, None => raise (PluginError (TriedToSetUrl title value))
      end
  else ret tt.

(** [title] handling. *)
Definition title_handling (key : string) (value : val) : M unit :=
  if decide (key = "title") then
    if is_basestring value then ret tt
    else
      h ← gets heap;
      match repr_raises env h value with
      | Some e => raise e
      | None => raise (PluginError (TriedToSetTitle value))
      end
  else ret tt.

(** [imdb_url] is put in one format, or dropped. *)
Definition imdb_handling (key : string) (value : val) : M val :=
  if decide (key = "imdb_url") then
    match value with
    | VStr t | VUnicode _ t =>
        match extract_id env t with
        | Some imdb_id =>
            if String.eqb imdb_id "" then
              modify (emit DEBUG (InvalidImdbUrl value));; ret VNone
            else ret (VUnicode true (make_url env imdb_id))
        | None =>
            modify (emit DEBUG (InvalidImdbUrl value));; ret VNone
        end
    | _ => ret value
    end
  else ret value.

(** The trace line, whose formatting may fail without harm. *)
Definition log_set (key : string) (value : val) : M unit :=
  h ← gets heap;
  match repr_raises env h value with
  | None => modify (emit TRACE (EntrySet key value))
  | Some e => modify (emit DEBUG (EntrySetFailed key e))
  end.

Definition setitem_body (self_setitem : string → val → M unit)
    (key : string) (value : val) : M unit :=
  value ← enforce_unicode key value;
  url_handling self_setitem key value;;
  title_handling key value;;
  value ← imdb_handling key value;
  log_set key value;;
  modify (set_fields <[key := value]>).

(** [__setitem__] calls itself through [setdefault], for the key
    [original_url] only, so that two levels are all it ever uses (see
    [setitem_unfold] and [setitem_depth]). *)
Fixpoint setitem_n (n : nat) : string → val → M unit :=
  match n with
  | 0 => λ _ _, raise RuntimeError
  | S n' => setitem_body (setitem_n n')
  end.
Definition __setitem__ : string → val → M unit := setitem_n 2.

Definition setdefault (key : string) (value : val) : M val :=
  setdefault_with __setitem__ key value.

(** [for key in d: self[key] = d[key]] *)
Fixpoint set_each (items : list (string * val)) : M unit :=
  match items with
  | [] => ret tt
  | (key, v) :: rest => __setitem__ key v;; set_each rest
  end.

(** [update], with its positional and its keyword arguments. *)
Definition update (args : list val) (kwargs : gmap string val) : M unit :=
  (match args with
   | [] => ret tt
   | [a] =>
       other ← (λ s, (s, dict_of env (heap s) a));
       set_each (dict_iter env other)
   | _ => raise TypeError
   end : M unit);;
  set_each (dict_iter env kwargs).

(** [__init__], on the object that [dict.__new__] has just made. *)
Definition __init__ (args : list val) (kwargs : gmap string val) : M unit :=
  modify (set_trace []);;
  modify (set_snapshots (λ _, ∅));;
  match args with
  | [a0; a1] => update [] (<["url" := a1]> (<["title" := a0]> kwargs))
  | _ => update args kwargs
  end.

(** [register_lazy_fields]: [dict.get(self, field).funcs.append(func)]
    changes the [LazyField] in place, without any write to the dict. *)
Definition funcs_append (func : func) (o : object) : object :=
  match o with
  | OLazy field funcs => OLazy field (funcs ++ [func])
  | _ => o
  end.
Definition alloc (o : object) : M addr :=
  λ s, (set_heap (λ h, h ++ [o]) s, Ok (length (heap s))).
Fixpoint register_lazy_fields (fields_ : list string) (func : func) : M unit :=
  match fields_ with
  | [] => ret tt
  | field :: rest =>
      lz ← gets (λ s, lazy_at s field);
      match lz with
      | Some (a, _, _) => modify (set_heap (alter (funcs_append func) a))
      | None =>
          v ← get field VNone false None;
          h ← gets heap;
          if truthy h v then ret tt
          else a ← alloc (OLazy field [func]); __setitem__ field (VRef a)
      end;;
      register_lazy_fields rest func
  end.

(** [unregister_lazy_fields]: [lazy_funcs] is the list object of the
    [LazyField], so [remove] changes it in place. *)
Fixpoint unregister_loop (fields_ : list string) (func : func) (removed : nat)
    : M nat :=
  match fields_ with
  | [] => ret removed
  | field :: rest =>
      lz ← gets (λ s, lazy_at s field);
      match lz with
      | Some (a, fld, lazy_funcs) =>
          let hit := bool_decide (func ∈ lazy_funcs) in
          let lazy_funcs' := if hit then remove_first func lazy_funcs else lazy_funcs in
          (if hit then modify (set_heap <[a := OLazy fld lazy_funcs']>) else ret tt);;
          match lazy_funcs' with
          | [] => __setitem__ field VNone
          | _ => ret tt
          end;;
          unregister_loop rest func (if hit then S removed else removed)
      | None => unregister_loop rest func removed
      end
  end.
Definition unregister_lazy_fields (fields_ : list string) (func : func) : M nat :=
  unregister_loop fields_ func 0.

Definition safe_str : M val :=
  title ← __getitem__ "title";
  url ← __getitem__ "url";
  λ s, (s, format_pair env (heap s) title url).

Definition isvalid : M bool :=
  has_title ← __contains__ "title";
  if negb has_title then ret false else
  has_url ← __contains__ "url";
  if negb has_url then ret false else
  url ← __getitem__ "url";
  if negb (is_basestring url) then ret false else
  title ← __getitem__ "title";
  if negb (is_basestring title) then ret false else
  ret true.

(** [take_snapshot]: the loop over [self.iteritems()] walks the items in
    the order of the dict; the handler of [TypeError] reads
    [self['title']] for its message. *)
Fixpoint snapshot_items (name : string) (items : list (string * val))
    (snapshot : gmap string val) : M (gmap string val) :=
  match items with
  | [] => ret snapshot
  | (field, value) :: rest =>
      snapshot ← try_except
                   (copy ← deepcopy env value; ret (<[field := copy]> snapshot))
                   is_TypeError
                   (λ _, title ← __getitem__ "title";
                         modify (emit WARNING (SnapshotFieldSkipped name field title));;
                         ret snapshot);
      snapshot_items name rest snapshot
  end.
Definition take_snapshot (name : string) : M unit :=
  items ← gets (λ s, dict_iter env (fields s));
  snapshot ← snapshot_items name items ∅;
  if decide (snapshot = ∅) then ret tt
  else
    known ← gets (λ s, snapshots s !! name);
    match known with
    | Some _ =>
        title ← __getitem__ "title";
        modify (emit WARNING (SnapshotOverwritten name title))
    | None => ret tt
    end;;
    modify (set_snapshots <[name := snapshot]>).
End WithEnv.
End Entry.

(** ** Sample surroundings, used by the examples *)

Module Sample.
(** Identifiers as IMDb writes them: [tt] or [nm] and seven digits. *)
Definition is_digit (c : Ascii.ascii) : bool :=
  let n := Ascii.N_of_ascii c in ((48 <=? n) && (n <=? 57))%N.
Fixpoint digits (n : nat) (s : string) : option string :=
  match n, s with
  | 0, _ => Some EmptyString
  | S n', String c rest =>
      if is_digit c then String c <$> digits n' rest else None
  | S _, EmptyString => None
  end.
Definition id_here (s : string) : option string :=
  match s with
  | String c1 (String c2 rest) =>
      if bool_decide (String c1 (String c2 EmptyString) = "tt")
         || bool_decide (String c1 (String c2 EmptyString) = "nm")
      then (λ d, String c1 (String c2 d)) <$> digits 7 rest
      else None
  | _ => None
  end.
Fixpoint extract_id (s : string) : option string :=
  match id_here s with
  | Some i => Some i
  | None => match s with
            | EmptyString => None
            | String _ rest => extract_id rest
            end
  end.
Definition make_url (imdb_id : string) : string :=
  "http://www.imdb.com/title/" +:+ imdb_id +:+ "/".

(** Surroundings in which the callback [f] behaves as [resolve f]. *)
Definition env_with (resolve : func → string → M val) : Env :=
  mkEnv resolve extract_id make_url
    (λ _ _, None)                        (* repr never raises *)
    (λ _ _, Ok (false, "<object>"))      (* str of a foreign object *)
    (λ _ _, CopyFresh)                   (* lazy fields can be copied *)
    300                                  (* depth of nested copies *)
    (λ _ _, Raise TypeError)             (* nothing converts to a dict *)
    map_to_list.

(** No callback finds anything. *)
Definition env : Env := env_with (λ _ _, ret VNone).

(** Callback [0] finds nothing, callback [1] answers with the name of the
    field, any other callback fails. *)
Definition env_chain : Env :=
  env_with (λ f field,
    match f with
    | 0 => ret VNone
    | 1 => ret (VUnicode true field)
    | S (S n) => raise (OtherError n)
    end).

(** Every callback populates the field it is asked for, as the lookup
    plugins do, and returns what it stored. *)
Definition env_populate : Env :=
  env_with (λ _ field,
    modify (set_fields <[field := VInt 42]>);; ret (VInt 42)).

(** The state of an entry that has just been made by [dict.__new__]. *)
Definition blank : State := mkState ∅ [] ∅ [] [].
End Sample.

(** * [flexget/cli.py] *)

(** What the command line code raises: [click.UsageError], through
    [ctx.fail], and [click.exceptions.Exit], through [ctx.exit]. *)
Inductive cli_exc :=
| UsageError (message : string)
| Exit.

Inductive outcome (A : Type) :=
| Returns (a : A)
| Raises (e : cli_exc).
Arguments Returns {A} a.
Arguments Raises {A} e.

(** [sorted] on strings: the order is that of the codes of the
    characters. *)
Definition str_le (x y : string) : Prop := String.leb x y = true.
#[global] Instance str_le_dec x y : Decision (str_le x y).
Proof. unfold str_le. apply _. Defined.
Definition sorted (l : list string) : list string := merge_sort str_le l.

(** [x.startswith(prefix)] *)
Definition startswith (x prefix : string) : bool := String.prefix prefix x.

Module AliasedGroup.
Section WithGroup.
(** The commands, what [click.Group.get_command(self, ctx, name)] answers
    for a name, and what [self.list_commands(ctx)] lists. *)
Variable command : Type.
Variable group_get_command : string → option command.
Variable list_commands : list string.

(** [get_command]: the name itself, or the one command it begins. *)
Definition get_command (cmd_name : string) : outcome (option command) :=
  match group_get_command cmd_name with
  | Some rv => Returns (Some rv)
  | None =>
      let matches := filter (λ x, startswith x cmd_name = true) list_commands in
      match matches with
      | [] => Returns None
      | [m] => Returns (group_get_command m)
      | _ => Raises (UsageError ("Too many matches: "
                                 +:+ String.concat ", " (sorted matches)))
      end
  end.
End WithGroup.
End AliasedGroup.

(** The callbacks of the options [--debug], [--debug-trace] and [--cron]:
    [ctx.default_map] is the state, the value of the flag is handed
    back. *)
Definition debug_callback (value : bool) (default_map : gmap string val)
    : gmap string val * bool :=
  (if value then <["loglevel" := VStr "debug"]> default_map else default_map,
   value).

Definition debug_trace_callback (value : bool) (default_map : gmap string val)
    : gmap string val * bool :=
  (if value
   then <["debug" := VBool true]> (<["loglevel" := VStr "trace"]> default_map)
   else default_map,
   value).

Definition cron_callback (value : bool) (default_map : gmap string val)
    : gmap string val * bool :=
  (if value then <["loglevel" := VStr "info"]> default_map else default_map,
   value).

(** [version_callback]: [console] appends a line to what was printed;
    [current] and [latest] are what [get_current_flexget_version] and
    [get_latest_flexget_version_number] answer, the latter [None] when the
    server cannot be reached. *)
Definition version_callback (current : string) (latest : option string)
    (resilient_parsing value : bool) (printed : list string)
    : list string * outcome unit :=
  if negb value || resilient_parsing then (printed, Returns tt)
  else
    let printed := printed ++ [current] in
    let printed :=
      match latest with
      | Some l =>
          if negb (String.eqb l "") then
            if String.eqb current l
            then printed ++ ["You are on the latest release."]
            else printed ++ ["Latest release: " +:+ l]
          else printed ++ ["Error getting latest version number from https://pypi.python.org/pypi/FlexGet"]
      | None =>
          printed ++ ["Error getting latest version number from https://pypi.python.org/pypi/FlexGet"]
      end in
    (printed, Raises Exit).

(** [inject_callback]: one entry for each title, its [url] made of thirty
    characters drawn by [random.sample]; [samples] are the draws, in
    turn, as many as there are titles at least.  Each entry is built on a
    new object, and an entry whose construction raises ends the
    comprehension. *)
Definition new_entry : State := mkState ∅ [] ∅ [] [].

Fixpoint inject_callback (env : Env) (value : list val) (samples : list string)
    : result (list State) :=
  match value, samples with
  | [], _ => Ok []
  | title :: rest, sample :: samples' =>
      match Entry.__init__ env []
              (<["url" := VStr ("http://localhost/inject/" +:+ sample)]>
                 (<["title" := title]> ∅)) new_entry with
      | (entry, Ok _) =>
          match inject_callback env rest samples' with
          | Ok entries => Ok (entry :: entries)
          | Raise e => Raise e
          end
      | (_, Raise e) => Raise e
      end
  | _ :: _, [] => Raise SystemError
  end.

(** * Properties *)

(** ** The monad *)

Ltac munfold :=
  unfold bind, ret, gets, modify, raise, try_except in *.

Lemma bind_ok {A B} (m : M A) (k : A → M B) s s' a :
  m s = (s', Ok a) → bind m k s = k a s'.
Proof. intros H. unfold bind. by rewrite H. Qed.

Lemma bind_raise {A B} (m : M A) (k : A → M B) s s' e :
  m s = (s', Raise e) → bind m k s = (s', Raise e).
Proof. intros H. unfold bind. by rewrite H. Qed.

(** ** Reading *)

Section Reading.
Variable env : Env.

Lemma getitem_missing key s :
  fields s !! key = None →
  Entry.__getitem__ env key s = (s, Raise (KeyError key)).
Proof. intros H. unfold Entry.__getitem__. munfold. by rewrite H. Qed.

Lemma getitem_concrete key v s :
  fields s !! key = Some v → as_lazy (heap s) v = None →
  Entry.__getitem__ env key s = (s, Ok v).
Proof. intros H1 H2. unfold Entry.__getitem__. munfold. by rewrite H1, H2. Qed.

Lemma getitem_lazy key v a field funcs s :
  fields s !! key = Some v → as_lazy (heap s) v = Some (a, field, funcs) →
  Entry.__getitem__ env key s =
    LazyField.__call__ env field funcs (emit TRACE (EvaluatingLazy key) s).
Proof. intros H1 H2. unfold Entry.__getitem__. munfold. by rewrite H1, H2. Qed.

Lemma get_default key s :
  Entry.get env key VNone true None s =
    match Entry.__getitem__ env key s with
    | (s', Raise (KeyError _)) => (s', Ok VNone)
    | r => r
    end.
Proof.
  unfold Entry.get. munfold.
  destruct (Entry.__getitem__ env key s) as [s' [v|e]]; [done|].
  by destruct e.
Qed.
End Reading.

(** [field in record] in terms of the read of the field. *)
Lemma contains_is_read_not_none (env : Env) (key : string) (s : State) :
  Entry.__contains__ env key s =
    match Entry.__getitem__ env key s with
    | (s', Ok v) => (s', Ok (negb (bool_decide (v = VNone))))
    | (s', Raise (KeyError _)) => (s', Ok false)
    | (s', Raise e) => (s', Raise e)
    end.
Proof.
  unfold Entry.__contains__, bind. rewrite get_default.
  destruct (Entry.__getitem__ env key s) as [s' [v|e]]; [done|].
  by destruct e.
Qed.

(** ** Lazy fields *)

(** The resolvers of a list were called one after the other, each finding
    nothing, from the first state to the second. *)
Inductive found_nothing (env : Env) (field : string) : list func → State → State → Prop :=
| found_nothing_nil s : found_nothing env field [] s s
| found_nothing_cons f rest s s1 s2 :
    call env f field s = (s1, Ok VNone) →
    found_nothing env field rest s1 s2 →
    found_nothing env field (f :: rest) s s2.

Section Lazy.
Variable env : Env.

Lemma call_skips field pre rest s s1 :
  found_nothing env field pre s s1 →
  LazyField.__call__ env field (pre ++ rest) s = LazyField.__call__ env field rest s1.
Proof.
  induction 1 as [|f pre s s1 s2 Hf _ IH]; [done|].
  simpl. unfold bind. rewrite Hf. by rewrite decide_True.
Qed.

Lemma call_all_nothing field funcs s s' :
  found_nothing env field funcs s s' →
  LazyField.__call__ env field funcs s = (s', Ok VNone).
Proof.
  intros H. rewrite <-(app_nil_r funcs). by rewrite (call_skips _ _ _ _ _ H).
Qed.

Lemma call_first field pre f post s s1 s2 v :
  found_nothing env field pre s s1 →
  call env f field s1 = (s2, Ok v) → v ≠ VNone →
  LazyField.__call__ env field (pre ++ f :: post) s = (s2, Ok v).
Proof.
  intros Hpre Hf Hv. rewrite (call_skips _ _ _ _ _ Hpre).
  simpl. unfold bind. rewrite Hf. by rewrite decide_False.
Qed.

Lemma call_returns field funcs s s' v :
  LazyField.__call__ env field funcs s = (s', Ok v) →
  (v = VNone ∧ found_nothing env field funcs s s') ∨
  (v ≠ VNone ∧ ∃ pre f post s1,
      funcs = pre ++ f :: post ∧ found_nothing env field pre s s1 ∧
      call env f field s1 = (s', Ok v)).
Proof.
  revert s. induction funcs as [|f rest IH]; intros s; simpl.
  - unfold ret. intros [= <- <-]. left. split; [done|constructor].
  - unfold bind. destruct (call env f field s) as [s1 [r|e]] eqn:Hf; [|done].
    destruct (decide (r = VNone)) as [->|Hr].
    + intros H. destruct (IH _ H) as [[-> Hn]|[Hv (pre & g & post & s2 & -> & Hn & Hg)]].
      * left. split; [done|]. by econstructor.
      * right. split; [done|]. exists (f :: pre), g, post, s2.
        split; [done|]. split; [by econstructor|done].
    + unfold ret. intros [= <- <-]. right. split; [done|].
      exists [], f, rest, s. split; [done|]. split; [constructor|done].
Qed.

(** Registering on a field that is lazy already puts the resolver at the
    end of the list of that field. *)
Lemma register_appends key func a field funcs s :
  Entry.lazy_at s key = Some (a, field, funcs) →
  ∃ s', Entry.register_lazy_fields env [key] func s = (s', Ok tt) ∧
        Entry.lazy_at s' key = Some (a, field, funcs ++ [func]) ∧
        fields s' = fields s.
Proof.
  intros H. eexists. simpl. munfold. rewrite H. simpl. split; [done|]. split; [|done].
  unfold Entry.lazy_at in *. simpl.
  destruct (fields s !! key) as [v|]; [|done].
  destruct v as [| | | | |a']; try done. simpl in *.
  destruct (heap s !! a') as [[]|] eqn:Ha; try done.
  simplify_eq. by rewrite list_lookup_alter_eq, Ha.
Qed.
End Lazy.

(** C3. Evaluating a lazy field calls its resolvers in the order of the
    list, each on the state the one before left, and returns what the first
    resolver that answers something else than [None] answers, without
    calling the ones after it; when each of them answers [None] the
    evaluation returns [None] and raises nothing.  The list is in the order
    of registration, as registering on a lazy field appends to it, and a
    read of the field is this evaluation. *)
Theorem lazy_field_first_result (env : Env) (field : string) :
  (∀ pre f post s s1 s2 v,
      found_nothing env field pre s s1 →
      call env f field s1 = (s2, Ok v) → v ≠ VNone →
      LazyField.__call__ env field (pre ++ f :: post) s = (s2, Ok v)) ∧
  (∀ funcs s s',
      found_nothing env field funcs s s' →
      LazyField.__call__ env field funcs s = (s', Ok VNone)) ∧
  (∀ funcs s s' v,
      LazyField.__call__ env field funcs s = (s', Ok v) →
      (v = VNone ∧ found_nothing env field funcs s s') ∨
      (v ≠ VNone ∧ ∃ pre f post s1,
          funcs = pre ++ f :: post ∧ found_nothing env field pre s s1 ∧
          call env f field s1 = (s', Ok v))) ∧
  (∀ key func a funcs s,
      Entry.lazy_at s key = Some (a, field, funcs) →
      ∃ s', Entry.register_lazy_fields env [key] func s = (s', Ok tt) ∧
            Entry.lazy_at s' key = Some (a, field, funcs ++ [func])) ∧
  (∀ key v a funcs s,
      fields s !! key = Some v → as_lazy (heap s) v = Some (a, field, funcs) →
      Entry.__getitem__ env key s =
        LazyField.__call__ env field funcs (emit TRACE (EvaluatingLazy key) s)).
Proof.
  repeat split.
  - intros. by eapply call_first.
  - intros. by apply call_all_nothing.
  - intros. by apply call_returns.
  - intros key func a funcs s H.
    destruct (register_appends env key func a field funcs s H) as (s' & ? & ? & _).
    eauto.
  - intros. by eapply getitem_lazy.
Qed.

(** With a first resolver that finds nothing, a second that answers and a
    third that would fail, the answer is the second's. *)
Lemma lazy_field_first_result_witness :
  LazyField.__call__ Sample.env_chain "tvdb_id" [0; 1; 7] Sample.blank
    = (Sample.blank, Ok (VUnicode true "tvdb_id")).
Proof.
  apply (proj1 (lazy_field_first_result Sample.env_chain "tvdb_id")
           [0] 1 [7] Sample.blank Sample.blank Sample.blank).
  - econstructor; [reflexivity|constructor].
  - reflexivity.
  - discriminate.
Defined.

Example lazy_field_both_nothing :
  LazyField.__call__ Sample.env_chain "tvdb_id" [0; 0] Sample.blank
    = (Sample.blank, Ok VNone).
Proof. reflexivity. Qed.

(** ** Writing *)

(** The two states differ by what was logged at most. *)
Definition same_entry (s s' : State) : Prop :=
  fields s' = fields s ∧ trace s' = trace s ∧
  snapshots s' = snapshots s ∧ heap s' = heap s.

Lemma same_entry_refl s : same_entry s s.
Proof. by repeat split. Qed.
Lemma same_entry_trans s1 s2 s3 :
  same_entry s1 s2 → same_entry s2 s3 → same_entry s1 s3.
Proof. intros (?&?&?&?) (?&?&?&?). repeat split; congruence. Qed.
Lemma same_entry_emit l m s : same_entry s (emit l m s).
Proof. by repeat split. Qed.

Section Writing.
Variable env : Env.

Lemma unicode_of_string v u h :
  is_basestring v = true → unicode env h v = Ok u →
  ∃ t, u = VUnicode true t.
Proof.
  destruct v as [| | |b|x t|]; try done; intros _; unfold unicode; simpl.
  - unfold decode_ascii. destruct (is_ascii b); [|done]. intros [= <-]. eauto.
  - intros [= <-]. eauto.
Qed.

Lemma enforce_unicode_state key v s s' r :
  Entry.enforce_unicode env key v s = (s', r) → s' = s.
Proof.
  unfold Entry.enforce_unicode.
  destruct (is_basestring v && negb (type_is_unicode v)).
  - destruct (unicode env (heap s) v) as [u|[]]; congruence.
  - unfold ret. congruence.
Qed.

Lemma enforce_unicode_ok key v u s :
  is_basestring v = true → unicode env (heap s) v = Ok u →
  Entry.enforce_unicode env key v s = (s, Ok u).
Proof.
  intros Hs Hu. unfold Entry.enforce_unicode. rewrite Hs. simpl.
  destruct (type_is_unicode v) eqn:Hx; simpl.
  - destruct v as [| | | |[] t|]; try done. unfold unicode in Hu. simpl in Hu.
    unfold ret. congruence.
  - by rewrite Hu.
Qed.

Lemma title_handling_state key v s s' r :
  Entry.title_handling env key v s = (s', r) → s' = s.
Proof.
  unfold Entry.title_handling. munfold.
  repeat case_match; congruence.
Qed.

Lemma title_handling_string key v s :
  is_basestring v = true → Entry.title_handling env key v s = (s, Ok tt).
Proof.
  intros H. unfold Entry.title_handling. rewrite H. by case_decide.
Qed.

Lemma imdb_handling_same key v s s' r :
  Entry.imdb_handling env key v s = (s', r) → same_entry s s' ∧ ∃ v', r = Ok v'.
Proof.
  unfold Entry.imdb_handling. munfold.
  repeat case_match; intros [= <- <-];
    eauto using same_entry_refl, same_entry_emit.
Qed.

Lemma imdb_handling_other key v s :
  key ≠ "imdb_url" → Entry.imdb_handling env key v s = (s, Ok v).
Proof. intros H. unfold Entry.imdb_handling. by rewrite decide_False. Qed.

Lemma log_set_same key v s :
  ∃ s', Entry.log_set env key v s = (s', Ok tt) ∧ same_entry s s'.
Proof.
  unfold Entry.log_set. munfold.
  destruct (repr_raises env (heap s) v); eauto using same_entry_emit.
Qed.

Lemma url_handling_other f key v s :
  key ≠ "url" → Entry.url_handling env f key v s = (s, Ok tt).
Proof. intros H. unfold Entry.url_handling. by rewrite decide_False. Qed.

(** What a write that returns has stored, in terms of the value that the
    [imdb_url] block hands over. *)
Lemma setitem_body_stored f key v s s' :
  Entry.setitem_body env f key v s = (s', Ok tt) →
  ∃ v1 s1 s2 v2 s3,
    Entry.enforce_unicode env key v s = (s, Ok v1) ∧
    Entry.url_handling env f key v1 s = (s1, Ok tt) ∧
    Entry.title_handling env key v1 s1 = (s1, Ok tt) ∧
    Entry.imdb_handling env key v1 s1 = (s2, Ok v2) ∧
    same_entry s1 s3 ∧
    s' = set_fields <[key := v2]> s3.
Proof.
  unfold Entry.setitem_body, bind.
  destruct (Entry.enforce_unicode env key v s) as [s0 [v1|e]] eqn:H1; [|done].
  apply enforce_unicode_state in H1 as Hs0. subst s0.
  destruct (Entry.url_handling env f key v1 s) as [s1 [[]|e]] eqn:H2; [|done].
  destruct (Entry.title_handling env key v1 s1) as [s1' [[]|e]] eqn:H3; [|done].
  apply title_handling_state in H3 as Hs1. subst s1'.
  destruct (Entry.imdb_handling env key v1 s1) as [s2 [v2|e]] eqn:H4; [|done].
  destruct (imdb_handling_same _ _ _ _ _ H4) as [Hs2 _].
  destruct (log_set_same key v2 s2) as (s3 & H5 & Hs3). rewrite H5.
  unfold modify. intros [= <-].
  exists v1, s1, s2, v2, s3. repeat split; try done.
  all: destruct Hs2 as (?&?&?&?), Hs3 as (?&?&?&?); congruence.
Qed.
End Writing.

Section Setitem.
Variable env : Env.

Lemma setitem_body_ext f g key v s :
  key ≠ "url" →
  Entry.setitem_body env f key v s = Entry.setitem_body env g key v s.
Proof.
  intros H. unfold Entry.setitem_body, bind.
  destruct (Entry.enforce_unicode env key v s) as [s0 [v1|e]]; [|done].
  by rewrite !url_handling_other.
Qed.

Lemma setdefault_with_ext f g key v s :
  (∀ s0, f key v s0 = g key v s0) →
  Entry.setdefault_with env f key v s = Entry.setdefault_with env g key v s.
Proof.
  intros H. unfold Entry.setdefault_with, bind.
  destruct (Entry.__contains__ env key s) as [s1 [[]|e]]; [done| |done].
  by rewrite H.
Qed.

Lemma url_handling_ext f g key v s :
  (∀ w s0, f "original_url" w s0 = g "original_url" w s0) →
  Entry.url_handling env f key v s = Entry.url_handling env g key v s.
Proof.
  intros H. unfold Entry.url_handling, bind.
  case_decide; [|done]. destruct (is_basestring v); [|done].
  by rewrite (setdefault_with_ext f g).
Qed.

(** The equation of the source: the [__setitem__] that [setdefault]
    calls is [__setitem__] itself. *)
Lemma setitem_unfold key v s :
  Entry.__setitem__ env key v s
    = Entry.setitem_body env (Entry.__setitem__ env) key v s.
Proof.
  unfold Entry.__setitem__. simpl. unfold Entry.setitem_body at 1 3, bind.
  destruct (Entry.enforce_unicode env key v s) as [s0 [v1|e]]; [|done].
  rewrite (url_handling_ext _ (Entry.setitem_body env (Entry.setitem_body env
             (λ _ _, raise RuntimeError)))); [done|].
  intros w s1. by apply setitem_body_ext.
Qed.

(** Two levels of calls are all that is ever used. *)
Lemma setitem_depth n key v s :
  Entry.setitem_n env (S (S n)) key v s = Entry.__setitem__ env key v s.
Proof.
  unfold Entry.__setitem__. simpl. unfold Entry.setitem_body at 1 3, bind.
  destruct (Entry.enforce_unicode env key v s) as [s0 [v1|e]]; [|done].
  rewrite (url_handling_ext _ (Entry.setitem_body env (λ _ _, raise RuntimeError))); [done|].
  intros w s1. by apply setitem_body_ext.
Qed.

(** A write to a key other than [url], once the cast and the [title]
    check are passed, stores and logs, and that is all. *)
Lemma setitem_body_plain f key v v1 s :
  key ≠ "url" →
  Entry.enforce_unicode env key v s = (s, Ok v1) →
  (key = "title" → is_basestring v1 = true) →
  ∃ v2 s2 s3,
    Entry.imdb_handling env key v1 s = (s2, Ok v2) ∧
    same_entry s s3 ∧
    Entry.setitem_body env f key v s = (set_fields <[key := v2]> s3, Ok tt).
Proof.
  intros Hk H1 Ht. unfold Entry.setitem_body, bind. rewrite H1.
  rewrite url_handling_other by done.
  assert (Entry.title_handling env key v1 s = (s, Ok tt)) as ->.
  { unfold Entry.title_handling. case_decide; [|done]. by rewrite Ht. }
  destruct (Entry.imdb_handling env key v1 s) as [s2 r] eqn:H4.
  destruct (imdb_handling_same env _ _ _ _ _ H4) as [Hs2 [v2 ->]].
  destruct (log_set_same env key v2 s2) as (s3 & H5 & Hs3). rewrite H5.
  exists v2, s2, s3. repeat split; try done.
  all: destruct Hs2 as (?&?&?&?), Hs3 as (?&?&?&?); congruence.
Qed.

Lemma enforce_unicode_exact key t s :
  Entry.enforce_unicode env key (VUnicode true t) s = (s, Ok (VUnicode true t)).
Proof. done. Qed.

Lemma enforce_unicode_none key s :
  Entry.enforce_unicode env key VNone s = (s, Ok VNone).
Proof. done. Qed.

(** [setdefault('original_url', value)] when no resolver stands behind
    [original_url]: the value is stored if the key is missing or holds
    [None], and nothing is written otherwise. *)
Lemma setdefault_original_url f t s :
  Entry.lazy_at s "original_url" = None →
  ∃ s1, Entry.setdefault_with env (Entry.setitem_body env f)
          "original_url" (VUnicode true t) s = (s1, Ok
            match fields s !! "original_url" with
            | Some VNone | None => VUnicode true t
            | Some w => w
            end) ∧
        trace s1 = trace s ∧ snapshots s1 = snapshots s ∧ heap s1 = heap s ∧
        fields s1 =
          match fields s !! "original_url" with
          | Some VNone | None => <["original_url" := VUnicode true t]> (fields s)
          | Some _ => fields s
          end.
Proof.
  intros Hl. unfold Entry.setdefault_with, bind.
  rewrite contains_is_read_not_none.
  unfold Entry.lazy_at in Hl.
  destruct (fields s !! "original_url") as [w|] eqn:Hw.
  - rewrite (getitem_concrete env _ w) by done.
    destruct (decide (w = VNone)) as [->|Hn].
    + rewrite bool_decide_eq_true_2 by done. simpl.
      destruct (setitem_body_plain f "original_url" (VUnicode true t) (VUnicode true t) s)
        as (v2 & s2 & s3' & H4 & Hs3' & ->); [done|done|done|].
      rewrite imdb_handling_other in H4 by done. injection H4 as <- <-.
      destruct Hs3' as (Hf&?&?&Hh).
      rewrite (getitem_concrete env _ (VUnicode true t));
        [|by simpl; rewrite lookup_insert_eq|done].
      eexists. split; [done|]. simpl. by rewrite Hf.
    + rewrite bool_decide_eq_false_2 by done. simpl. unfold ret.
      rewrite (getitem_concrete env _ w) by done.
      eexists. split; [by destruct w|]. by destruct w.
  - rewrite getitem_missing by done. simpl.
    destruct (setitem_body_plain f "original_url" (VUnicode true t) (VUnicode true t) s)
      as (v2 & s2 & s3' & H4 & Hs3' & ->); [done|done|done|].
    rewrite imdb_handling_other in H4 by done. injection H4 as <- <-.
    destruct Hs3' as (Hf&?&?&Hh).
    rewrite (getitem_concrete env _ (VUnicode true t));
      [|by simpl; rewrite lookup_insert_eq|done].
    eexists. split; [done|]. simpl. by rewrite Hf.
Qed.
End Setitem.

Section UrlWrite.
Variable env : Env.

(** The fields after [setdefault('original_url', u)] on fields [m]. *)
Definition with_original_url (u : val) (m : gmap string val) : gmap string val :=
  match m !! "original_url" with
  | Some VNone | None => <["original_url" := u]> m
  | Some _ => m
  end.

(** A write of a string to [url], when no resolver stands behind
    [original_url]. *)
Lemma setitem_url_string v t s :
  is_basestring v = true → unicode env (heap s) v = Ok (VUnicode true t) →
  Entry.lazy_at s "original_url" = None →
  ∃ s', Entry.__setitem__ env "url" v s = (s', Ok tt) ∧
        fields s' = <["url" := VUnicode true t]>
                      (with_original_url (VUnicode true t) (fields s)) ∧
        trace s' = trace s ∧ snapshots s' = snapshots s ∧ heap s' = heap s.
Proof.
  intros Hs Hu Hl. unfold Entry.__setitem__. simpl.
  unfold Entry.setitem_body at 1, bind.
  rewrite (enforce_unicode_ok env _ _ _ _ Hs Hu).
  unfold Entry.url_handling, bind. rewrite decide_True by done. simpl.
  destruct (setdefault_original_url env (λ _ _, raise RuntimeError) t s Hl)
    as (s1 & -> & Ht & Hsn & Hh & Hf).
  unfold ret. simpl.
  destruct (log_set_same env "url" (VUnicode true t) s1) as (s3 & -> & Hf3 & ? & ? & ?).
  eexists. split; [done|]. simpl. unfold with_original_url.
  rewrite Hf3, Hf. repeat split; congruence.
Qed.

Lemma get_title_quiet s :
  Entry.lazy_at s "title" = None →
  ∃ v, Entry.get env "title" VNone true None s = (s, Ok v).
Proof.
  intros Hl. rewrite get_default. unfold Entry.lazy_at in Hl.
  destruct (fields s !! "title") as [w|] eqn:Hw.
  - rewrite (getitem_concrete env _ w) by done. eauto.
  - rewrite getitem_missing by done. eauto.
Qed.

Lemma enforce_unicode_basestring key v v1 s :
  Entry.enforce_unicode env key v s = (s, Ok v1) →
  is_basestring v1 = is_basestring v.
Proof.
  unfold Entry.enforce_unicode.
  destruct (is_basestring v) eqn:Hs; simpl.
  - destruct (type_is_unicode v) eqn:Hx; simpl.
    + unfold ret. by intros [= <-].
    + destruct (unicode env (heap s) v) as [u|e] eqn:Hu; [|by destruct e].
      intros [= <-]. by destruct (unicode_of_string env _ _ _ Hs Hu) as [t ->].
  - unfold ret. by intros [= <-].
Qed.

Lemma enforce_unicode_string key v v1 s :
  is_basestring v = true →
  Entry.enforce_unicode env key v s = (s, Ok v1) →
  ∃ t, v1 = VUnicode true t.
Proof.
  intros Hs. unfold Entry.enforce_unicode. rewrite Hs. simpl.
  destruct (type_is_unicode v) eqn:Hx; simpl.
  - unfold ret. intros [= <-]. destruct v as [| | | |[] t|]; try done. eauto.
  - destruct (unicode env (heap s) v) as [u|e] eqn:Hu; [|by destruct e].
    intros [= <-]. by apply (unicode_of_string env _ _ _ Hs Hu).
Qed.

(** A write to [url] that does not return leaves the state as it was,
    when the resolvers stay out of it. *)
Lemma setitem_url_raise v s s' e :
  Entry.lazy_at s "original_url" = None →
  is_basestring v = true ∨ Entry.lazy_at s "title" = None →
  Entry.__setitem__ env "url" v s = (s', Raise e) →
  s' = s.
Proof.
  intros Hl Hv. unfold Entry.__setitem__. simpl.
  unfold Entry.setitem_body at 1, bind.
  destruct (Entry.enforce_unicode env "url" v s) as [s0 [v1|e0]] eqn:H1.
  2:{ intros [= <- _]. by apply enforce_unicode_state in H1. }
  pose proof (enforce_unicode_state env _ _ _ _ _ H1) as ->.
  pose proof (enforce_unicode_basestring _ _ _ _ H1) as Hb.
  destruct (is_basestring v) eqn:Hs.
  - destruct (enforce_unicode_string _ _ _ _ Hs H1) as [t ->].
    unfold Entry.url_handling, bind. rewrite decide_True by done. simpl.
    destruct (setdefault_original_url env (λ _ _, raise RuntimeError) t s Hl)
      as (s1 & -> & _).
    unfold ret. simpl.
    by destruct (log_set_same env "url" (VUnicode true t) s1) as (s3 & -> & _).
  - destruct Hv as [|Ht]; [done|].
    unfold Entry.url_handling, bind. rewrite decide_True by done. rewrite Hb.
    destruct (get_title_quiet s Ht) as [w ->]. unfold gets, raise.
    repeat case_match; congruence.
Qed.
End UrlWrite.

(** C1 (amended). For a string [v] that the cast to [unicode] accepts, with
    [u] its unicode form, and a key other than [imdb_url]: a write of [v]
    that returns is followed by a read that returns [u], and the write does
    return when the key is not [url], or when no resolver stands behind
    [original_url].  For [imdb_url] the write returns and what is read back
    is the URL made from the identifier found in the text, or [None] when
    none is found. *)
Theorem write_then_read_canonical (env : Env) (key : string) (v u : val) (s : State) :
  is_basestring v = true →
  unicode env (heap s) v = Ok u →
  (key ≠ "imdb_url" →
     (∀ s', Entry.__setitem__ env key v s = (s', Ok tt) →
            Entry.__getitem__ env key s' = (s', Ok u)) ∧
     (key ≠ "url" ∨ Entry.lazy_at s "original_url" = None →
      ∃ s', Entry.__setitem__ env key v s = (s', Ok tt))) ∧
  (key = "imdb_url" →
     ∃ s' t, u = VUnicode true t ∧
       Entry.__setitem__ env key v s = (s', Ok tt) ∧
       Entry.__getitem__ env key s' =
         (s', Ok match extract_id env t with
                 | Some imdb_id =>
                     if String.eqb imdb_id "" then VNone
                     else VUnicode true (make_url env imdb_id)
                 | None => VNone
                 end)).
Proof.
  intros Hs Hu. destruct (unicode_of_string env _ _ _ Hs Hu) as [t ->].
  pose proof (enforce_unicode_ok env key _ _ _ Hs Hu) as H1.
  split; [intros Hk; split|intros ->].
  - intros s'. rewrite setitem_unfold. intros H.
    apply setitem_body_stored in H
      as (v1 & s1 & s2 & v2 & s3 & H1' & _ & _ & H4 & _ & ->).
    rewrite H1 in H1'. injection H1' as <-.
    rewrite imdb_handling_other in H4 by done. injection H4 as <- <-.
    apply getitem_concrete; [|done]. simpl. by rewrite lookup_insert_eq.
  - intros [Hurl|Hl].
    + destruct (setitem_body_plain env (Entry.__setitem__ env) key v _ s Hurl H1)
        as (v2 & s2 & s3 & _ & _ & H); [done|].
      rewrite setitem_unfold. eauto.
    + destruct (decide (key = "url")) as [->|Hurl].
      * destruct (setitem_url_string env v t s Hs Hu Hl) as (s' & H & _). eauto.
      * destruct (setitem_body_plain env (Entry.__setitem__ env) key v _ s Hurl H1)
          as (v2 & s2 & s3 & _ & _ & H); [done|].
        rewrite setitem_unfold. eauto.
  - destruct (setitem_body_plain env (Entry.__setitem__ env) "imdb_url" v _ s
                ltac:(done) H1) as (v2 & s2 & s3 & H4 & _ & H); [done|].
    rewrite setitem_unfold, H. eexists _, t. split; [done|]. split; [done|].
    assert (v2 = match extract_id env t with
                 | Some imdb_id =>
                     if String.eqb imdb_id "" then VNone
                     else VUnicode true (make_url env imdb_id)
                 | None => VNone
                 end) as <-.
    { revert H4. unfold Entry.imdb_handling. simpl. munfold.
      repeat case_match; congruence. }
    apply getitem_concrete; [by simpl; rewrite lookup_insert_eq|].
    revert H4. unfold Entry.imdb_handling. simpl. munfold.
    repeat case_match; intros [= <- <-]; done.
Qed.

Lemma write_then_read_canonical_witness :
  ∃ s', Entry.__setitem__ Sample.env "title" (VStr "Show S01E01") Sample.blank
          = (s', Ok tt) ∧
        Entry.__getitem__ Sample.env "title" s' = (s', Ok (VUnicode true "Show S01E01")).
Proof.
  destruct (write_then_read_canonical Sample.env "title" (VStr "Show S01E01")
              (VUnicode true "Show S01E01") Sample.blank) as [H _];
    [reflexivity|reflexivity|].
  destruct H as [Hread Hret]; [discriminate|].
  destruct Hret as [s' Hw]; [left; discriminate|].
  exists s'. split; [exact Hw|]. exact (Hread s' Hw).
Defined.

(** C1, as it is stated, fails for the key [imdb_url]: the text is not a
    link to IMDb, the write returns and the read gives [None]. *)
Lemma write_then_read_imdb_url_differs :
  ¬ (∀ (env : Env) (key : string) (v u : val) (s s' : State),
       is_basestring v = true →
       unicode env (heap s) v = Ok u →
       Entry.__setitem__ env key v s = (s', Ok tt) →
       Entry.__getitem__ env key s' = (s', Ok u)).
Proof.
  intros H.
  specialize (H Sample.env "imdb_url" (VStr "not-a-valid-imdb-link")
                (VUnicode true "not-a-valid-imdb-link") Sample.blank
                (fst (Entry.__setitem__ Sample.env "imdb_url"
                        (VStr "not-a-valid-imdb-link") Sample.blank))
                eq_refl eq_refl eq_refl).
  vm_compute in H. discriminate H.
Qed.

Example imdb_url_is_rewritten :
  ∃ s', Entry.__setitem__ Sample.env "imdb_url"
          (VStr "http://imdb.com/title/tt0111161/?ref=x") Sample.blank = (s', Ok tt) ∧
        fields s' !! "imdb_url"
          = Some (VUnicode true "http://www.imdb.com/title/tt0111161/").
Proof. eexists. split; reflexivity. Qed.

Section UrlInvariant.
Variable env : Env.

Lemma enforce_unicode_raise key v s :
  is_basestring v = true →
  (∃ t, unicode env (heap s) v = Ok (VUnicode true t)) ∨
  (∃ e, Entry.enforce_unicode env key v s = (s, Raise e)).
Proof.
  intros Hs. destruct (unicode env (heap s) v) as [u|e] eqn:Hu.
  - left. destruct (unicode_of_string env _ _ _ Hs Hu) as [t ->]. eauto.
  - right. unfold Entry.enforce_unicode. rewrite Hs. simpl.
    destruct (type_is_unicode v) eqn:Hx; simpl.
    + destruct v as [| | | |[] t|]; done.
    + rewrite Hu. destruct e; eauto.
Qed.

Lemma setitem_url_not_string v s :
  is_basestring v = false →
  ∃ s' e, Entry.__setitem__ env "url" v s = (s', Raise e).
Proof.
  intros Hs. unfold Entry.__setitem__. simpl.
  unfold Entry.setitem_body at 1, bind.
  unfold Entry.enforce_unicode. rewrite Hs. simpl.
  unfold Entry.url_handling, bind. rewrite decide_True by done. rewrite Hs.
  destruct (Entry.get env "title" VNone true None s) as [s1 [w|e]]; [|eauto].
  unfold gets, raise.
  destruct (repr_raises env (heap s1) w), (repr_raises env (heap s1) v); eauto.
Qed.

(** What a write to [url] does to the entry, when no resolver stands
    behind [original_url] nor, for a value that is not a string, behind
    [title]. *)
Lemma setitem_url_effect v s s' r :
  Entry.lazy_at s "original_url" = None →
  is_basestring v = true ∨ Entry.lazy_at s "title" = None →
  Entry.__setitem__ env "url" v s = (s', r) →
  heap s' = heap s ∧ snapshots s' = snapshots s ∧ trace s' = trace s ∧
  (fields s' = fields s ∨
   ∃ t, is_basestring v = true ∧ unicode env (heap s) v = Ok (VUnicode true t) ∧
        r = Ok tt ∧
        fields s' = <["url" := VUnicode true t]>
                      (with_original_url (VUnicode true t) (fields s))).
Proof.
  intros Hl Hv H. destruct r as [[]|e].
  - destruct (is_basestring v) eqn:Hs.
    + destruct (enforce_unicode_raise "url" v s Hs) as [[t Hu]|[e He]].
      * destruct (setitem_url_string env v t s Hs Hu Hl) as (s1 & H1 & ? & ? & ? & ?).
        rewrite H in H1. injection H1 as <-. repeat split; try done.
        right. by exists t.
      * exfalso. revert H. unfold Entry.__setitem__. simpl.
        unfold Entry.setitem_body at 1, bind. by rewrite He.
    + destruct (setitem_url_not_string v s Hs) as (s1 & e & H1). congruence.
  - apply setitem_url_raise in H as ->; auto.
Qed.
End UrlInvariant.

(** C2. On an entry without [original_url], a write of a string to [url]
    that the cast accepts returns, and then [url] and [original_url] hold
    the same value; and on an entry whose [original_url] holds a value other
    than [None], no write to [url], whether it returns or raises, changes
    [original_url]. *)
Theorem original_url_set_once (env : Env) (s : State) :
  (∀ v t,
      is_basestring v = true →
      unicode env (heap s) v = Ok (VUnicode true t) →
      fields s !! "original_url" = None →
      ∃ s', Entry.__setitem__ env "url" v s = (s', Ok tt) ∧
            fields s' !! "url" = Some (VUnicode true t) ∧
            fields s' !! "original_url" = Some (VUnicode true t)) ∧
  (∀ w v s' r,
      fields s !! "original_url" = Some w → w ≠ VNone →
      as_lazy (heap s) w = None →
      is_basestring v = true ∨ Entry.lazy_at s "title" = None →
      Entry.__setitem__ env "url" v s = (s', r) →
      fields s' !! "original_url" = Some w ∧ as_lazy (heap s') w = None).
Proof.
  split.
  - intros v t Hs Hu Ho.
    destruct (setitem_url_string env v t s Hs Hu) as (s' & H & Hf & _).
    { unfold Entry.lazy_at. by rewrite Ho. }
    exists s'. split; [done|]. rewrite Hf. unfold with_original_url. rewrite Ho.
    split; [by rewrite lookup_insert_eq|].
    rewrite lookup_insert_ne by done. by rewrite lookup_insert_eq.
  - intros w v s' r Ho Hw Hl Hv H.
    apply setitem_url_effect in H as (Hh & _ & _ & Hf); [|unfold Entry.lazy_at; by rewrite Ho|done].
    rewrite Hh. split; [|done].
    destruct Hf as [->|(t & _ & _ & _ & ->)]; [done|].
    rewrite lookup_insert_ne by done.
    unfold with_original_url. rewrite Ho. by destruct w.
Qed.

(** The first write of [url] sets [original_url]; the second one leaves
    it. *)
Lemma original_url_set_once_witness :
  ∃ s1 s2,
    Entry.__setitem__ Sample.env "url" (VStr "http://example/ep1") Sample.blank
      = (s1, Ok tt) ∧
    fields s1 !! "original_url" = Some (VUnicode true "http://example/ep1") ∧
    Entry.__setitem__ Sample.env "url" (VStr "http://example/ep1-mirror") s1
      = (s2, Ok tt) ∧
    fields s2 !! "original_url" = Some (VUnicode true "http://example/ep1").
Proof.
  destruct (proj1 (original_url_set_once Sample.env Sample.blank)
              (VStr "http://example/ep1") "http://example/ep1")
    as (s1 & H1 & _ & Ho); [reflexivity|reflexivity|reflexivity|].
  destruct (Entry.__setitem__ Sample.env "url" (VStr "http://example/ep1-mirror") s1)
    as [s2 r] eqn:H2.
  assert (r = Ok tt) as ->.
  { assert (s1 = fst (Entry.__setitem__ Sample.env "url"
                        (VStr "http://example/ep1") Sample.blank)) as ->
      by (by rewrite H1).
    vm_compute in H2. by injection H2 as <- <-. }
  exists s1, s2. split; [exact H1|]. split; [exact Ho|]. split; [exact H2|].
  apply (proj2 (original_url_set_once Sample.env s1)
           (VUnicode true "http://example/ep1") (VStr "http://example/ep1-mirror")
           s2 (Ok tt)); [exact Ho|discriminate|reflexivity|left; reflexivity|exact H2].
Defined.

(** ** Reading a lazy field *)

(** A resolver that leaves the dict and the objects alone. *)
Definition read_only (env : Env) (f : func) : Prop :=
  ∀ field s, fields (call env f field s).1 = fields s ∧
             heap (call env f field s).1 = heap s.

(** The state after [n] reads of [key], one after the other. *)
Definition after_reads (env : Env) (key : string) (n : nat) (s : State) : State :=
  Nat.iter n (λ s0, (Entry.__getitem__ env key s0).1) s.

(** A lazy field for the examples: [imdb_score] with the resolver [0]. *)
Definition lazy_score : State :=
  mkState {[ "imdb_score" := VRef 0 ]} [] ∅ [OLazy "imdb_score" [0]] [].

Section ReadLazy.
Variable env : Env.

Lemma call_read_only field funcs s :
  (∀ f, f ∈ funcs → read_only env f) →
  fields (LazyField.__call__ env field funcs s).1 = fields s ∧
  heap (LazyField.__call__ env field funcs s).1 = heap s.
Proof.
  revert s. induction funcs as [|f rest IH]; intros s Hro; [done|].
  simpl. unfold bind.
  destruct (Hro f ltac:(left) field s) as [Hf Hh].
  destruct (call env f field s) as [s1 [r|e]]; [|done].
  simpl in Hf, Hh. destruct (decide (r = VNone)); [|done].
  destruct (IH s1) as [IHf IHh]; [intros; apply Hro; by right|].
  split; congruence.
Qed.

Lemma getitem_read_only key a field funcs s :
  Entry.lazy_at s key = Some (a, field, funcs) →
  (∀ f, f ∈ funcs → read_only env f) →
  fields (Entry.__getitem__ env key s).1 = fields s ∧
  heap (Entry.__getitem__ env key s).1 = heap s.
Proof.
  intros Hl Hro. unfold Entry.lazy_at in Hl.
  destruct (fields s !! key) as [v|] eqn:Hv; [|done].
  rewrite (getitem_lazy env key v a field funcs) by done.
  by destruct (call_read_only field funcs (emit TRACE (EvaluatingLazy key) s) Hro).
Qed.

Lemma lazy_at_same key s s' :
  fields s' = fields s → heap s' = heap s →
  Entry.lazy_at s' key = Entry.lazy_at s key.
Proof. intros Hf Hh. unfold Entry.lazy_at. by rewrite Hf, Hh. Qed.

Lemma after_reads_read_only key a field funcs s n :
  Entry.lazy_at s key = Some (a, field, funcs) →
  (∀ f, f ∈ funcs → read_only env f) →
  fields (after_reads env key n s) = fields s ∧
  heap (after_reads env key n s) = heap s.
Proof.
  intros Hl Hro. induction n as [|n [IHf IHh]]; [done|].
  unfold after_reads in *. simpl.
  destruct (getitem_read_only key a field funcs
              (Nat.iter n (λ s0, (Entry.__getitem__ env key s0).1) s)) as [Hf Hh].
  - by rewrite (lazy_at_same key s _ IHf IHh).
  - done.
  - split; congruence.
Qed.
End ReadLazy.

(** C4 (amended). The read of a key that holds a [LazyField] is the
    evaluation of its resolvers, after one line of log, and writes nothing
    of its own.  So when the resolvers of the field leave the dict and the
    objects alone, the dict and the objects are after any number of reads
    what they were before: the key still holds the same [LazyField], with
    the same resolvers, and [is_lazy] still answers [True]. *)
Theorem read_does_not_memoize (env : Env) (key : string) (a : addr)
    (field : string) (funcs : list func) (s : State) :
  Entry.lazy_at s key = Some (a, field, funcs) →
  (∃ v, fields s !! key = Some v ∧
        Entry.__getitem__ env key s =
          LazyField.__call__ env field funcs (emit TRACE (EvaluatingLazy key) s)) ∧
  ((∀ f, f ∈ funcs → read_only env f) →
   ∀ n, let s' := after_reads env key n s in
        fields s' = fields s ∧ heap s' = heap s ∧
        Entry.lazy_at s' key = Some (a, field, funcs) ∧
        Entry.is_lazy key s' = (s', Ok true)).
Proof.
  intros Hl. split.
  - unfold Entry.lazy_at in Hl. destruct (fields s !! key) as [v|] eqn:Hv; [|done].
    exists v. split; [done|]. by apply (getitem_lazy env key v a).
  - intros Hro n s'.
    destruct (after_reads_read_only env key a field funcs s n Hl Hro) as [Hf Hh].
    assert (Entry.lazy_at s' key = Some (a, field, funcs)) as Hl'
      by (by rewrite (lazy_at_same key s s' Hf Hh)).
    repeat split; try done.
    unfold Entry.is_lazy, gets. rewrite Hl'. by rewrite bool_decide_eq_true_2.
Qed.

Lemma read_does_not_memoize_witness :
  Entry.lazy_at (after_reads Sample.env "imdb_score" 3 lazy_score) "imdb_score"
    = Some (0, "imdb_score", [0]).
Proof.
  apply (proj2 (read_does_not_memoize Sample.env "imdb_score" 0 "imdb_score" [0]
                  lazy_score eq_refl)).
  intros f _ field s. split; reflexivity.
Defined.

(** C4, as it is stated, fails with a resolver that populates the entry:
    after one read the key holds what the resolver stored, and is lazy no
    more. *)
Lemma read_with_populating_resolver :
  ¬ (∀ (env : Env) (key : string) (s : State),
       is_Some (Entry.lazy_at s key) →
       fields (Entry.__getitem__ env key s).1 = fields s ∧
       is_Some (Entry.lazy_at (Entry.__getitem__ env key s).1 key)).
Proof.
  intros H.
  destruct (H Sample.env_populate "imdb_score" lazy_score) as [_ [x Hx]].
  - by eexists.
  - vm_compute in Hx. discriminate Hx.
Qed.

Example populating_resolver_stores :
  fields (Entry.__getitem__ Sample.env_populate "imdb_score" lazy_score).1
    !! "imdb_score" = Some (VInt 42).
Proof. reflexivity. Qed.

(** ** [safe_str] *)

(** An entry with a title and a URL. *)
Definition episode : State :=
  mkState {[ "title" := VUnicode true "Show S01E01";
             "url" := VUnicode true "http://example/ep1" ]} [] ∅ [] [].

(** C9 (amended). When the reads of [title] and of [url] return texts [t]
    and [u], [safe_str] returns the text [t | u], in the state the two
    reads leave; when the key [title] is missing it raises [KeyError], and
    so it does when the read of [title] returns and the key [url] is
    missing then. *)
Theorem safe_str_display (env : Env) (s : State) :
  (∀ s1 s2 xt t xu u,
      Entry.__getitem__ env "title" s = (s1, Ok (VUnicode xt t)) →
      Entry.__getitem__ env "url" s1 = (s2, Ok (VUnicode xu u)) →
      Entry.safe_str env s = (s2, Ok (VUnicode true (t +:+ " | " +:+ u)))) ∧
  (fields s !! "title" = None →
      Entry.safe_str env s = (s, Raise (KeyError "title"))) ∧
  (∀ s1 t,
      Entry.__getitem__ env "title" s = (s1, Ok t) →
      fields s1 !! "url" = None →
      Entry.safe_str env s = (s1, Raise (KeyError "url"))).
Proof.
  repeat split.
  - intros s1 s2 xt t xu u Ht Hu. unfold Entry.safe_str, bind.
    by rewrite Ht, Hu.
  - intros Ht. unfold Entry.safe_str, bind. by rewrite getitem_missing.
  - intros s1 t Ht Hu. unfold Entry.safe_str, bind.
    rewrite Ht. by rewrite getitem_missing.
Qed.

Lemma safe_str_display_witness :
  Entry.safe_str Sample.env episode
  = (episode, Ok (VUnicode true "Show S01E01 | http://example/ep1")).
Proof.
  apply (proj1 (safe_str_display Sample.env episode) episode episode
           true "Show S01E01" true "http://example/ep1"); reflexivity.
Defined.

(** C9, as it is stated, fails on an entry that has a [url] and no
    [title]: [safe_str] raises [KeyError]. *)
Lemma safe_str_raises_without_title :
  ¬ (∀ (env : Env) (s : State), ∃ s' v, Entry.safe_str env s = (s', Ok v)).
Proof.
  intros H.
  destruct (H Sample.env
              (mkState {[ "url" := VUnicode true "http://example/ep1" ]} [] ∅ [] []))
    as (s' & v & Hv).
  vm_compute in Hv. discriminate Hv.
Qed.

Example safe_str_of_none :
  (Entry.safe_str Sample.env
     (mkState {[ "title" := VNone; "url" := VUnicode true "http://example/ep1" ]}
        [] ∅ [] [])).2
  = Ok (VUnicode true "None | http://example/ep1").
Proof. reflexivity. Qed.

(** ** Construction *)

(** The line that a write logs, and the state once it is logged. *)
Definition set_record (env : Env) (h : list object) (key : string) (v : val)
    : level * message :=
  match repr_raises env h v with
  | None => (TRACE, EntrySet key v)
  | Some e => (DEBUG, EntrySetFailed key e)
  end.
Definition logged (env : Env) (key : string) (v : val) (s : State) : State :=
  emit (set_record env (heap s) key v).1 (set_record env (heap s) key v).2 s.

(** [Entry()] followed by the two writes, and [Entry(t, u)], on the object
    that [dict.__new__] has made. *)
Definition written_in_turn (env : Env) (t u : val) : M unit :=
  Entry.__init__ env [] ∅;;
  Entry.__setitem__ env "title" t;;
  Entry.__setitem__ env "url" u.

Section Construction.
Variable env : Env.

Lemma log_set_eq key v s :
  Entry.log_set env key v s = (logged env key v s, Ok tt).
Proof.
  unfold Entry.log_set, logged, set_record, bind, gets, modify.
  by destruct (repr_raises env (heap s) v).
Qed.

Lemma setitem_plain_eq key v t s :
  key ≠ "url" → key ≠ "imdb_url" →
  is_basestring v = true → unicode env (heap s) v = Ok (VUnicode true t) →
  Entry.__setitem__ env key v s
    = (set_fields <[key := VUnicode true t]> (logged env key (VUnicode true t) s), Ok tt).
Proof.
  intros H1 H2 Hs Hu. rewrite setitem_unfold. unfold Entry.setitem_body, bind.
  rewrite (enforce_unicode_ok env key _ _ _ Hs Hu).
  rewrite url_handling_other, title_handling_string by done.
  rewrite imdb_handling_other by done.
  by rewrite log_set_eq.
Qed.

Lemma setitem_plain_raise key v s :
  key ≠ "url" →
  (is_basestring v = true ∧ ∃ e, unicode env (heap s) v = Raise e) ∨
  (key = "title" ∧ is_basestring v = false) →
  ∃ e, Entry.__setitem__ env key v s = (s, Raise e).
Proof.
  intros Hk H. rewrite setitem_unfold. unfold Entry.setitem_body, bind.
  destruct H as [[Hs [e Hu]]|[-> Hs]].
  - destruct (enforce_unicode_raise env key v s Hs) as [[t Ht]|[e' ->]]; [congruence|eauto].
  - unfold Entry.enforce_unicode. rewrite Hs. simpl.
    unfold Entry.title_handling, bind, gets, raise. simpl. rewrite Hs.
    destruct (repr_raises env (heap s) v); eauto.
Qed.

Lemma setitem_url_raise_string v s :
  is_basestring v = true → (∃ e, unicode env (heap s) v = Raise e) →
  ∃ e, Entry.__setitem__ env "url" v s = (s, Raise e).
Proof.
  intros Hs [e Hu]. rewrite setitem_unfold. unfold Entry.setitem_body, bind.
  destruct (enforce_unicode_raise env "url" v s Hs) as [[t Ht]|[e' ->]]; [congruence|eauto].
Qed.

Lemma setitem_url_eq v t s :
  is_basestring v = true → unicode env (heap s) v = Ok (VUnicode true t) →
  Entry.lazy_at s "original_url" = None →
  Entry.__setitem__ env "url" v s =
    (set_fields <["url" := VUnicode true t]>
       (logged env "url" (VUnicode true t)
          match fields s !! "original_url" with
          | Some VNone | None =>
              set_fields <["original_url" := VUnicode true t]>
                (logged env "original_url" (VUnicode true t) s)
          | Some _ => s
          end), Ok tt).
Proof.
  intros Hs Hu Hl. rewrite setitem_unfold. unfold Entry.setitem_body at 1, bind.
  rewrite (enforce_unicode_ok env "url" _ _ _ Hs Hu).
  unfold Entry.url_handling, bind. rewrite decide_True by done. simpl.
  unfold Entry.setdefault_with, bind. rewrite contains_is_read_not_none.
  unfold Entry.lazy_at in Hl.
  destruct (fields s !! "original_url") as [w|] eqn:Hw.
  - rewrite (getitem_concrete env _ w) by done.
    destruct (decide (w = VNone)) as [->|Hn].
    + rewrite bool_decide_eq_true_2 by done. simpl.
      rewrite (setitem_plain_eq "original_url" _ t) by done.
      rewrite (getitem_concrete env _ (VUnicode true t));
        [|by simpl; rewrite lookup_insert_eq|done].
      unfold ret. simpl. by rewrite log_set_eq.
    + rewrite bool_decide_eq_false_2 by done. simpl. unfold ret.
      rewrite (getitem_concrete env _ w) by done. simpl.
      rewrite log_set_eq. by destruct w.
  - rewrite getitem_missing by done. simpl.
    rewrite (setitem_plain_eq "original_url" _ t) by done.
    rewrite (getitem_concrete env _ (VUnicode true t));
      [|by simpl; rewrite lookup_insert_eq|done].
    unfold ret. simpl. by rewrite log_set_eq.
Qed.
End Construction.

Section TwoArguments.
Variable env : Env.
Hypothesis Hiter : iter_ok env.

Lemma dict_iter_empty : dict_iter env ∅ = [].
Proof.
  apply Permutation_nil_r. rewrite (Hiter ∅). by rewrite map_to_list_empty.
Qed.

Lemma dict_iter_title_url t u :
  dict_iter env (<["url" := u]> (<["title" := t]> ∅)) = [("title", t); ("url", u)] ∨
  dict_iter env (<["url" := u]> (<["title" := t]> ∅)) = [("url", u); ("title", t)].
Proof.
  pose proof (Hiter (<["url" := u]> (<["title" := t]> ∅))) as H.
  rewrite map_to_list_insert in H by done.
  rewrite map_to_list_insert in H by done.
  rewrite map_to_list_empty in H.
  symmetry in H. apply Permutation_length_2_inv in H as [->| ->]; auto.
Qed.

Lemma title_outcome t s :
  (∃ T, is_basestring t = true ∧ unicode env (heap s) t = Ok (VUnicode true T) ∧
        Entry.__setitem__ env "title" t s
          = (set_fields <["title" := VUnicode true T]>
               (logged env "title" (VUnicode true T) s), Ok tt)) ∨
  (∃ e, Entry.__setitem__ env "title" t s = (s, Raise e)).
Proof.
  destruct (is_basestring t) eqn:Hs.
  - destruct (unicode env (heap s) t) as [u|e] eqn:Hu.
    + destruct (unicode_of_string env _ _ _ Hs Hu) as [T ->].
      left. exists T. repeat split. by apply setitem_plain_eq.
    + right. apply setitem_plain_raise; [done|]. left. eauto.
  - right. apply setitem_plain_raise; [done|]. by right.
Qed.

Lemma url_outcome u s :
  Entry.lazy_at s "original_url" = None →
  (∃ U, is_basestring u = true ∧ unicode env (heap s) u = Ok (VUnicode true U) ∧
        Entry.__setitem__ env "url" u s =
          (set_fields <["url" := VUnicode true U]>
             (logged env "url" (VUnicode true U)
                match fields s !! "original_url" with
                | Some VNone | None =>
                    set_fields <["original_url" := VUnicode true U]>
                      (logged env "original_url" (VUnicode true U) s)
                | Some _ => s
                end), Ok tt)) ∨
  (∃ s' e, Entry.__setitem__ env "url" u s = (s', Raise e)).
Proof.
  intros Hl. destruct (is_basestring u) eqn:Hs.
  - destruct (unicode env (heap s) u) as [v|e] eqn:Hu.
    + destruct (unicode_of_string env _ _ _ Hs Hu) as [U ->].
      left. exists U. repeat split. by apply setitem_url_eq.
    + right. exists s. apply setitem_url_raise_string; eauto.
  - right. by apply setitem_url_not_string.
Qed.
End TwoArguments.

(** C10. On the object that [dict.__new__] has made, [Entry(t, u)] and
    [Entry()] followed by the writes of [title = t] and of [url = u] end
    alike, in whatever order the dict of keyword arguments is iterated:
    either both return, and then the dict, [trace], [snapshots] and the
    objects are the same and the same lines were logged (in an order that
    may differ), or both raise.  They return when [t] and [u] are strings
    that the cast accepts, and then [title] holds [t] and [url] and
    [original_url] hold [u], as unicode. *)
(** Equality of two dicts over the keys [title], [url] and
    [original_url]. *)
Ltac three_keys :=
  let k := fresh "k" in
  apply map_eq; intros k;
  destruct (decide (k = "url")) as [->|]; [by simplify_map_eq|];
  destruct (decide (k = "original_url")) as [->|]; [by simplify_map_eq|];
  destruct (decide (k = "title")) as [->|]; by simplify_map_eq.

Theorem two_positional_arguments (env : Env) (t u : val) (s : State) :
  iter_ok env →
  fields s = ∅ →
  match Entry.__init__ env [t; u] ∅ s, written_in_turn env t u s with
  | (s1, Ok _), (s2, Ok _) =>
      fields s1 = fields s2 ∧ trace s1 = trace s2 ∧ snapshots s1 = snapshots s2 ∧
      heap s1 = heap s2 ∧ log s1 ≡ₚ log s2 ∧
      ∃ T U, unicode env (heap s) t = Ok (VUnicode true T) ∧
             unicode env (heap s) u = Ok (VUnicode true U) ∧
             fields s1 = {[ "title" := VUnicode true T; "url" := VUnicode true U;
                            "original_url" := VUnicode true U ]}
  | (_, Raise _), (_, Raise _) =>
      ¬ (is_basestring t = true ∧ is_basestring u = true ∧
         (∃ T, unicode env (heap s) t = Ok (VUnicode true T)) ∧
         (∃ U, unicode env (heap s) u = Ok (VUnicode true U)))
  | _, _ => False
  end.
Proof.
  intros Hiter Hempty.
  unfold written_in_turn, Entry.__init__, Entry.update, bind, modify. simpl.
  rewrite (dict_iter_empty env Hiter). simpl.
  set (s0 := set_snapshots (λ _, ∅) (set_trace [] s)).
  assert (fields s0 = ∅) as Hf0 by done.
  assert (heap s0 = heap s) as Hh0 by done.
  assert (Entry.lazy_at s0 "original_url" = None) as Hl0.
  { unfold Entry.lazy_at. by rewrite ?Hf0, ?Hempty, lookup_empty. }
  rewrite <-Hh0.
  destruct (title_outcome env t s0) as [(T & HsT & HuT & HT)|[eT HT]];
    destruct (url_outcome env u s0 Hl0) as [(U & HsU & HuU & HU)|(sU & eU & HU)].
  - (* both writes return *)
    set (s1 := set_fields <["title" := VUnicode true T]>
                 (logged env "title" (VUnicode true T) s0)) in *.
    assert (Entry.lazy_at s1 "original_url" = None) as Hl1.
    { unfold Entry.lazy_at. simpl. rewrite lookup_insert_ne by done.
      by rewrite ?Hf0, ?Hempty, lookup_empty. }
    destruct (url_outcome env u s1 Hl1) as [(U' & _ & HuU' & HU1)|(sU & eU & HU1)].
    2:{ exfalso. revert HU1. by rewrite (setitem_url_eq env u U s1). }
    assert (U' = U) as -> by (simpl in HuU'; congruence).
    rewrite HT. rewrite HU1.
    assert (fields s1 !! "original_url" = None) as Ho1.
    { simpl. rewrite lookup_insert_ne by done. by rewrite ?Hf0, ?Hempty, lookup_empty. }
    rewrite Ho1.
    destruct (dict_iter_title_url env Hiter t u) as [-> | ->]; simpl; unfold bind.
    + rewrite HT, HU1, Ho1. unfold ret.
      repeat split; try done. exists T, U. repeat split; try done.
      simpl. rewrite ?Hf0, ?Hempty. three_keys.
    + rewrite HU. rewrite ?Hf0, ?Hempty, lookup_empty.
      set (s2 := set_fields <["url" := VUnicode true U]> _).
      destruct (title_outcome env t s2) as [(T' & _ & HuT' & HT2)|[eT HT2]].
      2:{ exfalso. revert HT2. by rewrite (setitem_plain_eq env "title" t T s2). }
      assert (T' = T) as -> by (simpl in HuT'; congruence).
      rewrite HT2. unfold ret. simpl. rewrite ?Hf0, ?Hempty.
      assert (<["title" := VUnicode true T]>
                (<["url" := VUnicode true U]>
                   (<["original_url" := VUnicode true U]> (∅ : gmap string val)))
              = <["url" := VUnicode true U]>
                  (<["original_url" := VUnicode true U]>
                     (<["title" := VUnicode true T]> ∅))) as Hmap.
      { three_keys. }
      repeat split; try done.
      * rewrite <-!(assoc_L (++)). apply Permutation_app_head. simpl.
        symmetry. apply (Permutation_cons_append [_; _]).
      * exists T, U. repeat split; try done; three_keys.
  - (* the write of [url] raises *)
    set (s1 := set_fields <["title" := VUnicode true T]>
                 (logged env "title" (VUnicode true T) s0)) in *.
    assert (∃ s' e, Entry.__setitem__ env "url" u s1 = (s', Raise e)) as (s' & e & HU1).
    { destruct (is_basestring u) eqn:Hs.
      - destruct (unicode env (heap s0) u) as [v|e] eqn:Hu.
        + exfalso. destruct (unicode_of_string env _ _ _ Hs Hu) as [U ->].
          revert HU. by rewrite (setitem_url_eq env u U s0).
        + exists s1. apply setitem_url_raise_string; eauto.
      - by apply setitem_url_not_string. }
    assert (¬ (is_basestring t = true ∧ is_basestring u = true ∧
               (∃ T0, unicode env (heap s0) t = Ok (VUnicode true T0)) ∧
               (∃ U, unicode env (heap s0) u = Ok (VUnicode true U)))) as Hno.
    { intros (_ & Hs & _ & [U Hu]). revert HU.
      by rewrite (setitem_url_eq env u U s0). }
    rewrite HT, HU1.
    destruct (dict_iter_title_url env Hiter t u) as [-> | ->]; simpl; unfold bind.
    + by rewrite HT, HU1.
    + by rewrite HU.
  - (* the write of [title] raises *)
    assert (¬ (is_basestring t = true ∧ is_basestring u = true ∧
               (∃ T0, unicode env (heap s0) t = Ok (VUnicode true T0)) ∧
               (∃ U, unicode env (heap s0) u = Ok (VUnicode true U)))) as Hno.
    { intros (Hs & _ & [T Hu] & _). revert HT.
      by rewrite (setitem_plain_eq env "title" t T s0). }
    rewrite HT.
    destruct (dict_iter_title_url env Hiter t u) as [-> | ->]; simpl; unfold bind.
    + by rewrite HT.
    + rewrite HU. rewrite ?Hf0, ?Hempty, lookup_empty.
      set (s2 := set_fields <["url" := VUnicode true U]> _).
      destruct (title_outcome env t s2) as [(T' & Hs & HuT' & _)|[eT' ->]]; [|done].
      exfalso. apply Hno. simpl in HuT'. rewrite Hh0 in *. eauto 10.
  - (* both raise *)
    assert (¬ (is_basestring t = true ∧ is_basestring u = true ∧
               (∃ T0, unicode env (heap s0) t = Ok (VUnicode true T0)) ∧
               (∃ U, unicode env (heap s0) u = Ok (VUnicode true U)))) as Hno.
    { intros (Hs & _ & [T Hu] & _). revert HT.
      by rewrite (setitem_plain_eq env "title" t T s0). }
    rewrite HT.
    destruct (dict_iter_title_url env Hiter t u) as [-> | ->]; simpl; unfold bind.
    + by rewrite HT.
    + by rewrite HU.
Qed.

Lemma iter_ok_sample resolve : iter_ok (Sample.env_with resolve).
Proof. intros d. reflexivity. Qed.

Lemma two_positional_arguments_witness :
  ∃ s1 s2,
    Entry.__init__ Sample.env [VStr "Show S01E01"; VStr "http://example/ep1"] ∅
      Sample.blank = (s1, Ok tt) ∧
    written_in_turn Sample.env (VStr "Show S01E01") (VStr "http://example/ep1")
      Sample.blank = (s2, Ok tt) ∧
    fields s1 = fields s2.
Proof.
  pose proof (two_positional_arguments Sample.env (VStr "Show S01E01")
                (VStr "http://example/ep1") Sample.blank
                (iter_ok_sample _) eq_refl) as H.
  destruct (Entry.__init__ Sample.env [VStr "Show S01E01"; VStr "http://example/ep1"]
              ∅ Sample.blank) as [s1 [[]|e1]] eqn:E1.
  all: destruct (written_in_turn Sample.env (VStr "Show S01E01")
                   (VStr "http://example/ep1") Sample.blank) as [s2 [[]|e2]] eqn:E2.
  - exists s1, s2. split; [reflexivity|]. split; [reflexivity|]. apply H.
  - destruct H.
  - destruct H.
  - vm_compute in E1. discriminate E1.
Defined.

Example two_arguments_title_not_string :
  ∃ s1 e1 s2 e2,
    Entry.__init__ Sample.env [VInt 5; VStr "http://example/ep1"] ∅ Sample.blank
      = (s1, Raise e1) ∧
    written_in_turn Sample.env (VInt 5) (VStr "http://example/ep1") Sample.blank
      = (s2, Raise e2).
Proof. do 4 eexists. split; vm_compute; reflexivity. Qed.

(** ** Membership *)

(** C5. [field in record] is the read of the field followed by the test
    that what was read is not [None].  On a key that is missing, and on a
    key that holds [None], it is [False] and changes nothing; on a key that
    holds any other value that is not a [LazyField] (an empty string
    included) it is [True] and changes nothing.  On a key that holds a
    [LazyField] the evaluation is logged and the resolvers are called in
    turn, each on the state the one before left: it is [False] in the
    state the last one left when each answers [None], [True] in the state
    left by the first that answers something else, and when a resolver
    raises it is [False] for a [KeyError] and lets any other exception
    out, in the state that resolver left. *)
Theorem membership_reads_and_tests_none (env : Env) (key : string) (s : State) :
  Entry.__contains__ env key s =
    match Entry.__getitem__ env key s with
    | (s', Ok v) => (s', Ok (negb (bool_decide (v = VNone))))
    | (s', Raise (KeyError _)) => (s', Ok false)
    | (s', Raise e) => (s', Raise e)
    end ∧
  (fields s !! key = None → Entry.__contains__ env key s = (s, Ok false)) ∧
  (fields s !! key = Some VNone → Entry.__contains__ env key s = (s, Ok false)) ∧
  (∀ v, fields s !! key = Some v → as_lazy (heap s) v = None → v ≠ VNone →
        Entry.__contains__ env key s = (s, Ok true)) ∧
  (∀ v a field funcs,
     fields s !! key = Some v → as_lazy (heap s) v = Some (a, field, funcs) →
     let s0 := emit TRACE (EvaluatingLazy key) s in
     (∀ s', found_nothing env field funcs s0 s' →
            Entry.__contains__ env key s = (s', Ok false)) ∧
     (∀ pre f post s1 s2 r,
        funcs = pre ++ f :: post → found_nothing env field pre s0 s1 →
        call env f field s1 = (s2, Ok r) → r ≠ VNone →
        Entry.__contains__ env key s = (s2, Ok true)) ∧
     (∀ pre f post s1 s2 e,
        funcs = pre ++ f :: post → found_nothing env field pre s0 s1 →
        call env f field s1 = (s2, Raise e) →
        Entry.__contains__ env key s
          = (s2, if is_KeyError e then Ok false else Raise e))).
Proof.
  assert (Entry.__contains__ env key s =
            match Entry.__getitem__ env key s with
            | (s', Ok v) => (s', Ok (negb (bool_decide (v = VNone))))
            | (s', Raise (KeyError _)) => (s', Ok false)
            | (s', Raise e) => (s', Raise e)
            end) as Heq.
  { unfold Entry.__contains__, bind. rewrite get_default.
    destruct (Entry.__getitem__ env key s) as [s' [v|e]]; [done|].
    by destruct e. }
  split; [exact Heq|]. rewrite Heq. clear Heq.
  split; [|split; [|split]].
  - intros Hk. by rewrite getitem_missing.
  - intros Hk. by rewrite (getitem_concrete env key VNone).
  - intros v Hk Hl Hv. rewrite (getitem_concrete env key v) by done.
    by rewrite bool_decide_eq_false_2.
  - intros v a field funcs Hk Hl s0.
    rewrite (getitem_lazy env key v a field funcs) by done. fold s0.
    split; [|split].
    + intros s' Hn. by rewrite (call_all_nothing env _ _ _ _ Hn).
    + intros pre f post s1 s2 r -> Hpre Hf Hr.
      rewrite (call_first env _ _ _ _ _ _ _ _ Hpre Hf Hr).
      by rewrite bool_decide_eq_false_2.
    + intros pre f post s1 s2 e -> Hpre Hf.
      rewrite (call_skips env _ _ _ _ _ Hpre). simpl. unfold bind. rewrite Hf.
      by destruct e.
Qed.

(** A membership test on a lazy field whose resolver stores what it
    finds: the test is [True], the evaluation has been logged and the
    field is populated. *)
Lemma membership_reads_and_tests_none_witness :
  ∃ s2, Entry.__contains__ Sample.env_populate "imdb_score" lazy_score = (s2, Ok true) ∧
        fields s2 !! "imdb_score" = Some (VInt 42) ∧
        log s2 = [(TRACE, EvaluatingLazy "imdb_score")].
Proof.
  destruct (membership_reads_and_tests_none Sample.env_populate "imdb_score" lazy_score)
    as (_ & _ & _ & _ & Hlazy).
  destruct (Hlazy (VRef 0) 0 "imdb_score" [0] eq_refl eq_refl) as (_ & Hfirst & _).
  eexists. split.
  - apply (Hfirst [] 0 [] _ _ (VInt 42) eq_refl (found_nothing_nil _ _ _)).
    + vm_compute. reflexivity.
    + done.
  - split; vm_compute; reflexivity.
Defined.

Example membership_of_none :
  Entry.__contains__ Sample.env "title"
    (mkState {[ "title" := VNone ]} [] ∅ [] [])
  = (mkState {[ "title" := VNone ]} [] ∅ [] [], Ok false).
Proof. vm_compute. reflexivity. Qed.

(** ** Unregistering resolvers *)

(** The address of the [LazyField] behind a key, and whether a resolver is
    in its list. *)
Definition lazy_addr (s : State) (k : string) : option addr :=
  (λ x, x.1.1) <$> Entry.lazy_at s k.
Definition registered (func : func) (s : State) (k : string) : bool :=
  match Entry.lazy_at s k with
  | Some (_, _, funcs) => bool_decide (func ∈ funcs)
  | None => false
  end.

(** No two keys of the list hold the same [LazyField] object, and the lazy
    ones among them can be written with [None]. *)
Definition unshared (s : State) (l : list string) : Prop :=
  ∀ k1 k2 a, k1 ∈ l → k2 ∈ l →
    lazy_addr s k1 = Some a → lazy_addr s k2 = Some a → k1 = k2.
Definition collapsible (s : State) (l : list string) : Prop :=
  ∀ k, k ∈ l → is_Some (Entry.lazy_at s k) → k ≠ "url" ∧ k ≠ "title".

(** An entry with two lazy fields: [imdb_score] with the resolvers [0] and
    [1], [imdb_votes] with the resolver [0]. *)
Definition two_lazy : State :=
  mkState {[ "imdb_score" := VRef 0; "imdb_votes" := VRef 1;
             "title" := VUnicode true "Show S01E01" ]} [] ∅
    [OLazy "imdb_score" [0; 1]; OLazy "imdb_votes" [0]] [].

Section Unregister.
Variable env : Env.

Lemma remove_first_notin x l : x ∉ l → remove_first x l = l.
Proof.
  induction l as [|y l IH]; [done|]. intros H. simpl.
  rewrite decide_False by (intros ->; apply H; left).
  rewrite IH; [done|]. intros ?. apply H. by right.
Qed.

Lemma setitem_none_eq key s :
  key ≠ "url" → key ≠ "title" →
  Entry.__setitem__ env key VNone s
    = (set_fields <[key := VNone]> (logged env key VNone s), Ok tt).
Proof.
  intros H1 H2. rewrite setitem_unfold. unfold Entry.setitem_body, bind.
  rewrite enforce_unicode_none, url_handling_other by done.
  unfold Entry.title_handling. rewrite decide_False by done. unfold ret at 1.
  unfold Entry.imdb_handling. case_decide; unfold ret at 1; by rewrite log_set_eq.
Qed.

Lemma lazy_at_heap s k a fld funcs :
  Entry.lazy_at s k = Some (a, fld, funcs) →
  fields s !! k = Some (VRef a) ∧ heap s !! a = Some (OLazy fld funcs).
Proof.
  unfold Entry.lazy_at. destruct (fields s !! k) as [[| | | | |b]|]; try done.
  simpl. destruct (heap s !! b) as [[]|] eqn:Hb; try done.
  by intros [= <- <- <-].
Qed.

(** One round of the loop on a key that is lazy. *)
Lemma unregister_step_lazy k rest func n s a fld funcs :
  Entry.lazy_at s k = Some (a, fld, funcs) → k ≠ "url" → k ≠ "title" →
  ∃ s1,
    Entry.unregister_loop env (k :: rest) func n s
      = Entry.unregister_loop env rest func
          (if bool_decide (func ∈ funcs) then S n else n) s1 ∧
    heap s1 = <[a := OLazy fld (remove_first func funcs)]> (heap s) ∧
    fields s1 = (if decide (remove_first func funcs = [])
                 then <[k := VNone]> (fields s) else fields s).
Proof.
  intros Hl Hu Ht. destruct (lazy_at_heap _ _ _ _ _ Hl) as [_ Ha].
  simpl. unfold bind at 1. unfold gets at 1. rewrite Hl.
  destruct (bool_decide (func ∈ funcs)) eqn:Hin.
  - unfold bind at 1. unfold modify at 1. unfold bind at 1.
    destruct (remove_first func funcs) as [|g l'] eqn:Hr.
    + rewrite setitem_none_eq by done. rewrite decide_True by done.
      eexists. split; [done|]. by split.
    + unfold ret at 1. rewrite decide_False by done.
      eexists. split; [done|]. by split.
  - apply bool_decide_eq_false in Hin. rewrite (remove_first_notin _ _ Hin).
    unfold bind at 1. unfold ret at 1. unfold bind at 1.
    destruct funcs as [|g l'].
    + rewrite setitem_none_eq by done. rewrite decide_True by done.
      eexists. split; [done|]. split; [|done]. simpl.
      by rewrite list_insert_id.
    + unfold ret at 1. rewrite decide_False by done.
      eexists. split; [done|]. split; [|done]. by rewrite list_insert_id.
Qed.

Lemma unregister_step_other k rest func n s :
  Entry.lazy_at s k = None →
  Entry.unregister_loop env (k :: rest) func n s
    = Entry.unregister_loop env rest func n s.
Proof. intros Hl. simpl. unfold bind, gets. by rewrite Hl. Qed.

(** What a round on the key [k] leaves of the other keys. *)
Lemma lazy_at_after_step s s1 k k' a fld funcs l' :
  Entry.lazy_at s k = Some (a, fld, funcs) →
  heap s1 = <[a := OLazy fld l']> (heap s) →
  fields s1 = fields s ∨ fields s1 = <[k := VNone]> (fields s) →
  k' ≠ k → lazy_addr s k' ≠ Some a →
  Entry.lazy_at s1 k' = Entry.lazy_at s k' ∧ fields s1 !! k' = fields s !! k'.
Proof.
  intros Hl Hh Hf Hk Ha.
  assert (fields s1 !! k' = fields s !! k') as Hk'.
  { destruct Hf as [-> | ->]; [done|]. by rewrite lookup_insert_ne. }
  split; [|done]. unfold lazy_addr, Entry.lazy_at in *. rewrite Hk', Hh.
  destruct (fields s !! k') as [[| | | | |b]|]; try done. simpl in *.
  destruct (decide (b = a)) as [->|Hb].
  - destruct (lazy_at_heap _ _ _ _ _ Hl) as [_ Hobj]. rewrite Hobj in Ha. done.
  - by rewrite list_lookup_insert_ne.
Qed.

Lemma lazy_at_after_step_self s s1 k a fld funcs l' :
  Entry.lazy_at s k = Some (a, fld, funcs) →
  heap s1 = <[a := OLazy fld l']> (heap s) →
  fields s1 = fields s →
  Entry.lazy_at s1 k = Some (a, fld, l').
Proof.
  intros Hl Hh Hf. destruct (lazy_at_heap _ _ _ _ _ Hl) as [Hk Ha].
  unfold Entry.lazy_at. rewrite Hf, Hk, Hh. simpl.
  rewrite list_lookup_insert_eq; [done|]. by eapply lookup_lt_Some.
Qed.
End Unregister.

(** What the call leaves behind a key of the list: a key that was lazy
    holds [None] and is lazy no more when its list of resolvers has become
    empty, and holds the same [LazyField] with the resolver taken out once
    otherwise; a key that was not lazy is as it was. *)
Definition unregistered (func : func) (s s' : State) (k : string) : Prop :=
  match Entry.lazy_at s k with
  | Some (a, fld, funcs) =>
      if decide (remove_first func funcs = [])
      then fields s' !! k = Some VNone ∧ Entry.lazy_at s' k = None
      else Entry.lazy_at s' k = Some (a, fld, remove_first func funcs)
  | None => Entry.lazy_at s' k = None ∧ fields s' !! k = fields s !! k
  end.

Section UnregisterLoop.
Variable env : Env.
Variable func : func.

Lemma unregister_loop_spec fields_ :
  ∀ s n,
    NoDup fields_ → unshared s fields_ → collapsible s fields_ →
    ∃ s',
      Entry.unregister_loop env fields_ func n s
        = (s', Ok (n + length (List.filter (registered func s) fields_))) ∧
      (∀ k, k ∈ fields_ → unregistered func s s' k) ∧
      (∀ k, k ∉ fields_ → fields s' !! k = fields s !! k) ∧
      (∀ k, k ∉ fields_ →
         (∀ k' a, k' ∈ fields_ → lazy_addr s k' = Some a → lazy_addr s k ≠ Some a) →
         Entry.lazy_at s' k = Entry.lazy_at s k).
Proof.
  induction fields_ as [|k rest IH]; intros s n Hnd Hun Hco.
  - exists s. simpl. unfold ret. rewrite Nat.add_0_r.
    repeat split; try done. intros k Hk. by apply elem_of_nil in Hk.
  - apply NoDup_cons in Hnd as [Hk Hnd].
    destruct (Entry.lazy_at s k) as [[[a fld] funcs]|] eqn:Hl.
    + (* the key is lazy *)
      destruct (Hco k ltac:(left) ltac:(by eexists)) as [Hurl Htitle].
      destruct (unregister_step_lazy env k rest func n s a fld funcs Hl Hurl Htitle)
        as (s1 & -> & Hh1 & Hf1).
      assert (Hf1' : fields s1 = fields s ∨ fields s1 = <[k := VNone]> (fields s)).
      { rewrite Hf1. case_decide; auto. }
      assert (Hrest : ∀ k', k' ∈ rest →
                Entry.lazy_at s1 k' = Entry.lazy_at s k' ∧
                fields s1 !! k' = fields s !! k').
      { intros k' Hk'. eapply lazy_at_after_step; try done.
        - intros ->. done.
        - intros Ha. apply Hk.
          assert (k' = k) as <-; [|done].
          apply (Hun k' k a); [by right|by left|done|].
          unfold lazy_addr. by rewrite Hl. }
      assert (Haddr : ∀ k', k' ∈ rest → lazy_addr s1 k' = lazy_addr s k').
      { intros k' Hk'. unfold lazy_addr. by rewrite (proj1 (Hrest k' Hk')). }
      destruct (IH s1 (if bool_decide (func ∈ funcs) then S n else n)) as
        (s' & -> & Hout & Hfr & Hlz); [done| | |].
      { intros k1 k2 b H1 H2. rewrite (Haddr k1 H1), (Haddr k2 H2).
        apply Hun; by right. }
      { intros k' Hk' Hs. rewrite (proj1 (Hrest k' Hk')) in Hs.
        apply Hco; [by right|done]. }
      exists s'. split; [|split; [|split]].
      * f_equal. f_equal. simpl. unfold registered at 2. rewrite Hl.
        rewrite (filter_ext_in (registered func s1) (registered func s)).
        2:{ intros k' Hk'. apply list_elem_of_In in Hk'.
            unfold registered. by rewrite (proj1 (Hrest k' Hk')). }
        destruct (bool_decide (func ∈ funcs)); simpl; lia.
      * intros k' Hk'. apply elem_of_cons in Hk' as [->|Hk'].
        -- unfold unregistered. rewrite Hl.
           destruct (decide (remove_first func funcs = [])) as [He|He].
           ++ assert (fields s1 !! k = Some VNone) as Hk1
                by (by rewrite Hf1, lookup_insert_eq).
              assert (Entry.lazy_at s1 k = None) as Hl1
                by (unfold Entry.lazy_at; by rewrite Hk1).
              rewrite (Hfr k Hk), Hk1. split; [done|].
              rewrite (Hlz k Hk); [done|].
              intros k2 b _ _. unfold lazy_addr. by rewrite Hl1.
           ++ pose proof (lazy_at_after_step_self s s1 k a fld funcs _ Hl Hh1 Hf1) as Hl1.
              rewrite (Hlz k Hk); [done|].
              intros k2 b Hk2 Hb. rewrite (Haddr k2 Hk2) in Hb.
              unfold lazy_addr at 1. rewrite Hl1. simpl. intros [= <-].
              apply Hk. assert (k2 = k) as <-; [|done].
              apply (Hun k2 k a); [by right|by left|done|].
              unfold lazy_addr. by rewrite Hl.
        -- specialize (Hout k' Hk'). unfold unregistered in *.
           destruct (Hrest k' Hk') as [E1 E2]. rewrite E1 in Hout.
           destruct (Entry.lazy_at s k') as [[[a' fld'] funcs']|]; [done|].
           by rewrite <-E2.
      * intros k0 Hk0. apply not_elem_of_cons in Hk0 as [Hne Hk0].
        rewrite (Hfr k0 Hk0). destruct Hf1' as [-> | ->]; [done|].
        by rewrite lookup_insert_ne.
      * intros k0 Hk0 Hal. apply not_elem_of_cons in Hk0 as [Hne Hk0].
        assert (Entry.lazy_at s1 k0 = Entry.lazy_at s k0) as E0.
        { eapply lazy_at_after_step; try done.
          apply (Hal k a); [by left|]. unfold lazy_addr. by rewrite Hl. }
        rewrite <-E0. apply (Hlz k0 Hk0).
        intros k2 b Hk2 Hb. rewrite (Haddr k2 Hk2) in Hb.
        unfold lazy_addr at 1. rewrite E0. apply (Hal k2 b); [by right|done].
    + (* the key is not lazy *)
      rewrite (unregister_step_other env k rest func n s Hl).
      destruct (IH s n) as (s' & -> & Hout & Hfr & Hlz); [done| | |].
      { intros k1 k2 b H1 H2. apply Hun; by right. }
      { intros k' Hk'. apply Hco. by right. }
      exists s'. split; [|split; [|split]].
      * simpl. unfold registered at 2. by rewrite Hl.
      * intros k' Hk'. apply elem_of_cons in Hk' as [->|Hk']; [|by apply Hout].
        unfold unregistered. rewrite Hl. split; [|by apply Hfr].
        rewrite (Hlz k Hk); [done|].
        intros k2 b _ _. unfold lazy_addr. by rewrite Hl.
      * intros k0 Hk0. apply not_elem_of_cons in Hk0 as [_ Hk0]. by apply Hfr.
      * intros k0 Hk0 Hal. apply not_elem_of_cons in Hk0 as [_ Hk0].
        apply (Hlz k0 Hk0). intros k2 b Hk2. apply Hal. by right.
Qed.
End UnregisterLoop.

(** C6. For a list of distinct field names, no two of them behind the same
    [LazyField] object, the lazy ones being other than [url] and [title]
    (those two cannot hold [None]): [unregister_lazy_fields] returns, and
    its result is the number of listed fields that were lazy with the
    resolver in their list; behind each listed field that was lazy the
    resolver has been taken out of the list, once; a field whose list has
    become empty holds [None] and is lazy no more; the fields that were not
    lazy and the fields that are not listed are as they were. *)
Theorem unregister_removes_and_collapses (env : Env) (fields_ : list string)
    (func : func) (s : State) :
  NoDup fields_ → unshared s fields_ → collapsible s fields_ →
  ∃ s',
    Entry.unregister_lazy_fields env fields_ func s
      = (s', Ok (length (List.filter (registered func s) fields_))) ∧
    (∀ k, k ∈ fields_ → unregistered func s s' k) ∧
    (∀ k, k ∈ fields_ → ∀ a fld,
        Entry.lazy_at s k = Some (a, fld, [func]) →
        Entry.__getitem__ env k s' = (s', Ok VNone) ∧
        Entry.is_lazy k s' = (s', Ok false)) ∧
    (∀ k, k ∉ fields_ → fields s' !! k = fields s !! k).
Proof.
  intros Hnd Hun Hco.
  destruct (unregister_loop_spec env func fields_ s 0 Hnd Hun Hco)
    as (s' & H & Hout & Hfr & _).
  exists s'. split; [done|]. split; [done|]. split; [|done].
  intros k Hk a fld Hl. specialize (Hout k Hk). unfold unregistered in Hout.
  rewrite Hl in Hout.
  assert (remove_first func [func] = []) as Hr by (simpl; by rewrite decide_True).
  destruct (decide (remove_first func [func] = [])) as [_|Hne]; [|done].
  destruct Hout as [Hv Hn].
  split.
  - by apply getitem_concrete.
  - unfold Entry.is_lazy, gets. rewrite Hn. by rewrite bool_decide_eq_false_2.
Qed.

Lemma unregister_removes_and_collapses_witness :
  ∃ s',
    Entry.unregister_lazy_fields Sample.env ["imdb_score"; "imdb_votes"] 0 two_lazy
      = (s', Ok 2) ∧
    Entry.lazy_at s' "imdb_score" = Some (0, "imdb_score", [1]) ∧
    fields s' !! "imdb_votes" = Some VNone ∧
    Entry.is_lazy "imdb_votes" s' = (s', Ok false).
Proof.
  destruct (unregister_removes_and_collapses Sample.env
              ["imdb_score"; "imdb_votes"] 0 two_lazy)
    as (s' & H & Hout & Hnone & _).
  - apply (bool_decide_unpack _). by vm_compute.
  - intros k1 k2 a H1 H2.
    rewrite !elem_of_cons, elem_of_nil in H1, H2.
    destruct H1 as [->|[->|[]]], H2 as [->|[->|[]]]; vm_compute; congruence.
  - intros k Hk. rewrite !elem_of_cons, elem_of_nil in Hk.
    destruct Hk as [->|[->|[]]]; intros _; split; discriminate.
  - exists s'. split; [exact H|].
    pose proof (Hout "imdb_score" ltac:(left)) as Hscore.
    pose proof (Hout "imdb_votes" ltac:(right; left)) as Hvotes.
    destruct (Hnone "imdb_votes" ltac:(right; left) 1 "imdb_votes" eq_refl) as [_ Hlazy].
    split; [exact Hscore|]. split; [exact (proj1 Hvotes)|exact Hlazy].
Defined.

(** ** Deep copies are made of new objects *)

(** A value that refers to no object below [lo]: it has no identity, or
    it refers to an object of the heap at [lo] or above. *)
Definition fresh_val (lo : nat) (h : list object) (v : val) : Prop :=
  match v with
  | VRef a => lo ≤ a < length h
  | _ => True
  end.
Definition fresh_object (lo : nat) (h : list object) (o : object) : Prop :=
  match o with
  | OList items => Forall (fresh_val lo h) items
  | _ => True
  end.

(** The objects at [lo] and above refer to each other only. *)
Definition closed (lo : nat) (h : list object) : Prop :=
  ∀ b o, lo ≤ b → h !! b = Some o → fresh_object lo h o.
Definition memo_fresh (lo : nat) (h : list object) (memo : gmap nat nat) : Prop :=
  ∀ a y, memo !! a = Some y → lo ≤ y < length h.

(** [h'] has the objects of [h], and maybe more; those below [y] are as
    they are in [h]. *)
Definition keeps (y : nat) (h h' : list object) : Prop :=
  length h ≤ length h' ∧ ∀ b, b < y → h' !! b = h !! b.

(** No object of the heap is one that [copy.deepcopy] hands back as it
    is; and what the bound [lo] asks of the objects and of the copies of
    [LazyField]s: nothing when it is [0], and that none be handed back as
    it is otherwise. *)
Definition no_same (h : list object) : Prop :=
  ∀ a tag, h !! a ≠ Some (OOpaque tag CopySame).
Definition rebuilds (lo : nat) (kind : addr → copy_kind) : Prop :=
  lo = 0 ∨ ∀ a, kind a ≠ CopySame.

(** What one level of [deepcopy] owes to the next: it leaves the objects
    that were there in place... *)
Definition grows (rec : val → cstate → cstate * result val) : Prop :=
  ∀ x h memo h' memo' r,
    rec x (h, memo) = ((h', memo'), r) → keeps (length h) h h'.

(** ... and what it returns refers to the objects at [lo] and above. *)
Definition sound (lo : nat) (rec : val → cstate → cstate * result val) : Prop :=
  ∀ x h memo h' memo' r,
    rec x (h, memo) = ((h', memo'), r) →
    lo ≤ length h → memo_fresh lo h memo → closed lo h →
    lo = 0 ∨ no_same h →
    keeps (length h) h h' ∧ memo_fresh lo h' memo' ∧ closed lo h' ∧
    (lo = 0 ∨ no_same h') ∧
    ∀ v, r = Ok v → fresh_val lo h' v.

Section Fresh.
Implicit Types (h : list object) (v : val) (o : object).

Lemma fresh_val_mono lo h h' v :
  length h ≤ length h' → fresh_val lo h v → fresh_val lo h' v.
Proof. destruct v; simpl; try done. lia. Qed.

Lemma fresh_object_mono lo h h' o :
  length h ≤ length h' → fresh_object lo h o → fresh_object lo h' o.
Proof.
  intros Hl. destruct o; simpl; try done.
  intros H. eapply Forall_impl; [done|]. intros v. by apply fresh_val_mono.
Qed.

Lemma memo_fresh_mono lo h h' memo :
  length h ≤ length h' → memo_fresh lo h memo → memo_fresh lo h' memo.
Proof. intros Hl H a y Ha. specialize (H a y Ha). lia. Qed.

Lemma memo_fresh_insert lo h memo a y :
  lo ≤ y < length h → memo_fresh lo h memo → memo_fresh lo h (<[a := y]> memo).
Proof.
  intros Hy H a' y'. rewrite lookup_insert.
  case_decide; [by intros [= <-]|]. apply H.
Qed.

Lemma closed_app lo h o :
  closed lo h → fresh_object lo (h ++ [o]) o → closed lo (h ++ [o]).
Proof.
  intros Hc Ho b o' Hb Hlk.
  destruct (decide (b < length h)) as [Hlt|Hge].
  - rewrite lookup_app_l in Hlk by done.
    eapply fresh_object_mono; [|by eapply Hc]. rewrite length_app. lia.
  - rewrite lookup_app_r in Hlk by lia.
    destruct (b - length h) as [|i] eqn:Hi; simpl in Hlk; [|done].
    by injection Hlk as <-.
Qed.

Lemma closed_alter lo h y v :
  closed lo h → fresh_val lo h v → closed lo (alter (list_append v) y h).
Proof.
  intros Hc Hv b o Hb Hlk.
  assert (length h ≤ length (alter (list_append v) y h)) as Hlen
    by (by rewrite length_alter).
  rewrite list_lookup_alter in Hlk. case_decide as Hy.
  - subst b. destruct (h !! y) as [o0|] eqn:Ho; [|done].
    injection Hlk as <-. specialize (Hc y o0 Hb Ho).
    destruct o0; simpl in *; try done.
    apply Forall_app. split.
    + eapply Forall_impl; [done|]. intros w. by apply fresh_val_mono.
    + apply Forall_singleton. by eapply fresh_val_mono.
  - eapply fresh_object_mono; [done|]. by eapply Hc.
Qed.

Lemma keeps_refl y h : keeps y h h.
Proof. by split. Qed.

Lemma keeps_trans y h1 h2 h3 : keeps y h1 h2 → keeps y h2 h3 → keeps y h1 h3.
Proof.
  intros [L1 H1] [L2 H2]. split; [lia|]. intros b Hb. by rewrite H2, H1.
Qed.

Lemma keeps_le y y' h h' : y' ≤ y → keeps y h h' → keeps y' h h'.
Proof. intros Hy [L H]. split; [done|]. intros b Hb. apply H. lia. Qed.

Lemma keeps_step h h1 h2 :
  keeps (length h) h h1 → keeps (length h1) h1 h2 → keeps (length h) h h2.
Proof.
  intros H1 H2. eapply keeps_trans; [done|]. eapply keeps_le; [|done].
  by destruct H1.
Qed.

Lemma keeps_app h o : keeps (length h) h (h ++ [o]).
Proof.
  split; [rewrite length_app; lia|]. intros b Hb. by rewrite lookup_app_l.
Qed.

Lemma keeps_alter (f : object → object) y h : keeps y h (alter f y h).
Proof.
  split; [by rewrite length_alter|]. intros b Hb.
  apply list_lookup_alter_ne. lia.
Qed.

Lemma no_same_app h o :
  no_same h → (∀ tag, o ≠ OOpaque tag CopySame) → no_same (h ++ [o]).
Proof.
  intros Hn Ho a tag Ha.
  destruct (decide (a < length h)) as [Hlt|Hge].
  - rewrite lookup_app_l in Ha by done. by eapply Hn.
  - rewrite lookup_app_r in Ha by lia.
    destruct (a - length h) as [|i]; simpl in Ha; [|done].
    injection Ha as ->. by eapply Ho.
Qed.

Lemma no_same_alter h y v : no_same h → no_same (alter (list_append v) y h).
Proof.
  intros Hn a tag. rewrite list_lookup_alter. case_decide as Hy; [|apply Hn].
  subst a. destruct (h !! y) as [o|] eqn:Ho; [|done]. simpl.
  destruct o as [items|tag' cp|field funcs]; simpl; try done.
  intros [= -> ->]. by eapply Hn.
Qed.

(** The copies leave the objects that were there in place. *)
Lemma copy_items_grows rec y :
  grows rec →
  ∀ items h memo h' memo' r,
    copy_items rec y items (h, memo) = ((h', memo'), r) →
    y < length h → keeps y h h'.
Proof.
  intros Hrec. induction items as [|x rest IH]; intros h memo h' memo' r; simpl.
  - intros [= <- <- <-] _. apply keeps_refl.
  - destruct (rec x (h, memo)) as [[h1 memo1] [v|e]] eqn:Hx; intros H Hy.
    + pose proof (Hrec _ _ _ _ _ _ Hx) as [L1 K1].
      eapply keeps_trans; [|eapply keeps_trans; [|eapply (IH _ _ _ _ _ H)]].
      * split; [done|]. intros b Hb. apply K1. lia.
      * apply keeps_alter.
      * rewrite length_alter. lia.
    + injection H as <- <- <-. eapply keeps_le; [|by eapply Hrec]. lia.
Qed.

Lemma deepcopy_at_grows kind n : grows (deepcopy_at kind n).
Proof.
  induction n as [|n IH]; intros x h memo h' memo' r H.
  - destruct x as [| | | | |a]; simpl in H;
      try (injection H as <- <- <-; apply keeps_refl).
    destruct (memo !! a); injection H as <- <- <-; apply keeps_refl.
  - destruct x as [| | | | |a]; simpl in H;
      try (injection H as <- <- <-; apply keeps_refl).
    destruct (memo !! a) as [y|]; [injection H as <- <- <-; apply keeps_refl|].
    destruct (h !! a) as [[items|tag cp|field funcs]|] eqn:Hobj.
    + destruct (copy_items (deepcopy_at kind n) (length h) items
                  (h ++ [OList []], <[a := length h]> memo))
        as [[h1 memo1] ru] eqn:Hitems.
      assert (h' = h1) as -> by (destruct ru; by injection H as <- _ _).
      destruct (copy_items_grows _ _ IH _ _ _ _ _ _ Hitems) as [L1 K1].
      { rewrite length_app. simpl. lia. }
      rewrite length_app in L1. simpl in L1.
      split; [lia|]. intros b Hb. rewrite K1 by done. by rewrite lookup_app_l.
    + destruct cp; simpl in H; injection H as <- <- <-;
        [apply keeps_app|apply keeps_refl..].
    + destruct (kind a); simpl in H; injection H as <- <- <-;
        [apply keeps_app|apply keeps_refl..].
    + injection H as <- <- <-. apply keeps_refl.
Qed.

Lemma copy_items_sound lo rec y :
  sound lo rec →
  ∀ items h memo h' memo' r,
    copy_items rec y items (h, memo) = ((h', memo'), r) →
    lo ≤ y < length h → memo_fresh lo h memo → closed lo h →
    lo = 0 ∨ no_same h →
    keeps y h h' ∧ memo_fresh lo h' memo' ∧ closed lo h' ∧ (lo = 0 ∨ no_same h').
Proof.
  intros Hrec. induction items as [|x rest IH]; intros h memo h' memo' r; simpl.
  - intros [= <- <- <-] ? ? ? ?. split; [apply keeps_refl|done].
  - destruct (rec x (h, memo)) as [[h1 memo1] [v|e]] eqn:Hx; intros H Hy Hm Hc Hs.
    + destruct (Hrec _ _ _ _ _ _ Hx) as (Hk1 & Hm1 & Hc1 & Hs1 & Hv);
        [lia|done|done|done|].
      specialize (Hv v eq_refl). destruct Hk1 as [L1 K1].
      destruct (IH _ _ _ _ _ H) as (Hk2 & Hm2 & Hc2 & Hs2).
      * rewrite length_alter. lia.
      * eapply memo_fresh_mono; [|done]. by rewrite length_alter.
      * by apply closed_alter.
      * destruct Hs1 as [?|Hs1]; [by left|right; by apply no_same_alter].
      * split; [|done]. eapply keeps_trans; [|eapply keeps_trans; [|exact Hk2]].
        -- split; [done|]. intros b Hb. apply K1. lia.
        -- apply keeps_alter.
    + injection H as <- <- <-.
      destruct (Hrec _ _ _ _ _ _ Hx) as (Hk1 & Hm1 & Hc1 & Hs1 & _);
        [lia|done|done|done|].
      split; [|done]. eapply keeps_le; [|done]. lia.
Qed.

Lemma copy_plain_sound lo a o k h memo h' memo' r :
  copy_plain a o k (h, memo) = ((h', memo'), r) →
  h !! a = Some o → (∀ items, o ≠ OList items) →
  lo = 0 ∨ (k ≠ CopySame ∧ ∀ tag, o ≠ OOpaque tag CopySame) →
  lo ≤ length h → memo_fresh lo h memo → closed lo h →
  lo = 0 ∨ no_same h →
  keeps (length h) h h' ∧ memo_fresh lo h' memo' ∧ closed lo h' ∧
  (lo = 0 ∨ no_same h') ∧
  ∀ v, r = Ok v → fresh_val lo h' v.
Proof.
  intros H Ha Ho Hk Hlo Hm Hc Hs. destruct k; simpl in H; injection H as <- <- <-.
  - assert (length h < length (h ++ [o])) by (rewrite length_app; simpl; lia).
    split; [apply keeps_app|]. split; [|split; [|split]].
    + apply memo_fresh_insert; [lia|]. eapply memo_fresh_mono; [|done]. lia.
    + apply closed_app; [done|]. destruct o; try done. by destruct (Ho items).
    + destruct Hs as [?|Hs]; [by left|]. destruct Hk as [->|[_ Hk]]; [by left|].
      right. by apply no_same_app.
    + intros v [= <-]. simpl. lia.
  - destruct Hk as [->|[Hk _]]; [|done].
    apply lookup_lt_Some in Ha.
    split; [apply keeps_refl|]. split; [|split; [done|split; [by left|]]].
    + apply memo_fresh_insert; [lia|done].
    + intros v [= <-]. simpl. lia.
  - split; [apply keeps_refl|done].
  - split; [apply keeps_refl|done].
Qed.

Lemma deepcopy_at_sound kind lo n :
  rebuilds lo kind → sound lo (deepcopy_at kind n).
Proof.
  intros Hkind.
  induction n as [|n IH]; intros x h memo h' memo' r H Hlo Hm Hc Hs.
  - destruct x as [| | | | |a]; simpl in H;
      try (injection H as <- <- <-; split; [apply keeps_refl|];
           split; [done|]; split; [done|]; split; [done|]; by intros v [= <-]).
    destruct (memo !! a) as [y|] eqn:Ha; injection H as <- <- <-;
      (split; [apply keeps_refl|]); split; try done; split; try done;
      split; try done.
    intros v [= <-]. by apply (Hm a y).
  - destruct x as [| | | | |a]; simpl in H;
      try (injection H as <- <- <-; split; [apply keeps_refl|];
           split; [done|]; split; [done|]; split; [done|]; by intros v [= <-]).
    destruct (memo !! a) as [y|] eqn:Ha.
    { injection H as <- <- <-. split; [apply keeps_refl|].
      split; [done|]. split; [done|]. split; [done|].
      intros v [= <-]. by apply (Hm a y). }
    destruct (h !! a) as [[items|tag cp|field funcs]|] eqn:Hobj.
    + destruct (copy_items (deepcopy_at kind n) (length h) items
                  (h ++ [OList []], <[a := length h]> memo))
        as [[h1 memo1] [u|e]] eqn:Hitems.
      all: injection H as <- <- <-.
      all: assert (length h < length (h ++ [OList []]))
             by (rewrite length_app; simpl; lia).
      all: destruct (copy_items_sound lo _ _ IH _ _ _ _ _ _ Hitems)
             as ([L1 K1] & Hm1 & Hc1 & Hs1);
             [lia
             |apply memo_fresh_insert; [lia|];
              eapply memo_fresh_mono; [|done]; lia
             |apply closed_app; [done|by constructor]
             |destruct Hs as [?|Hs]; [by left|right; by apply no_same_app]|].
      all: assert (keeps (length h) h h1) as Hk
             by (split; [lia|]; intros b Hb; rewrite K1 by done;
                 by rewrite lookup_app_l).
      * split; [done|]. split; [done|]. split; [done|]. split; [done|].
        intros v [= <-]. simpl. lia.
      * split; [done|]. split; [done|]. split; [done|]. split; [done|]. done.
    + apply (copy_plain_sound lo a (OOpaque tag cp) cp h memo); try done.
      destruct Hs as [?|Hs]; [by left|]. right. split.
      * intros ->. by eapply Hs.
      * intros tag' [= -> ->]. by eapply Hs.
    + apply (copy_plain_sound lo a (OLazy field funcs) (kind a) h memo); try done.
      destruct Hkind as [?|Hkind]; [by left|]. right. split; [apply Hkind|done].
    + injection H as <- <- <-. split; [apply keeps_refl|done].
Qed.
End Fresh.

(** ** Snapshots *)

(** The references of the dict point into the heap. *)
Definition valid_refs (s : State) : Prop :=
  ∀ k a, fields s !! k = Some (VRef a) → a < length (heap s).

(** [copy.deepcopy] hands back none of the objects as it is: it rebuilds
    each of them, or fails. *)
Definition rebuilt (env : Env) (h : list object) : Prop :=
  no_same h ∧ ∀ s a, lazy_copy env s a ≠ CopySame.

(** What can be seen of a value at depth [n]: the objects it reaches, by
    content. *)
#[local] Unset Elimination Schemes.
Inductive tree :=
| TAtom (v : val)
| TList (items : list tree)
| TOpaque (tag : nat) (cp : copy_kind)
| TLazy (field : string) (funcs : list func)
| TDangling
| TDeeper.
#[local] Set Elimination Schemes.

Fixpoint view (n : nat) (h : list object) (v : val) : tree :=
  match v with
  | VRef a =>
      match n with
      | 0 => TDeeper
      | S n' =>
          match h !! a with
          | Some (OList items) => TList (view n' h <$> items)
          | Some (OOpaque tag cp) => TOpaque tag cp
          | Some (OLazy field funcs) => TLazy field funcs
          | None => TDangling
          end
      end
  | _ => TAtom v
  end.


Section Snapshot.
Variable env : Env.

(** [copy.deepcopy] leaves the entry and the objects that were there
    alone. *)
Lemma deepcopy_frame x s s' r :
  deepcopy env x s = (s', r) →
  fields s' = fields s ∧ snapshots s' = snapshots s ∧ trace s' = trace s ∧
  log s' = log s ∧ keeps (length (heap s)) (heap s) (heap s').
Proof.
  unfold deepcopy. intros H.
  destruct (deepcopy_at (lazy_copy env s) (depth_limit env) x (heap s, ∅))
    as [[h' memo'] r'] eqn:Hd.
  simpl in H. injection H as <- <-. simpl.
  repeat (split; [done|]). by apply (deepcopy_at_grows _ _ _ _ _ _ _ _ Hd).
Qed.

Lemma deepcopy_sound x s s' r lo :
  deepcopy env x s = (s', r) →
  lo ≤ length (heap s) → closed lo (heap s) →
  lo = 0 ∨ rebuilt env (heap s) →
  fields s' = fields s ∧ snapshots s' = snapshots s ∧ trace s' = trace s ∧
  log s' = log s ∧
  keeps (length (heap s)) (heap s) (heap s') ∧ closed lo (heap s') ∧
  (lo = 0 ∨ rebuilt env (heap s')) ∧
  ∀ v, r = Ok v → fresh_val lo (heap s') v.
Proof.
  unfold deepcopy. intros H Hlo Hc Hs.
  destruct (deepcopy_at (lazy_copy env s) (depth_limit env) x (heap s, ∅))
    as [[h' memo'] r'] eqn:Hd.
  simpl in H. injection H as <- <-. simpl.
  destruct (deepcopy_at_sound (lazy_copy env s) lo (depth_limit env))
    with (x := x) (h := heap s) (memo := (∅ : gmap nat nat))
         (h' := h') (memo' := memo') (r := r')
    as (Hk & _ & Hc' & Hs' & Hv).
  - destruct Hs as [?|[_ Hs]]; [by left|right; apply Hs].
  - done.
  - done.
  - by intros a y; rewrite lookup_empty.
  - done.
  - destruct Hs as [?|[Hs _]]; [by left|by right].
  - repeat (split; [done|]). split; [|done].
    destruct Hs as [?|[_ Hs]]; [by left|]. destruct Hs' as [?|Hs']; [by left|].
    right. by split.
Qed.

Lemma getitem_unlazy key s :
  Entry.lazy_at s key = None → ∃ r, Entry.__getitem__ env key s = (s, r).
Proof.
  intros Hl. unfold Entry.lazy_at in Hl.
  destruct (fields s !! key) as [v|] eqn:Hv.
  - rewrite (getitem_concrete env key v) by done. eauto.
  - rewrite getitem_missing by done. eauto.
Qed.

Lemma lazy_at_keeps key s s' :
  fields s' = fields s → keeps (length (heap s)) (heap s) (heap s') →
  (∀ a, fields s !! key = Some (VRef a) → a < length (heap s)) →
  Entry.lazy_at s' key = Entry.lazy_at s key.
Proof.
  intros Hf [_ Hk] Hv. unfold Entry.lazy_at. rewrite Hf.
  destruct (fields s !! key) as [[| | | | |a]|]; try done. simpl.
  by rewrite Hk by (by apply Hv).
Qed.

(** The loop of [take_snapshot], when no resolver stands behind [title]:
    it leaves the entry and the objects that were there alone... *)
Lemma snapshot_items_frame name s0 :
  Entry.lazy_at s0 "title" = None →
  (∀ a, fields s0 !! "title" = Some (VRef a) → a < length (heap s0)) →
  ∀ items acc s s' r,
    Entry.snapshot_items env name items acc s = (s', r) →
    fields s = fields s0 → keeps (length (heap s0)) (heap s0) (heap s) →
    fields s' = fields s ∧ snapshots s' = snapshots s ∧ trace s' = trace s ∧
    keeps (length (heap s)) (heap s) (heap s').
Proof.
  intros Hl0 Hv0. induction items as [|[field value] rest IH];
    intros acc s s' r; simpl.
  - unfold ret. intros [= <- <-] Hf Hk.
    do 3 (split; [done|]). apply keeps_refl.
  - unfold bind at 1. unfold try_except. unfold bind at 1.
    destruct (deepcopy env value s) as [s1 [c|e]] eqn:Hd;
      intros H Hf Hk;
      destruct (deepcopy_frame _ _ _ _ Hd) as (Hf1 & Hs1 & Ht1 & _ & Hk1).
    + unfold ret at 1 in H.
      destruct (IH _ _ _ _ H) as (Hf' & Hs' & Ht' & Hk').
      * congruence.
      * by eapply keeps_step.
      * do 3 (split; [congruence|]). by eapply keeps_step.
    + assert (Entry.lazy_at s1 "title" = None) as Hl1.
      { rewrite <-Hl0. apply lazy_at_keeps; [congruence| |done].
        by eapply keeps_step. }
      destruct (is_TypeError e).
      2:{ by injection H as <- <-. }
      unfold bind at 1 in H.
      destruct (getitem_unlazy "title" s1 Hl1) as [[title|e'] Hget];
        rewrite Hget in H.
      2:{ by injection H as <- <-. }
      unfold bind at 1, modify at 1, ret at 1 in H.
      destruct (IH _ _ _ _ H) as (Hf' & Hs' & Ht' & Hk').
      * simpl. congruence.
      * simpl. by eapply keeps_step.
      * simpl in *. do 3 (split; [congruence|]). by eapply keeps_step.
Qed.


Lemma view_stable lo h h2 :
  closed lo h →
  (∀ b, lo ≤ b < length h → h2 !! b = h !! b) →
  ∀ n v, fresh_val lo h v → view n h2 v = view n h v.
Proof.
  intros Hc Hag. induction n as [|n IH]; intros v Hv; [by destruct v|].
  destruct v as [| | | | |a]; try done. simpl in *.
  rewrite (Hag a Hv).
  destruct (h !! a) as [[items| |]|] eqn:Ha; try done.
  f_equal. apply Forall_fmap_ext_1.
  eapply Forall_impl; [apply (Hc a (OList items)); [lia|done]|].
  intros w Hw. by apply IH.
Qed.



End Snapshot.







(** An entry with a list of tags, an object that can be changed in
    place. *)
Definition tagged : State :=
  mkState {[ "title" := VUnicode true "Show S01E01"; "tags" := VRef 0 ]} [] ∅
    [OList [VInt 1; VInt 2]] [].

Lemma valid_refs_tagged : valid_refs tagged.
Proof.
  intros k a. unfold tagged. simpl.
  destruct (decide (k = "title")) as [->|]; [by simplify_map_eq|].
  destruct (decide (k = "tags")) as [->|]; simplify_map_eq; [|done].
  intros [= <-]. simpl. lia.
Qed.





(** ** Fields that cannot be copied *)

(** [copy.deepcopy] returns a copy of the value, or raises [TypeError] on
    it, or raises something else, in the state and in every state that has
    the same objects and maybe more. *)
Definition copies (env : Env) (s : State) (v : val) : Prop :=
  ∀ s', keeps (length (heap s)) (heap s) (heap s') →
        ∃ c, (deepcopy env v s').2 = Ok c.
Definition refuses (env : Env) (s : State) (v : val) : Prop :=
  ∀ s', keeps (length (heap s)) (heap s) (heap s') →
        (deepcopy env v s').2 = Raise TypeError.
Definition aborts (env : Env) (s : State) (v : val) : Prop :=
  ∀ s', keeps (length (heap s)) (heap s) (heap s') →
        ∃ e, (deepcopy env v s').2 = Raise e ∧ is_TypeError e = false.

(** The title is there and is not lazy: what the warnings need. *)
Definition titled (s : State) (title : val) : Prop :=
  fields s !! "title" = Some title ∧ as_lazy (heap s) title = None.

(** An entry with a title, a number and an object that cannot be copied
    (a lock, say). *)
Definition with_lock : State :=
  mkState {[ "title" := VUnicode true "Show S01E01"; "size" := VInt 700;
             "lock" := VRef 0 ]} [] ∅ [OOpaque 7 CopyTypeError] [].

(** An entry with a title and an object whose copy fails with an error
    that is not a [TypeError]. *)
Definition with_socket : State :=
  mkState {[ "title" := VUnicode true "Show S01E01"; "conn" := VRef 0 ]} [] ∅
    [OOpaque 7 (CopyOther 3)] [].

Section Skipping.
Variable env : Env.
Variable name : string.

Lemma copies_not_refuses s v : copies env s v → refuses env s v → False.
Proof.
  intros Hc Hr. destruct (Hc s (keeps_refl _ _)) as [c Hc'].
  rewrite (Hr s (keeps_refl _ _)) in Hc'. done.
Qed.

Lemma copies_not_aborts s v : copies env s v → aborts env s v → False.
Proof.
  intros Hc Ha. destruct (Hc s (keeps_refl _ _)) as [c Hc'].
  destruct (Ha s (keeps_refl _ _)) as (e & He & _). congruence.
Qed.

Lemma refuses_not_aborts s v : refuses env s v → aborts env s v → False.
Proof.
  intros Hr Ha. destruct (Ha s (keeps_refl _ _)) as (e & He & Hne).
  rewrite (Hr s (keeps_refl _ _)) in He. by injection He as <-.
Qed.

(** The title is read as it was, after the copies made so far. *)
Lemma titled_getitem s0 s title :
  titled s0 title → valid_refs s0 →
  fields s = fields s0 → keeps (length (heap s0)) (heap s0) (heap s) →
  Entry.__getitem__ env "title" s = (s, Ok title).
Proof.
  intros [Ht Hlz] Hvalid Hf [_ Hk]. apply getitem_concrete; [congruence|].
  destruct title as [| | | | |a]; try done. simpl in *.
  by rewrite Hk by (by apply (Hvalid "title")).
Qed.

(** The loop, on fields that are copied or refused. *)
Lemma snapshot_items_skip s0 title :
  valid_refs s0 →
  ∀ items acc s,
    (∀ k v, (k, v) ∈ items → copies env s0 v ∨ refuses env s0 v) →
    (∀ k v, (k, v) ∈ items → refuses env s0 v → titled s0 title) →
    fields s = fields s0 → keeps (length (heap s0)) (heap s0) (heap s) →
    ∃ s' snap,
      Entry.snapshot_items env name items acc s = (s', Ok snap) ∧
      fields s' = fields s ∧ snapshots s' = snapshots s ∧
      keeps (length (heap s0)) (heap s0) (heap s') ∧
      (∀ k v, (k, v) ∈ items → copies env s0 v → is_Some (snap !! k)) ∧
      (∀ k, (∀ v, (k, v) ∈ items → refuses env s0 v) → snap !! k = acc !! k) ∧
      (∀ k, is_Some (acc !! k) → is_Some (snap !! k)) ∧
      (∀ k v, (k, v) ∈ items → refuses env s0 v →
              (WARNING, SnapshotFieldSkipped name k title) ∈ log s') ∧
      (∀ x, x ∈ log s → x ∈ log s') ∧
      (∀ x, x ∈ log s' →
            x ∈ log s ∨
            ∃ k v, (k, v) ∈ items ∧ refuses env s0 v ∧
                   x = (WARNING, SnapshotFieldSkipped name k title)).
Proof.
  intros Hvalid. induction items as [|[field value] rest IH];
    intros acc s Hclass Htitle Hf Hk.
  - exists s, acc. simpl. unfold ret. split; [done|].
    do 3 (split; [done|]).
    split; [by intros k v ?%elem_of_nil|]. split; [done|]. split; [done|].
    split; [by intros k v ?%elem_of_nil|]. split; [done|]. intros x Hx. by left.
  - simpl. unfold bind at 1. unfold try_except. unfold bind at 1.
    destruct (deepcopy env value s) as [s1 r] eqn:Hd.
    destruct (deepcopy_frame env _ _ _ _ Hd) as (Hf1 & Hs1 & _ & Hlog1 & Hk1).
    assert (keeps (length (heap s0)) (heap s0) (heap s1)) as Hk01
      by (by eapply keeps_step).
    assert (∀ k v, (k, v) ∈ rest → copies env s0 v ∨ refuses env s0 v) as Hclass'
      by (intros k v ?; apply (Hclass k v); by right).
    assert (∀ k v, (k, v) ∈ rest → refuses env s0 v → titled s0 title) as Htitle'
      by (intros k v ?; apply (Htitle k v); by right).
    destruct (Hclass field value ltac:(left)) as [Hc|Hr].
    + (* the value is copied *)
      destruct (Hc s Hk) as [c Hc']. rewrite Hd in Hc'. simpl in Hc'. subst r.
      unfold ret at 1.
      destruct (IH (<[field := c]> acc) s1) as
        (s' & snap & -> & Hf' & Hs' & Hk' & Hin & Hout & Hmono & Hwarn & Hlog & Hup);
        [done|done|congruence|done|].
      exists s', snap. split; [done|]. split; [congruence|]. split; [congruence|].
      split; [done|]. split; [|split; [|split; [|split; [|split]]]].
      * intros k v [[= -> ->]|Hkv]%elem_of_cons Hcv; [|by eapply Hin].
        apply Hmono. rewrite lookup_insert_eq. by eexists.
      * intros k Hall. rewrite Hout by (intros v ?; apply Hall; by right).
        apply lookup_insert_ne. intros <-.
        apply (copies_not_refuses s0 value Hc). apply Hall. by left.
      * intros k Hk0. apply Hmono. rewrite lookup_insert.
        case_decide; [by eexists|done].
      * intros k v [[= -> ->]|Hkv]%elem_of_cons Hrv; [|by eapply Hwarn].
        by destruct (copies_not_refuses s0 value).
      * intros x Hx. apply Hlog. by rewrite Hlog1.
      * intros x Hx. destruct (Hup x Hx) as [Hx'|(k & v & Hkv & Hrv & ->)].
        -- left. by rewrite <-Hlog1.
        -- right. exists k, v. split; [by right|done].
    + (* the value cannot be copied: a warning, and the loop goes on *)
      pose proof (Hr s Hk) as Hr'. rewrite Hd in Hr'. simpl in Hr'. subst r.
      simpl. unfold bind at 1.
      rewrite (titled_getitem s0 s1 title);
        [|by apply (Htitle field value); [left|]|done|congruence|done].
      unfold bind at 1, modify at 1, ret at 1.
      set (s2 := emit WARNING (SnapshotFieldSkipped name field title) s1).
      destruct (IH acc s2) as
        (s' & snap & -> & Hf' & Hs' & Hk' & Hin & Hout & Hmono & Hwarn & Hlog & Hup);
        [done|done|by simpl; congruence|done|].
      exists s', snap. split; [done|].
      split; [simpl in *; congruence|]. split; [simpl in *; congruence|].
      split; [done|]. split; [|split; [|split; [|split; [|split]]]].
      * intros k v [[= -> ->]|Hkv]%elem_of_cons Hcv; [|by eapply Hin].
        by destruct (copies_not_refuses s0 value).
      * intros k Hall. apply Hout. intros v ?. apply Hall. by right.
      * done.
      * intros k v [[= -> ->]|Hkv]%elem_of_cons Hrv; [|by eapply Hwarn].
        apply Hlog. simpl. apply elem_of_app. right. by left.
      * intros x Hx. apply Hlog. simpl. apply elem_of_app. left.
        by rewrite Hlog1.
      * intros x Hx. destruct (Hup x Hx) as [Hx'|(k & v & Hkv & Hrv & ->)].
        -- simpl in Hx'. apply elem_of_app in Hx' as [Hx'|Hx'].
           ++ left. by rewrite <-Hlog1.
           ++ apply list_elem_of_singleton in Hx' as ->.
              right. exists field, value. split; [by left|done].
        -- right. exists k, v. split; [by right|done].
Qed.

(** The loop, when the copy of some field fails with another exception
    than [TypeError]: that exception ends the loop. *)
Lemma snapshot_items_abort s0 title :
  valid_refs s0 →
  ∀ items acc s,
    (∀ k v, (k, v) ∈ items →
            copies env s0 v ∨ refuses env s0 v ∨ aborts env s0 v) →
    (∀ k v, (k, v) ∈ items → refuses env s0 v → titled s0 title) →
    (∃ k v, (k, v) ∈ items ∧ aborts env s0 v) →
    fields s = fields s0 → keeps (length (heap s0)) (heap s0) (heap s) →
    ∃ s' e,
      Entry.snapshot_items env name items acc s = (s', Raise e) ∧
      is_TypeError e = false ∧
      fields s' = fields s ∧ snapshots s' = snapshots s.
Proof.
  intros Hvalid. induction items as [|[field value] rest IH];
    intros acc s Hclass Htitle (k0 & v0 & Hin0 & Ha0) Hf Hk.
  { by apply elem_of_nil in Hin0. }
  simpl. unfold bind at 1. unfold try_except. unfold bind at 1.
  destruct (deepcopy env value s) as [s1 r] eqn:Hd.
  destruct (deepcopy_frame env _ _ _ _ Hd) as (Hf1 & Hs1 & _ & Hlog1 & Hk1).
  assert (keeps (length (heap s0)) (heap s0) (heap s1)) as Hk01
    by (by eapply keeps_step).
  assert (∀ k v, (k, v) ∈ rest →
                 copies env s0 v ∨ refuses env s0 v ∨ aborts env s0 v) as Hclass'
    by (intros k v ?; apply (Hclass k v); by right).
  assert (∀ k v, (k, v) ∈ rest → refuses env s0 v → titled s0 title) as Htitle'
    by (intros k v ?; apply (Htitle k v); by right).
  destruct (Hclass field value ltac:(left)) as [Hc|[Hr|Ha]].
  - destruct (Hc s Hk) as [c Hc']. rewrite Hd in Hc'. simpl in Hc'. subst r.
    unfold ret at 1.
    destruct (IH (<[field := c]> acc) s1) as (s' & e & -> & He & Hf' & Hs');
      [done|done| |congruence|done|].
    { apply elem_of_cons in Hin0 as [[= -> ->]|Hin0]; [|by eauto].
      by destruct (copies_not_aborts s0 value). }
    exists s', e. split; [done|]. split; [done|]. split; congruence.
  - pose proof (Hr s Hk) as Hr'. rewrite Hd in Hr'. simpl in Hr'. subst r.
    simpl. unfold bind at 1.
    rewrite (titled_getitem s0 s1 title);
      [|by apply (Htitle field value); [left|]|done|congruence|done].
    unfold bind at 1, modify at 1, ret at 1.
    set (s2 := emit WARNING (SnapshotFieldSkipped name field title) s1).
    destruct (IH acc s2) as (s' & e & -> & He & Hf' & Hs');
      [done|done| |by simpl; congruence|done|].
    { apply elem_of_cons in Hin0 as [[= -> ->]|Hin0]; [|by eauto].
      by destruct (refuses_not_aborts s0 value). }
    exists s', e. split; [done|]. split; [done|]. simpl in *. split; congruence.
  - destruct (Ha s Hk) as (e & He & Hne). rewrite Hd in He. simpl in He. subst r.
    rewrite Hne. exists s1, e. by repeat split.
Qed.
End Skipping.

Section Classes.
Variable env : Env.

Lemma copies_atom s v : (∀ a, v ≠ VRef a) → copies env s v.
Proof.
  intros Hv s' _. exists v. unfold deepcopy.
  destruct v as [| | | | |a]; [by destruct (depth_limit env)..|by destruct (Hv a)].
Qed.

Lemma refuses_opaque s a tag :
  heap s !! a = Some (OOpaque tag CopyTypeError) → 0 < depth_limit env →
  refuses env s (VRef a).
Proof.
  intros Ha Hd s' [_ Hk]. unfold deepcopy. simpl.
  destruct (depth_limit env) as [|n]; [lia|]. simpl.
  rewrite lookup_empty. rewrite Hk by (by eapply lookup_lt_Some). by rewrite Ha.
Qed.

Lemma aborts_opaque s a tag n :
  heap s !! a = Some (OOpaque tag (CopyOther n)) → 0 < depth_limit env →
  aborts env s (VRef a).
Proof.
  intros Ha Hd s' [_ Hk]. exists (OtherError n). unfold deepcopy. simpl.
  destruct (depth_limit env) as [|m]; [lia|]. simpl.
  rewrite lookup_empty. rewrite Hk by (by eapply lookup_lt_Some). by rewrite Ha.
Qed.

Lemma elem_of_dict_iter k v (m : gmap string val) :
  iter_ok env → (k, v) ∈ dict_iter env m ↔ m !! k = Some v.
Proof. intros Hiter. rewrite (Hiter m). apply elem_of_map_to_list. Qed.
End Classes.

(** C8 (amended). On an entry whose every field value is copied by
    [copy.deepcopy], refused by it with [TypeError], or failed on with
    another exception, and which holds a title that is not lazy whenever
    a warning is to be logged (for a refused field, or for a name that is
    taken already).  When no field fails with another exception,
    [take_snapshot] returns; for each refused field a warning that names
    the snapshot, the field and the title is logged; when some field is
    copied, the snapshot stored under [name] has the copied fields, and
    only those; when no field is copied, as on an entry without fields,
    nothing is stored.  When some field fails with another exception than
    [TypeError], [take_snapshot] does not return: an exception that is not
    a [TypeError] leaves it, and nothing is stored. *)
Theorem snapshot_skips_refused_fields (env : Env) (name : string) (s : State)
    (title : val) :
  iter_ok env → valid_refs s →
  (∀ k v, fields s !! k = Some v →
          copies env s v ∨ refuses env s v ∨ aborts env s v) →
  ((∃ k v, fields s !! k = Some v ∧ refuses env s v) ∨
   (is_Some (snapshots s !! name) ∧
    ∃ k v, fields s !! k = Some v ∧ copies env s v) →
   titled s title) →
  ((∀ k v, fields s !! k = Some v → ¬ aborts env s v) →
   ∃ s',
     Entry.take_snapshot env name s = (s', Ok tt) ∧ fields s' = fields s ∧
     (∀ k v, fields s !! k = Some v → refuses env s v →
             (WARNING, SnapshotFieldSkipped name k title) ∈ log s') ∧
     ((∃ k v, fields s !! k = Some v ∧ copies env s v) →
      ∃ snap, snapshots s' = <[name := snap]> (snapshots s) ∧
              ∀ k, is_Some (snap !! k) ↔
                   ∃ v, fields s !! k = Some v ∧ copies env s v) ∧
     ((∀ k v, fields s !! k = Some v → ¬ copies env s v) →
      snapshots s' = snapshots s)) ∧
  ((∃ k v, fields s !! k = Some v ∧ aborts env s v) →
   ∃ s' e,
     Entry.take_snapshot env name s = (s', Raise e) ∧ is_TypeError e = false ∧
     fields s' = fields s ∧ snapshots s' = snapshots s).
Proof.
  intros Hiter Hvalid Hclass Htitle.
  pose proof (λ k v, elem_of_dict_iter env k v (fields s) Hiter) as Hmem.
  assert (∀ k v, (k, v) ∈ dict_iter env (fields s) → refuses env s v →
                 titled s title) as Htitle1.
  { intros k v Hkv Hr. apply Hmem in Hkv. apply Htitle. left. eauto. }
  split.
  - intros Hnone.
    assert (∀ k v, fields s !! k = Some v → copies env s v ∨ refuses env s v)
      as Hclass2.
    { intros k v Hv. destruct (Hclass k v Hv) as [?|[?|Ha]]; auto.
      by destruct (Hnone k v Hv). }
    destruct (snapshot_items_skip env name s title Hvalid
                (dict_iter env (fields s)) ∅ s)
      as (s1 & snap & Hloop & Hf & Hs & Hk & Hin & Hout & _ & Hwarn & Hlog);
      [by intros k v Hkv; apply Hmem in Hkv; apply (Hclass2 k v)
      |done|done|apply keeps_refl|].
    assert (Hsome : ∀ k, is_Some (snap !! k) ↔
                         ∃ v, fields s !! k = Some v ∧ copies env s v).
    { intros k. split.
      - intros Hk0. destruct (fields s !! k) as [v|] eqn:Hv.
        + destruct (Hclass2 k v Hv) as [Hc|Hr]; [by eauto|].
          rewrite Hout in Hk0; [by destruct Hk0|].
          intros v' Hv'. apply Hmem in Hv'. rewrite Hv in Hv'. by simplify_eq.
        + rewrite Hout in Hk0; [by destruct Hk0|].
          intros v' Hv'. apply Hmem in Hv'. rewrite Hv in Hv'. by simplify_eq.
      - intros (v & Hv & Hc). apply (Hin k v); [|done].
        by apply Hmem. }
    assert (Hempty : (∀ k v, fields s !! k = Some v → ¬ copies env s v) →
                     snap = ∅).
    { intros Hall. apply map_empty. intros k.
      destruct (snap !! k) as [c|] eqn:Hc; [|done].
      destruct (proj1 (Hsome k)) as (v & Hv & Hcv); [by eauto|].
      by destruct (Hall k v Hv). }
    unfold Entry.take_snapshot. unfold bind at 1. unfold gets at 1.
    unfold bind at 1. rewrite Hloop.
    destruct (decide (snap = ∅)) as [->|Hne].
    + exists s1. unfold ret. split; [done|]. split; [done|].
      split; [|split; [|done]].
      * intros k v Hv Hr. apply (Hwarn k v); [|done]. by apply Hmem.
      * intros (k & v & Hv & Hc). exfalso.
        destruct (proj2 (Hsome k)) as [x Hx]; [by eauto|]. done.
    + assert (∃ k v, fields s !! k = Some v ∧ copies env s v) as Hcopied.
      { destruct (map_choose snap Hne) as (k & c & Hkc).
        destruct (proj1 (Hsome k)) as (v & Hv & Hcv); eauto. }
      unfold bind at 1. unfold gets at 1.
      destruct (snapshots s1 !! name) as [old|] eqn:Hold.
      * unfold bind at 1. unfold bind at 1.
        rewrite (titled_getitem env s s1 title); [|
          apply Htitle; right; split; [rewrite <-Hs; by eauto|done]
          |done|done|done].
        unfold modify.
        eexists. split; [done|]. simpl. split; [done|].
        split; [|split].
        -- intros k v Hv Hr. apply elem_of_app. left.
           apply (Hwarn k v); [|done]. by apply Hmem.
        -- intros _. exists snap. by rewrite Hs.
        -- intros Hall. by destruct Hne; apply Hempty.
      * unfold bind at 1. unfold ret at 1. unfold modify.
        eexists. split; [done|]. simpl. split; [done|].
        split; [|split].
        -- intros k v Hv Hr. apply (Hwarn k v); [|done]. by apply Hmem.
        -- intros _. exists snap. by rewrite Hs.
        -- intros Hall. by destruct Hne; apply Hempty.
  - intros (k0 & v0 & Hv0 & Ha0).
    destruct (snapshot_items_abort env name s title Hvalid
                (dict_iter env (fields s)) ∅ s)
      as (s1 & e & Hloop & He & Hf & Hs);
      [by intros k v Hkv; apply Hmem in Hkv; apply (Hclass k v)
      |done
      |by exists k0, v0; split; [apply Hmem|]
      |done|apply keeps_refl|].
    exists s1, e. unfold Entry.take_snapshot. unfold bind at 1. unfold gets at 1.
    unfold bind at 1. by rewrite Hloop.
Qed.

Lemma valid_refs_with_lock : valid_refs with_lock.
Proof.
  intros k a. unfold with_lock. cbn [fields heap]. intros Hka.
  apply lookup_insert_Some in Hka as [[_ [=]]|[_ Hka]].
  apply lookup_insert_Some in Hka as [[_ [=]]|[_ Hka]].
  apply lookup_singleton_Some in Hka as [_ [= <-]]. simpl. lia.
Qed.

Lemma with_lock_classes k v :
  fields with_lock !! k = Some v →
  copies Sample.env with_lock v ∨ refuses Sample.env with_lock v ∨
  aborts Sample.env with_lock v.
Proof.
  unfold with_lock. cbn [fields heap]. intros Hkv.
  apply lookup_insert_Some in Hkv as [[_ <-]|[_ Hkv]];
    [left; by apply copies_atom|].
  apply lookup_insert_Some in Hkv as [[_ <-]|[_ Hkv]];
    [left; by apply copies_atom|].
  apply lookup_singleton_Some in Hkv as [_ <-].
  right. left. apply (refuses_opaque _ _ _ 7); [done|simpl; lia].
Qed.

Lemma valid_refs_with_socket : valid_refs with_socket.
Proof.
  intros k a. unfold with_socket. cbn [fields heap]. intros Hka.
  apply lookup_insert_Some in Hka as [[_ [=]]|[_ Hka]].
  apply lookup_singleton_Some in Hka as [_ [= <-]]. simpl. lia.
Qed.

Lemma with_socket_classes k v :
  fields with_socket !! k = Some v →
  copies Sample.env with_socket v ∨ refuses Sample.env with_socket v ∨
  aborts Sample.env with_socket v.
Proof.
  unfold with_socket. cbn [fields heap]. intros Hkv.
  apply lookup_insert_Some in Hkv as [[_ <-]|[_ Hkv]];
    [left; by apply copies_atom|].
  apply lookup_singleton_Some in Hkv as [_ <-].
  right. right. apply (aborts_opaque _ _ _ 7 3); [done|simpl; lia].
Qed.

(** The snapshot of an entry that holds a lock has the title and the
    size, and a warning tells that the lock was left out; the snapshot of
    an entry without fields returns and stores nothing; the snapshot of an
    entry that holds a socket does not return. *)
Lemma snapshot_skips_refused_fields_witness :
  (∃ s' snap,
     Entry.take_snapshot Sample.env "s1" with_lock = (s', Ok tt) ∧
     (WARNING, SnapshotFieldSkipped "s1" "lock" (VUnicode true "Show S01E01"))
       ∈ log s' ∧
     snapshots s' = <[ "s1" := snap ]> ∅ ∧
     is_Some (snap !! "size") ∧ snap !! "lock" = None) ∧
  (∃ s', Entry.take_snapshot Sample.env "s1" Sample.blank = (s', Ok tt) ∧
         snapshots s' = ∅) ∧
  (∃ s' e, Entry.take_snapshot Sample.env "s1" with_socket = (s', Raise e) ∧
           is_TypeError e = false ∧ snapshots s' = ∅).
Proof.
  assert (refuses Sample.env with_lock (VRef 0)) as Hlock
    by (apply (refuses_opaque _ _ _ 7); [done|simpl; lia]).
  assert (copies Sample.env with_lock (VInt 700)) as Hsize
    by (by apply copies_atom).
  split; [|split].
  - destruct (snapshot_skips_refused_fields Sample.env "s1" with_lock
                (VUnicode true "Show S01E01") (iter_ok_sample _)
                valid_refs_with_lock with_lock_classes) as [Hreturns _].
    { intros _. split; [vm_compute; reflexivity|done]. }
    destruct Hreturns as (s' & Hrun & _ & Hwarn & Hsome & _).
    { intros k v Hkv Ha. unfold with_lock in Hkv. cbn [fields] in Hkv.
      apply lookup_insert_Some in Hkv as [[_ <-]|[_ Hkv]];
        [refine (copies_not_aborts _ _ _ _ Ha); by apply copies_atom|].
      apply lookup_insert_Some in Hkv as [[_ <-]|[_ Hkv]];
        [refine (copies_not_aborts _ _ _ _ Ha); by apply copies_atom|].
      apply lookup_singleton_Some in Hkv as [_ <-].
      exact (refuses_not_aborts _ _ _ Hlock Ha). }
    destruct Hsome as (snap & Hsnap & Hkeys).
    { exists "size", (VInt 700). split; [vm_compute; reflexivity|done]. }
    exists s', snap. split; [done|]. split; [|split; [done|split]].
    + apply (Hwarn "lock" (VRef 0)); [vm_compute; reflexivity|done].
    + apply Hkeys. exists (VInt 700). split; [vm_compute; reflexivity|done].
    + destruct (snap !! "lock") as [c|] eqn:Hc; [|done].
      destruct (proj1 (Hkeys "lock")) as (v & Hv & Hcopies); [by eauto|].
      vm_compute in Hv. injection Hv as <-.
      by destruct (copies_not_refuses Sample.env with_lock (VRef 0)).
  - destruct (snapshot_skips_refused_fields Sample.env "s1" Sample.blank VNone
                (iter_ok_sample _)) as [Hreturns _].
    { by intros k a. }
    { by intros k v. }
    { intros [(k & v & Hkv & _)|[_ (k & v & Hkv & _)]]; done. }
    destruct Hreturns as (s' & Hrun & _ & _ & _ & Hnone); [by intros k v|].
    exists s'. split; [done|]. rewrite Hnone; [done|]. by intros k v.
  - destruct (snapshot_skips_refused_fields Sample.env "s1" with_socket
                (VUnicode true "Show S01E01") (iter_ok_sample _)
                valid_refs_with_socket with_socket_classes) as [_ Haborts].
    { intros _. split; [vm_compute; reflexivity|done]. }
    destruct Haborts as (s' & e & Hrun & He & _ & Hs).
    { exists "conn", (VRef 0). split; [vm_compute; reflexivity|].
      apply (aborts_opaque _ _ _ 7 3); [done|simpl; lia]. }
    exists s', e. split; [done|]. split; [done|]. by rewrite Hs.
Defined.

(** C8, as it is stated, fails on a field whose copy raises an error other
    than [TypeError]: the error leaves [take_snapshot], title or no title.
    And it fails on an entry without a title, when a field is refused
    or when the name is taken: the title is read for the warning, and
    [KeyError] leaves [take_snapshot]. *)
Lemma snapshot_aborts_on_other_error :
  ¬ (∀ (env : Env) (name : string) (s : State) (title : val),
       iter_ok env → valid_refs s → titled s title →
       ∃ s', Entry.take_snapshot env name s = (s', Ok tt)) ∧
  ¬ (∀ (env : Env) (name : string) (s : State),
       iter_ok env → valid_refs s →
       (∀ k v, fields s !! k = Some v → copies env s v ∨ refuses env s v) →
       snapshots s !! name = None →
       ∃ s', Entry.take_snapshot env name s = (s', Ok tt)) ∧
  ¬ (∀ (env : Env) (name : string) (s : State),
       iter_ok env → valid_refs s →
       (∀ k v, fields s !! k = Some v → copies env s v) →
       ∃ s', Entry.take_snapshot env name s = (s', Ok tt)).
Proof.
  split; [|split].
  - intros H.
    destruct (H Sample.env "s1" with_socket (VUnicode true "Show S01E01")
                (iter_ok_sample _) valid_refs_with_socket) as (s' & Hs').
    { split; [vm_compute; reflexivity|done]. }
    vm_compute in Hs'. discriminate Hs'.
  - intros H.
    destruct (H Sample.env "s1"
                (mkState {[ "lock" := VRef 0 ]} [] ∅ [OOpaque 7 CopyTypeError] [])
                (iter_ok_sample _)) as (s' & Hs').
    + intros k a. cbn [fields heap]. intros Hka.
      apply lookup_singleton_Some in Hka as [_ [= <-]]. simpl. lia.
    + intros k v. cbn [fields]. intros Hkv.
      apply lookup_singleton_Some in Hkv as [_ <-].
      right. apply (refuses_opaque _ _ _ 7); [done|simpl; lia].
    + done.
    + vm_compute in Hs'. discriminate Hs'.
  - intros H.
    destruct (H Sample.env "s1"
                (mkState {[ "size" := VInt 700 ]} [] {[ "s1" := ∅ ]} [] [])
                (iter_ok_sample _)) as (s' & Hs').
    + intros k a. cbn [fields heap]. intros Hka.
      by apply lookup_singleton_Some in Hka as [_ [=]].
    + intros k v. cbn [fields]. intros Hkv.
      apply lookup_singleton_Some in Hkv as [_ <-]. by apply copies_atom.
    + vm_compute in Hs'. discriminate Hs'.
Qed.

(** The handler of [TypeError] reads the title: on an entry without one
    the warning is not logged and [KeyError] leaves [take_snapshot]. *)
Example snapshot_warning_reads_title :
  (Entry.take_snapshot Sample.env "s1"
     (mkState {[ "lock" := VRef 0 ]} [] ∅ [OOpaque 7 CopyTypeError] [])).2
  = Raise (KeyError "title").
Proof. vm_compute. reflexivity. Qed.

(** * Further properties of [Entry] *)

(** ** Writes *)

(** X1. A byte string that the default codec cannot decode is refused
    whatever the key: the write raises [EntryUnicodeError] with the key and
    the value, and the entry, the objects and the log are as they were. *)
Theorem setitem_rejects_undecodable_bytes (env : Env) (key b : string) (s : State) :
  is_ascii b = false →
  Entry.__setitem__ env key (VStr b) s
    = (s, Raise (EntryUnicodeError key (VStr b))).
Proof.
  intros Hb. rewrite setitem_unfold.
  unfold Entry.setitem_body, bind, Entry.enforce_unicode. simpl.
  unfold unicode. simpl. unfold decode_ascii. by rewrite Hb.
Qed.

Lemma setitem_rejects_undecodable_bytes_witness :
  Entry.__setitem__ Sample.env "title"
    (VStr (String (Ascii.ascii_of_nat 233) "t")) Sample.blank
  = (Sample.blank,
     Raise (EntryUnicodeError "title" (VStr (String (Ascii.ascii_of_nat 233) "t")))).
Proof. apply setitem_rejects_undecodable_bytes. vm_compute. reflexivity. Defined.

(** X2. A write to a key other than [url] changes that key of the dict
    and nothing else: the other keys, the objects, the snapshots and
    [trace] are as they were.  What is stored is never a string of another
    type than [unicode], and it is the value given when that value is not a
    string and the key is not [imdb_url].  A write that raises leaves the
    whole state, the log included, as it was. *)
Theorem setitem_changes_one_key (env : Env) (key : string) (v : val)
    (s s' : State) (r : result unit) :
  key ≠ "url" →
  Entry.__setitem__ env key v s = (s', r) →
  heap s' = heap s ∧ snapshots s' = snapshots s ∧ trace s' = trace s ∧
  match r with
  | Ok _ =>
      ∃ v', fields s' = <[key := v']> (fields s) ∧
            (is_basestring v' = true → type_is_unicode v' = true) ∧
            (key = "title" → type_is_unicode v' = true) ∧
            (key ≠ "imdb_url" → is_basestring v = false → v' = v)
  | Raise _ => s' = s
  end.
Proof.
  intros Hk. rewrite setitem_unfold. unfold Entry.setitem_body, bind.
  destruct (Entry.enforce_unicode env key v s) as [s0 [v1|e]] eqn:H1;
    pose proof (enforce_unicode_state env _ _ _ _ _ H1) as ->;
    [|by intros [= <- <-]].
  assert (is_basestring v1 = true → type_is_unicode v1 = true) as Hv1.
  { intros Hb1. rewrite (enforce_unicode_basestring env _ _ _ _ H1) in Hb1.
    by destruct (enforce_unicode_string env _ _ _ _ Hb1 H1) as [t ->]. }
  assert (is_basestring v = false → v1 = v) as Hsame.
  { intros Hb. revert H1. unfold Entry.enforce_unicode. rewrite Hb. simpl.
    unfold ret. by intros [= <-]. }
  rewrite url_handling_other by done.
  destruct (Entry.title_handling env key v1 s) as [s0 [[]|e]] eqn:H2;
    pose proof (title_handling_state env _ _ _ _ _ H2) as ->;
    [|by intros [= <- <-]].
  assert (key = "title" → is_basestring v1 = true) as Ht.
  { intros ->. revert H2. unfold Entry.title_handling. rewrite decide_True by done.
    destruct (is_basestring v1); [done|]. unfold bind, gets, raise.
    by destruct (repr_raises env (heap s) v1). }
  destruct (Entry.imdb_handling env key v1 s) as [s2 r2] eqn:H3.
  destruct (imdb_handling_same env _ _ _ _ _ H3) as [(Hf2&?&?&?) [v2 ->]].
  destruct (log_set_same env key v2 s2) as (s3 & -> & (Hf3&?&?&?)).
  unfold modify. intros [= <- <-]. simpl.
  split; [congruence|]. split; [congruence|]. split; [congruence|].
  exists v2. rewrite Hf3, Hf2. split; [done|].
  revert H3. unfold Entry.imdb_handling. case_decide as Hi.
  - subst key. unfold bind, modify, ret.
    destruct v1 as [| | |t|x t|a]; repeat case_match; intros [= _ <-];
      repeat split; try done; auto.
  - unfold ret. intros [= _ <-]. repeat split; auto.
Qed.

Lemma setitem_changes_one_key_witness :
  ∃ s', Entry.__setitem__ Sample.env "quality" (VInt 720) episode = (s', Ok tt) ∧
        fields s' = <["quality" := VInt 720]> (fields episode) ∧
        heap s' = heap episode.
Proof.
  destruct (Entry.__setitem__ Sample.env "quality" (VInt 720) episode)
    as [s' r] eqn:H.
  destruct (setitem_changes_one_key Sample.env "quality" (VInt 720) episode s' r
              ltac:(done) H) as (Hh & _ & _ & Hr).
  assert (r = Ok tt) as -> by (vm_compute in H; by injection H as _ <-).
  destruct Hr as (v' & Hf & _ & _ & Hv). rewrite (Hv ltac:(done) eq_refl) in Hf.
  by exists s'.
Defined.

(** ** Reads *)

Lemma get_unevaluated (env : Env) (key : string) (default : val)
    (s : State) :
  Entry.get env key default false None s =
    (s, Ok match fields s !! key with
           | Some v => match as_lazy (heap s) v with
                       | Some _ => default
                       | None => v
                       end
           | None => default
           end).
Proof.
  unfold Entry.get, bind, ret, Entry.is_lazy, gets, Entry.lazy_at.
  destruct (fields s !! key) as [v|] eqn:Hv.
  - destruct (as_lazy (heap s) v) as [l|] eqn:Hl.
    + by rewrite bool_decide_eq_true_2 by eauto.
    + rewrite bool_decide_eq_false_2 by (by intros [? ?]).
      unfold try_except. by rewrite (getitem_concrete env key v).
  - rewrite bool_decide_eq_false_2 by (by intros [? ?]).
    unfold try_except. by rewrite getitem_missing.
Qed.

(** X3. [get] with [eval_lazy=False] calls no resolver and changes
    nothing: it returns the stored value, and the default for a key that
    is missing or that holds a [LazyField]. *)
Theorem get_without_evaluation (env : Env) (key : string) (default : val)
    (s : State) :
  Entry.get env key default false None s =
    (s, Ok match fields s !! key with
           | Some v => match as_lazy (heap s) v with
                       | Some _ => default
                       | None => v
                       end
           | None => default
           end).
Proof. apply get_unevaluated. Qed.

(** X4. [get] never lets a [KeyError] out, whatever its arguments. *)
Theorem get_never_raises_KeyError (env : Env) (key : string) (default : val)
    (eval_lazy : bool) (lazy : option bool) (s s' : State) (e : exc) :
  Entry.get env key default eval_lazy lazy s = (s', Raise e) →
  is_KeyError e = false.
Proof.
  unfold Entry.get, bind, ret, modify, Entry.is_lazy, gets, try_except.
  destruct lazy as [l|]; simpl.
  - destruct l; simpl.
    + destruct (Entry.__getitem__ env key _) as [s1 [v|e1]]; [done|].
      destruct (is_KeyError e1) eqn:He; [done|]. by intros [= _ <-].
    + case_bool_decide; [done|].
      destruct (Entry.__getitem__ env key _) as [s1 [v|e1]]; [done|].
      destruct (is_KeyError e1) eqn:He; [done|]. by intros [= _ <-].
  - destruct eval_lazy; simpl.
    + destruct (Entry.__getitem__ env key _) as [s1 [v|e1]]; [done|].
      destruct (is_KeyError e1) eqn:He; [done|]. by intros [= _ <-].
    + case_bool_decide; [done|].
      destruct (Entry.__getitem__ env key _) as [s1 [v|e1]]; [done|].
      destruct (is_KeyError e1) eqn:He; [done|]. by intros [= _ <-].
Qed.

(** An entry with a lazy field whose resolver fails. *)
Definition lazy_failing : State :=
  mkState {[ "imdb_score" := VRef 0 ]} [] ∅ [OLazy "imdb_score" [2]] [].

Lemma get_never_raises_KeyError_witness :
  ∃ s' e, Entry.get Sample.env_chain "imdb_score" VNone true None lazy_failing
            = (s', Raise e) ∧ is_KeyError e = false.
Proof.
  destruct (Entry.get Sample.env_chain "imdb_score" VNone true None lazy_failing)
    as [s' [v|e]] eqn:H.
  - vm_compute in H. discriminate H.
  - exists s', e. split; [reflexivity|].
    exact (get_never_raises_KeyError _ _ _ _ _ _ _ _ H).
Defined.

(** X5. The [except KeyError] of [get] also covers the resolvers: when the
    read of the key raises [KeyError], be it for the key itself or from
    inside a resolver for another key, [get] returns the default in the
    state that the read left. *)
Theorem get_default_on_KeyError (env : Env) (key k' : string) (default : val)
    (s s' : State) :
  Entry.__getitem__ env key s = (s', Raise (KeyError k')) →
  Entry.get env key default true None s = (s', Ok default).
Proof.
  intros H. unfold Entry.get, bind, ret, try_except. by rewrite H.
Qed.

Lemma get_default_on_KeyError_witness :
  ∃ s', Entry.get (Sample.env_with (λ _ _, raise (KeyError "series_name")))
          "imdb_score" (VInt 0) true None lazy_failing = (s', Ok (VInt 0)).
Proof.
  eexists.
  apply (get_default_on_KeyError _ "imdb_score" "series_name").
  vm_compute. reflexivity.
Defined.

(** X6. [setdefault] takes a key that holds [None] for a missing one: on
    a key behind which no resolver stands, it returns the stored value
    without any write, and without a look at the value given, when that
    stored value is not [None]; it writes the value given and reads the key
    again when the key is missing or holds [None]. *)
Theorem setdefault_treats_None_as_missing (env : Env) (key : string) (v : val)
    (s : State) :
  Entry.lazy_at s key = None →
  Entry.setdefault env key v s =
    match fields s !! key with
    | Some VNone | None =>
        (Entry.__setitem__ env key v;; Entry.__getitem__ env key) s
    | Some w => (s, Ok w)
    end.
Proof.
  intros Hl. unfold Entry.setdefault, Entry.setdefault_with.
  unfold bind at 1. unfold Entry.__contains__, bind at 1. rewrite get_default.
  unfold Entry.lazy_at in Hl.
  destruct (fields s !! key) as [w|] eqn:Hw.
  - rewrite (getitem_concrete env key w) by done. unfold ret at 1.
    destruct (decide (w = VNone)) as [->|Hn].
    + by rewrite bool_decide_eq_true_2.
    + rewrite bool_decide_eq_false_2 by done. simpl.
      unfold bind, ret. rewrite (getitem_concrete env key w) by done.
      by destruct w.
  - rewrite getitem_missing by done. by unfold ret.
Qed.

Lemma setdefault_treats_None_as_missing_witness :
  Entry.setdefault Sample.env "title" (VStr (String (Ascii.ascii_of_nat 233) "t"))
    episode = (episode, Ok (VUnicode true "Show S01E01")).
Proof.
  rewrite (setdefault_treats_None_as_missing Sample.env "title" _ episode);
    vm_compute; reflexivity.
Defined.

(** X7. The constructor with three positional arguments or more: [update]
    refuses them with [TypeError] before any key is written, the keyword
    arguments included; [trace] and [snapshots] have been created. *)
Theorem init_rejects_three_arguments (env : Env) (a b c : val) (rest : list val)
    (kwargs : gmap string val) (s : State) :
  Entry.__init__ env (a :: b :: c :: rest) kwargs s
    = (set_snapshots (λ _, ∅) (set_trace [] s), Raise TypeError).
Proof. done. Qed.

Lemma contains_unlazy (env : Env) (key : string) (s : State) :
  Entry.lazy_at s key = None →
  Entry.__contains__ env key s =
    (s, Ok match fields s !! key with
           | Some v => negb (bool_decide (v = VNone))
           | None => false
           end).
Proof.
  intros Hl. unfold Entry.__contains__, bind. rewrite get_default.
  unfold Entry.lazy_at in Hl.
  destruct (fields s !! key) as [w|] eqn:Hw.
  - by rewrite (getitem_concrete env key w).
  - by rewrite getitem_missing.
Qed.

Lemma isvalid_unlazy (env : Env) (s : State) :
  Entry.lazy_at s "title" = None → Entry.lazy_at s "url" = None →
  Entry.isvalid env s =
    (s, Ok match fields s !! "title", fields s !! "url" with
           | Some t, Some u => is_basestring t && is_basestring u
           | _, _ => false
           end).
Proof.
  intros Ht Hu. unfold Entry.isvalid.
  unfold bind at 1. rewrite (contains_unlazy env "title" s Ht).
  unfold Entry.lazy_at in *.
  destruct (fields s !! "title") as [t|] eqn:Et; [|done].
  destruct (decide (t = VNone)) as [->|Hn].
  { rewrite bool_decide_eq_true_2 by done. simpl. unfold ret.
    by destruct (fields s !! "url"). }
  rewrite bool_decide_eq_false_2 by done. simpl.
  unfold bind at 1. rewrite (contains_unlazy env "url" s);
    [|by unfold Entry.lazy_at].
  destruct (fields s !! "url") as [u|] eqn:Eu; [|done].
  destruct (decide (u = VNone)) as [->|Hn'].
  { rewrite bool_decide_eq_true_2 by done. simpl. unfold ret.
    by rewrite andb_false_r. }
  rewrite bool_decide_eq_false_2 by done. simpl.
  unfold bind at 1. rewrite (getitem_concrete env "url" u) by done.
  destruct (is_basestring u); simpl; [|by rewrite andb_false_r].
  unfold bind at 1. rewrite (getitem_concrete env "title" t) by done.
  destruct (is_basestring t); done.
Qed.

(** X8. [isvalid] on an entry whose [title] and [url] have no resolver
    behind them changes nothing, and answers [True] exactly when both keys
    are there and hold strings. *)
Theorem isvalid_concrete (env : Env) (s : State) :
  Entry.lazy_at s "title" = None → Entry.lazy_at s "url" = None →
  Entry.isvalid env s =
    (s, Ok match fields s !! "title", fields s !! "url" with
           | Some t, Some u => is_basestring t && is_basestring u
           | _, _ => false
           end).
Proof. apply isvalid_unlazy. Qed.

Lemma isvalid_concrete_witness : Entry.isvalid Sample.env episode = (episode, Ok true).
Proof. by rewrite (isvalid_concrete Sample.env episode). Defined.

(** ** Registering resolvers *)

(** A key that [register_lazy_fields] takes for not populated: it is
    missing, or it holds a value that is false and is not a [LazyField]. *)
Definition unpopulated (s : State) (key : string) : Prop :=
  match fields s !! key with
  | Some v => as_lazy (heap s) v = None ∧ truthy (heap s) v = false
  | None => True
  end.

Section Register.
Variable env : Env.

Lemma setitem_ref_eq key a s :
  key ≠ "url" → key ≠ "title" →
  Entry.__setitem__ env key (VRef a) s
    = (set_fields <[key := VRef a]> (logged env key (VRef a) s), Ok tt).
Proof.
  intros H1 H2. rewrite setitem_unfold. unfold Entry.setitem_body, bind.
  change (Entry.enforce_unicode env key (VRef a) s) with (s, Ok (VRef a)).
  lazy iota beta.
  rewrite url_handling_other by done.
  unfold Entry.title_handling. rewrite decide_False by done. unfold ret at 1.
  unfold Entry.imdb_handling. case_decide; unfold ret at 1; by rewrite log_set_eq.
Qed.

Lemma unpopulated_get key s :
  unpopulated s key →
  Entry.lazy_at s key = None ∧
  ∃ v, Entry.get env key VNone false None s = (s, Ok v) ∧ truthy (heap s) v = false.
Proof.
  unfold unpopulated, Entry.lazy_at. rewrite get_unevaluated.
  destruct (fields s !! key) as [v|].
  - intros [Hl Ht]. split; [done|]. rewrite Hl. eauto.
  - intros _. split; [done|]. by exists VNone.
Qed.
End Register.

Lemma register_step_unpopulated (env : Env) (key : string) (f : func)
    (rest : list string) (s : State) :
  key ≠ "url" → key ≠ "title" → unpopulated s key →
  let a := length (heap s) in
  let s1 := set_fields <[key := VRef a]>
              (logged env key (VRef a) (set_heap (λ h, h ++ [OLazy key [f]]) s)) in
  Entry.register_lazy_fields env (key :: rest) f s
    = Entry.register_lazy_fields env rest f s1 ∧
  Entry.lazy_at s1 key = Some (a, key, [f]) ∧
  ∀ k, k ≠ key → fields s1 !! k = fields s !! k.
Proof.
  intros Hu Ht Hun a s1.
  destruct (unpopulated_get env key s Hun) as (Hl & v & Hget & Hfalse).
  split; [|split].
  - simpl. unfold bind at 1. unfold gets at 1. rewrite Hl.
    unfold bind at 1. unfold bind at 1. rewrite Hget.
    unfold bind at 1. unfold gets at 1. rewrite Hfalse.
    unfold bind at 1. unfold Entry.alloc. by rewrite setitem_ref_eq.
  - unfold Entry.lazy_at, s1. simpl. rewrite lookup_insert_eq. simpl.
    rewrite lookup_app_r by done. by rewrite Nat.sub_diag.
  - intros k Hk. unfold s1. simpl. by rewrite lookup_insert_ne.
Qed.

(** X9. Registering a resolver on a key that is not populated (and is not
    [url] or [title]) makes a [LazyField] with that resolver alone, stores
    it under the key through [__setitem__], and goes on with the other
    keys; a value that was stored and is false, such as [0], an empty
    string or [None], is replaced. *)
Theorem register_on_unpopulated (env : Env) (key : string) (f : func)
    (rest : list string) (s : State) :
  key ≠ "url" → key ≠ "title" → unpopulated s key →
  let a := length (heap s) in
  let s1 := set_fields <[key := VRef a]>
              (logged env key (VRef a) (set_heap (λ h, h ++ [OLazy key [f]]) s)) in
  Entry.register_lazy_fields env (key :: rest) f s
    = Entry.register_lazy_fields env rest f s1 ∧
  Entry.lazy_at s1 key = Some (a, key, [f]) ∧
  ∀ k, k ≠ key → fields s1 !! k = fields s !! k.
Proof. apply register_step_unpopulated. Qed.

Lemma register_on_unpopulated_witness :
  ∃ s1, Entry.register_lazy_fields Sample.env ["imdb_score"] 4
          (set_fields <["imdb_score" := VInt 0]> episode) = (s1, Ok tt) ∧
        Entry.lazy_at s1 "imdb_score" = Some (0, "imdb_score", [4]).
Proof.
  destruct (register_on_unpopulated Sample.env "imdb_score" 4 []
              (set_fields <["imdb_score" := VInt 0]> episode))
    as (Hrun & Hlazy & _); [done|done|by vm_compute|].
  eexists. split; [exact Hrun|exact Hlazy].
Defined.

(** X10. Registering a resolver on keys that all hold a value that is
    true and is not a [LazyField] does nothing at all. *)
Theorem register_skips_populated (env : Env) (fields_ : list string) (f : func)
    (s : State) :
  (∀ k, k ∈ fields_ →
        ∃ v, fields s !! k = Some v ∧ as_lazy (heap s) v = None ∧
             truthy (heap s) v = true) →
  Entry.register_lazy_fields env fields_ f s = (s, Ok tt).
Proof.
  induction fields_ as [|k rest IH]; intros H; [done|].
  destruct (H k) as (v & Hv & Hl & Ht); [by left|].
  simpl. unfold bind at 1. unfold gets at 1. unfold Entry.lazy_at at 1.
  rewrite Hv, Hl. unfold bind at 1. unfold bind at 1.
  rewrite get_unevaluated, Hv, Hl.
  unfold bind at 1. unfold gets at 1. rewrite Ht. unfold ret at 1.
  apply IH. intros k' Hk'. apply H. by right.
Qed.

Lemma register_skips_populated_witness :
  Entry.register_lazy_fields Sample.env ["title"; "url"] 4 episode = (episode, Ok tt).
Proof.
  apply register_skips_populated. intros k Hk.
  apply elem_of_cons in Hk as [->|Hk]; [by eexists|].
  apply elem_of_cons in Hk as [->|Hk]; [by eexists|].
  by apply elem_of_nil in Hk.
Defined.

(** X11. No resolver can be registered for [title] or [url]: on an entry
    where that key is not populated, [__setitem__] refuses the
    [LazyField], the call raises, the dict is as it was, and the keys that
    come after it in the list are not looked at. *)
Theorem register_refuses_title_and_url (env : Env) (key : string) (f : func)
    (rest : list string) (s : State) :
  key = "title" ∨ key = "url" →
  unpopulated s key → (∀ a, fields s !! "title" ≠ Some (VRef a)) →
  ∃ e, Entry.register_lazy_fields env (key :: rest) f s
         = (set_heap (λ h, h ++ [OLazy key [f]]) s, Raise e).
Proof.
  intros Hkey Hun Htitle.
  destruct (unpopulated_get env key s Hun) as (Hl & v & Hget & Hfalse).
  simpl. unfold bind at 1. unfold gets at 1. rewrite Hl.
  unfold bind at 1. unfold bind at 1. rewrite Hget.
  unfold bind at 1. unfold gets at 1. rewrite Hfalse.
  unfold bind at 1. unfold Entry.alloc.
  set (s1 := set_heap (λ h, h ++ [OLazy key [f]]) s).
  rewrite setitem_unfold. unfold Entry.setitem_body, bind.
  change (Entry.enforce_unicode env key (VRef (length (heap s))) s1)
    with (s1, Ok (VRef (length (heap s)))).
  lazy iota beta.
  destruct Hkey as [-> | ->].
  - rewrite url_handling_other by done.
    unfold Entry.title_handling. rewrite decide_True by done. simpl.
    unfold bind, gets, raise.
    destruct (repr_raises env (heap s1) (VRef (length (heap s)))); eauto.
  - unfold Entry.url_handling. rewrite decide_True by done. simpl.
    unfold bind at 1.
    destruct (get_title_quiet env s1) as [w ->].
    { unfold Entry.lazy_at. simpl.
      destruct (fields s !! "title") as [[| | | | |a]|] eqn:Et; try done.
      by destruct (Htitle a). }
    unfold bind, gets, raise.
    destruct (repr_raises env (heap s1) w),
             (repr_raises env (heap s1) (VRef (length (heap s)))); eauto.
Qed.

Lemma register_refuses_title_and_url_witness :
  ∃ s' e, Entry.register_lazy_fields Sample.env ["url"; "imdb_score"] 4
            Sample.blank = (s', Raise e) ∧ fields s' = ∅.
Proof.
  destruct (register_refuses_title_and_url Sample.env "url" 4 ["imdb_score"]
              Sample.blank) as [e He]; [by right|done|done|].
  by eexists _, e.
Defined.

(** X12. Registering a resolver on a missing key and unregistering it
    again does not give the entry back: one resolver is counted as
    removed, and the key is left in the dict, holding [None]. *)
Theorem register_then_unregister (env : Env) (key : string) (f : func)
    (s : State) :
  key ≠ "url" → key ≠ "title" → fields s !! key = None →
  ∃ s1 s2,
    Entry.register_lazy_fields env [key] f s = (s1, Ok tt) ∧
    Entry.unregister_lazy_fields env [key] f s1 = (s2, Ok 1) ∧
    fields s2 = <[key := VNone]> (fields s) ∧
    Entry.lazy_at s2 key = None.
Proof.
  intros Hu Ht Hk.
  destruct (register_step_unpopulated env key f [] s Hu Ht) as (Hreg & Hlazy & _).
  { unfold unpopulated. by rewrite Hk. }
  destruct (unregister_step_lazy env key [] f 0 _ _ _ _ Hlazy Hu Ht)
    as (s2 & Hun & Hh & Hf).
  simpl in Hreg. eexists _, s2. split; [exact Hreg|].
  unfold Entry.unregister_lazy_fields. rewrite Hun. simpl.
  rewrite bool_decide_eq_true_2 by (by left). unfold ret.
  simpl in Hf. rewrite decide_True in Hf by (by rewrite decide_True).
  split; [done|]. split.
  - rewrite Hf. simpl. by rewrite insert_insert_eq.
  - unfold Entry.lazy_at. rewrite Hf. by rewrite lookup_insert_eq.
Qed.

Lemma register_then_unregister_witness :
  ∃ s1 s2,
    Entry.register_lazy_fields Sample.env ["imdb_score"] 4 episode = (s1, Ok tt) ∧
    Entry.unregister_lazy_fields Sample.env ["imdb_score"] 4 s1 = (s2, Ok 1) ∧
    fields s2 !! "imdb_score" = Some VNone.
Proof.
  destruct (register_then_unregister Sample.env "imdb_score" 4 episode)
    as (s1 & s2 & H1 & H2 & Hf & _); [done|done|done|].
  exists s1, s2. split; [done|]. split; [done|].
  rewrite Hf. by rewrite lookup_insert_eq.
Defined.

(** ** What an entry holds *)

(** The dict holds no string of another type than [unicode], and [title]
    and [url], when they are there, hold [unicode] strings. *)
Definition normalised (s : State) : Prop :=
  (∀ k v, fields s !! k = Some v → is_basestring v = true →
          type_is_unicode v = true) ∧
  (∀ v, fields s !! "title" = Some v → type_is_unicode v = true) ∧
  (∀ v, fields s !! "url" = Some v → type_is_unicode v = true).

(** A method keeps the dict that way, whether it returns or raises. *)
Definition preserves {A} (m : M A) : Prop :=
  ∀ s s' r, m s = (s', r) → normalised s → normalised s'.

(** The methods of [Entry], as calls. *)
Inductive method :=
| Init (args : list val) (kwargs : gmap string val)
| SetItem (key : string) (value : val)
| Update (args : list val) (kwargs : gmap string val)
| SetDefault (key : string) (value : val)
| GetItem (key : string)
| Get (key : string) (default : val) (eval_lazy : bool) (lazy : option bool)
| Contains (key : string)
| RegisterLazyFields (fields_ : list string) (func : func)
| UnregisterLazyFields (fields_ : list string) (func : func)
| IsLazy (field : string)
| SafeStr
| IsValid
| TakeSnapshot (name : string).

(** The state a call leaves, be it by returning or by raising. *)
Definition perform (env : Env) (m : method) (s : State) : State :=
  match m with
  | Init args kwargs => (Entry.__init__ env args kwargs s).1
  | SetItem key value => (Entry.__setitem__ env key value s).1
  | Update args kwargs => (Entry.update env args kwargs s).1
  | SetDefault key value => (Entry.setdefault env key value s).1
  | GetItem key => (Entry.__getitem__ env key s).1
  | Get key default eval_lazy lazy => (Entry.get env key default eval_lazy lazy s).1
  | Contains key => (Entry.__contains__ env key s).1
  | RegisterLazyFields fields_ func => (Entry.register_lazy_fields env fields_ func s).1
  | UnregisterLazyFields fields_ func =>
      (Entry.unregister_lazy_fields env fields_ func s).1
  | IsLazy field => (Entry.is_lazy field s).1
  | SafeStr => (Entry.safe_str env s).1
  | IsValid => (Entry.isvalid env s).1
  | TakeSnapshot name => (Entry.take_snapshot env name s).1
  end.

Section Preserves.
Implicit Types (s : State).

Lemma normalised_fields s s' : fields s' = fields s → normalised s → normalised s'.
Proof. unfold normalised. by intros ->. Qed.

Lemma normalised_insert s key v :
  (is_basestring v = true → type_is_unicode v = true) →
  (key = "title" ∨ key = "url" → type_is_unicode v = true) →
  normalised s → normalised (set_fields <[key := v]> s).
Proof.
  intros Hv Hk (H1 & H2 & H3). split; [|split]; simpl.
  - intros k w. rewrite lookup_insert. case_decide; [by intros [= <-]|]. apply H1.
  - intros w. rewrite lookup_insert. case_decide; [intros [= <-]; auto|]. apply H2.
  - intros w. rewrite lookup_insert. case_decide; [intros [= <-]; auto|]. apply H3.
Qed.

Lemma preserves_ret {A} (a : A) : preserves (ret a).
Proof. by intros s s' r [= <- _]. Qed.

Lemma preserves_raise {A} e : preserves (raise e : M A).
Proof. by intros s s' r [= <- _]. Qed.

Lemma preserves_gets {A} (f : State → A) : preserves (gets f).
Proof. by intros s s' r [= <- _]. Qed.

Lemma preserves_pure {A} (f : State → result A) : preserves (λ s, (s, f s)).
Proof. by intros s s' r [= <- _]. Qed.

Lemma preserves_modify (f : State → State) :
  (∀ s, fields (f s) = fields s) → preserves (modify f).
Proof. intros Hf s s' r [= <- _]. by apply normalised_fields. Qed.

Lemma preserves_bind {A B} (m : M A) (k : A → M B) :
  preserves m → (∀ a, preserves (k a)) → preserves (bind m k).
Proof.
  intros Hm Hk s s' r. unfold bind.
  destruct (m s) as [s1 [a|e]] eqn:H1.
  - intros H2 Hn. eapply Hk; [done|]. by eapply Hm.
  - intros [= <- _] Hn. by eapply Hm.
Qed.

Lemma preserves_try {A} (m : M A) c (h : exc → M A) :
  preserves m → (∀ e, preserves (h e)) → preserves (try_except m c h).
Proof.
  intros Hm Hh s s' r. unfold try_except.
  destruct (m s) as [s1 [a|e]] eqn:H1.
  - intros [= <- _] Hn. by eapply Hm.
  - destruct (c e).
    + intros H2 Hn. eapply Hh; [done|]. by eapply Hm.
    + intros [= <- _] Hn. by eapply Hm.
Qed.
End Preserves.

Create HintDb keep discriminated.
#[local] Hint Resolve preserves_ret preserves_raise preserves_gets preserves_pure : keep.

Section PreservesEntry.
Variable env : Env.
Hypothesis Hcall : ∀ f field, preserves (call env f field).

Lemma preserves_call field funcs : preserves (LazyField.__call__ env field funcs).
Proof.
  induction funcs as [|f rest IH]; simpl; [auto with keep|].
  apply preserves_bind; [apply Hcall|]. intros v. case_decide; auto with keep.
Qed.

Lemma preserves_getitem key : preserves (Entry.__getitem__ env key).
Proof.
  unfold Entry.__getitem__.
  apply preserves_bind; [auto with keep|]. intros [v|]; [|auto with keep].
  apply preserves_bind; [auto with keep|]. intros [[[a fld] funcs]|];
    [|auto with keep].
  apply preserves_bind; [by apply preserves_modify|]. intros _.
  apply preserves_call.
Qed.

Lemma preserves_is_lazy key : preserves (Entry.is_lazy key).
Proof. apply preserves_gets. Qed.

Lemma preserves_get key default eval_lazy lazy :
  preserves (Entry.get env key default eval_lazy lazy).
Proof.
  unfold Entry.get.
  apply preserves_bind.
  { destruct lazy; [|auto with keep].
    apply preserves_bind; [by apply preserves_modify|auto with keep]. }
  intros e. apply preserves_bind.
  { destruct e; [auto with keep|apply preserves_is_lazy]. }
  intros [|]; [auto with keep|].
  apply preserves_try; [apply preserves_getitem|auto with keep].
Qed.

Lemma preserves_contains key : preserves (Entry.__contains__ env key).
Proof.
  unfold Entry.__contains__.
  apply preserves_bind; [apply preserves_get|auto with keep].
Qed.

Lemma preserves_setdefault_with f key v :
  (∀ k w, preserves (f k w)) → preserves (Entry.setdefault_with env f key v).
Proof.
  intros Hf. unfold Entry.setdefault_with.
  apply preserves_bind; [apply preserves_contains|]. intros present.
  apply preserves_bind; [|intros _; apply preserves_getitem].
  destruct present; [auto with keep|apply Hf].
Qed.

Lemma preserves_url_handling f key v :
  (∀ k w, preserves (f k w)) → preserves (Entry.url_handling env f key v).
Proof.
  intros Hf. unfold Entry.url_handling.
  case_decide; [|auto with keep]. destruct (is_basestring v).
  - apply preserves_bind; [by apply preserves_setdefault_with|auto with keep].
  - apply preserves_bind; [apply preserves_get|]. intros t.
    apply preserves_bind; [auto with keep|]. intros h.
    repeat case_match; auto with keep.
Qed.

Lemma url_handling_checks f v s s' :
  Entry.url_handling env f "url" v s = (s', Ok tt) → is_basestring v = true.
Proof.
  unfold Entry.url_handling. rewrite decide_True by done.
  destruct (is_basestring v); [done|]. unfold bind, gets, raise.
  destruct (Entry.get env "title" VNone true None s) as [s1 [w|e]]; [|done].
  by repeat case_match.
Qed.

Lemma title_handling_checks v s s' :
  Entry.title_handling env "title" v s = (s', Ok tt) → is_basestring v = true.
Proof.
  unfold Entry.title_handling. rewrite decide_True by done.
  destruct (is_basestring v); [done|]. unfold bind, gets, raise.
  by repeat case_match.
Qed.

Lemma imdb_handling_value key v s s' v' :
  Entry.imdb_handling env key v s = (s', Ok v') →
  (key ≠ "imdb_url" ∧ v' = v) ∨
  (key = "imdb_url" ∧ (v' = v ∧ is_basestring v = false ∨ v' = VNone ∨
                        ∃ t, v' = VUnicode true t)).
Proof.
  unfold Entry.imdb_handling. case_decide as Hk.
  - unfold bind, modify, ret. intros H. right. split; [done|].
    destruct v; repeat case_match; injection H as _ <-; eauto.
  - unfold ret. intros [= _ <-]. by left.
Qed.

Lemma preserves_setitem_body f key v :
  (∀ k w, preserves (f k w)) → preserves (Entry.setitem_body env f key v).
Proof.
  intros Hf s s' r. unfold Entry.setitem_body, bind.
  destruct (Entry.enforce_unicode env key v s) as [s0 [v1|e]] eqn:H1;
    pose proof (enforce_unicode_state env _ _ _ _ _ H1) as ->;
    [|by intros [= <- _]].
  assert (is_basestring v1 = true → type_is_unicode v1 = true) as Hv1.
  { intros Hb1. rewrite (enforce_unicode_basestring env _ _ _ _ H1) in Hb1.
    by destruct (enforce_unicode_string env _ _ _ _ Hb1 H1) as [t ->]. }
  destruct (Entry.url_handling env f key v1 s) as [s1 [[]|e]] eqn:H2.
  2:{ intros [= <- _] Hn. by eapply (preserves_url_handling f key v1). }
  destruct (Entry.title_handling env key v1 s1) as [s0 [[]|e]] eqn:H3;
    pose proof (title_handling_state env _ _ _ _ _ H3) as ->.
  2:{ intros [= <- _] Hn. by eapply (preserves_url_handling f key v1). }
  destruct (Entry.imdb_handling env key v1 s1) as [s2 r2] eqn:H4.
  destruct (imdb_handling_same env _ _ _ _ _ H4) as [(Hf2&_) [v2 ->]].
  destruct (log_set_same env key v2 s2) as (s3 & -> & (Hf3&_)).
  unfold modify. intros [= <- _] Hn.
  assert (normalised s3) as Hn3.
  { apply (normalised_fields s1); [congruence|].
    by eapply (preserves_url_handling f key v1). }
  destruct (imdb_handling_value _ _ _ _ _ H4) as [[Hk ->]|[-> Hv2]].
  - apply normalised_insert; [done| |done].
    intros [-> | ->]; apply Hv1.
    + by eapply title_handling_checks.
    + by eapply url_handling_checks.
  - apply normalised_insert; [|by intros [|]|done].
    destruct Hv2 as [[-> Hb]|[->|[t ->]]]; [congruence|done|done].
Qed.

Lemma preserves_setitem_n n key v : preserves (Entry.setitem_n env n key v).
Proof.
  revert key v. induction n as [|n IH]; intros key v; simpl.
  - apply preserves_raise.
  - by apply preserves_setitem_body.
Qed.

Lemma preserves_setitem key v : preserves (Entry.__setitem__ env key v).
Proof. apply preserves_setitem_n. Qed.

Lemma preserves_setdefault key v : preserves (Entry.setdefault env key v).
Proof. apply preserves_setdefault_with, preserves_setitem. Qed.

Lemma preserves_set_each items : preserves (Entry.set_each env items).
Proof.
  induction items as [|[k v] rest IH]; simpl; [auto with keep|].
  apply preserves_bind; [apply preserves_setitem|done].
Qed.

Lemma preserves_update args kwargs : preserves (Entry.update env args kwargs).
Proof.
  unfold Entry.update. apply preserves_bind; [|intros _; apply preserves_set_each].
  destruct args as [|a [|b rest]]; auto with keep.
  apply preserves_bind; [apply preserves_pure|]. intros d. apply preserves_set_each.
Qed.

Lemma preserves_init args kwargs : preserves (Entry.__init__ env args kwargs).
Proof.
  unfold Entry.__init__.
  apply preserves_bind; [by apply preserves_modify|intros _].
  apply preserves_bind; [by apply preserves_modify|intros _].
  repeat case_match; apply preserves_update.
Qed.

Lemma preserves_register fields_ func :
  preserves (Entry.register_lazy_fields env fields_ func).
Proof.
  induction fields_ as [|k rest IH]; simpl; [auto with keep|].
  apply preserves_bind; [auto with keep|]. intros lz.
  apply preserves_bind; [|done]. destruct lz as [[[a fld] funcs]|].
  - by apply preserves_modify.
  - apply preserves_bind; [apply preserves_get|]. intros v.
    apply preserves_bind; [auto with keep|]. intros h.
    case_match; [auto with keep|].
    apply preserves_bind; [|intros a; apply preserves_setitem].
    intros s s' r [= <- _]. by apply normalised_fields.
Qed.

Lemma preserves_unregister_loop fields_ func n :
  preserves (Entry.unregister_loop env fields_ func n).
Proof.
  revert n. induction fields_ as [|k rest IH]; intros n; simpl; [auto with keep|].
  apply preserves_bind; [auto with keep|]. intros [[[a fld] funcs]|]; [|done].
  apply preserves_bind.
  { destruct (bool_decide (func ∈ funcs));
      [by apply preserves_modify|auto with keep]. }
  intros _. apply preserves_bind; [|done].
  case_match; [apply preserves_setitem|auto with keep].
Qed.

Lemma preserves_safe_str : preserves (Entry.safe_str env).
Proof.
  unfold Entry.safe_str.
  apply preserves_bind; [apply preserves_getitem|]. intros t.
  apply preserves_bind; [apply preserves_getitem|]. intros u.
  apply preserves_pure.
Qed.

Lemma preserves_isvalid : preserves (Entry.isvalid env).
Proof.
  unfold Entry.isvalid.
  repeat first
    [ apply preserves_contains | apply preserves_getitem | apply preserves_ret
    | apply preserves_bind; [|intros ?] | case_match ].
Qed.

Lemma preserves_deepcopy x : preserves (deepcopy env x).
Proof. intros s s' r [= <- _]. by apply normalised_fields. Qed.

Lemma preserves_snapshot_items name items acc :
  preserves (Entry.snapshot_items env name items acc).
Proof.
  revert acc. induction items as [|[k v] rest IH]; intros acc; simpl;
    [auto with keep|].
  apply preserves_bind; [|done].
  apply preserves_try.
  - apply preserves_bind; [apply preserves_deepcopy|auto with keep].
  - intros e. apply preserves_bind; [apply preserves_getitem|]. intros t.
    apply preserves_bind; [by apply preserves_modify|auto with keep].
Qed.

Lemma preserves_take_snapshot name : preserves (Entry.take_snapshot env name).
Proof.
  unfold Entry.take_snapshot.
  apply preserves_bind; [auto with keep|]. intros items.
  apply preserves_bind; [apply preserves_snapshot_items|]. intros snap.
  case_decide; [auto with keep|].
  apply preserves_bind; [auto with keep|]. intros known.
  apply preserves_bind; [|intros _; by apply preserves_modify].
  destruct known; [|auto with keep].
  apply preserves_bind; [apply preserves_getitem|]. intros t.
  by apply preserves_modify.
Qed.

Lemma preserves_perform m s : normalised s → normalised (perform env m s).
Proof.
  intros Hn. destruct m; simpl.
  - destruct (Entry.__init__ env args kwargs s) as [s' r] eqn:H.
    by eapply preserves_init.
  - destruct (Entry.__setitem__ env key value s) as [s' r] eqn:H.
    by eapply preserves_setitem.
  - destruct (Entry.update env args kwargs s) as [s' r] eqn:H.
    by eapply preserves_update.
  - destruct (Entry.setdefault env key value s) as [s' r] eqn:H.
    by eapply preserves_setdefault.
  - destruct (Entry.__getitem__ env key s) as [s' r] eqn:H.
    by eapply preserves_getitem.
  - destruct (Entry.get env key default eval_lazy lazy s) as [s' r] eqn:H.
    by eapply preserves_get.
  - destruct (Entry.__contains__ env key s) as [s' r] eqn:H.
    by eapply preserves_contains.
  - destruct (Entry.register_lazy_fields env fields_ func s) as [s' r] eqn:H.
    by eapply preserves_register.
  - destruct (Entry.unregister_lazy_fields env fields_ func s) as [s' r] eqn:H.
    by eapply preserves_unregister_loop.
  - done.
  - destruct (Entry.safe_str env s) as [s' r] eqn:H.
    by eapply preserves_safe_str.
  - destruct (Entry.isvalid env s) as [s' r] eqn:H.
    by eapply preserves_isvalid.
  - destruct (Entry.take_snapshot env name s) as [s' r] eqn:H.
    by eapply preserves_take_snapshot.
Qed.
End PreservesEntry.

(** X13. The promise of the class: whatever methods are called on an
    entry, with whatever arguments, and whether they return or raise, the
    dict never holds a string of another type than [unicode], and [title]
    and [url] hold [unicode] strings when they are there (so that neither
    is ever [None] or a [LazyField]), as long as the resolvers, which
    receive the entry, keep it that way themselves. *)
Theorem entry_stays_normalised (env : Env) (calls : list method) (s : State) :
  (∀ f field, preserves (call env f field)) →
  normalised s →
  normalised (foldl (λ s m, perform env m s) s calls).
Proof.
  intros Hcall. revert s. induction calls as [|m rest IH]; intros s Hn; [done|].
  simpl. apply IH. by apply preserves_perform.
Qed.

Lemma normalised_blank : normalised Sample.blank.
Proof. by repeat split. Qed.

Lemma entry_stays_normalised_witness :
  normalised
    (foldl (λ s m, perform Sample.env m s) Sample.blank
       [Init [VStr "Show S01E01"; VStr "http://example/ep1"] ∅;
        SetItem "url" (VInt 5);
        RegisterLazyFields ["imdb_score"; "title"] 4;
        SetItem "imdb_url" (VStr "http://www.imdb.com/title/tt0133093/?ref");
        TakeSnapshot "s1"]).
Proof.
  apply entry_stays_normalised; [|apply normalised_blank].
  by intros f field s s' r [= <- _].
Defined.

(** X14. On an entry whose dict is as the class promises, [isvalid]
    changes nothing and answers whether both [title] and [url] are
    there. *)
Theorem isvalid_normalised (env : Env) (s : State) :
  normalised s →
  Entry.isvalid env s =
    (s, Ok (bool_decide (is_Some (fields s !! "title") ∧
                         is_Some (fields s !! "url")))).
Proof.
  intros (_ & Ht & Hu).
  rewrite isvalid_unlazy.
  - destruct (fields s !! "title") as [t|] eqn:Et.
    2:{ rewrite bool_decide_eq_false_2; [done|]. by intros [[? ?] _]. }
    destruct (fields s !! "url") as [u|] eqn:Eu.
    2:{ rewrite bool_decide_eq_false_2; [done|]. by intros [_ [? ?]]. }
    specialize (Ht t eq_refl). specialize (Hu u eq_refl).
    rewrite bool_decide_eq_true_2 by eauto.
    by destruct t as [| | | |[]|], u as [| | | |[]|].
  - unfold Entry.lazy_at. destruct (fields s !! "title") as [t|]; [|done].
    specialize (Ht t eq_refl). by destruct t.
  - unfold Entry.lazy_at. destruct (fields s !! "url") as [u|]; [|done].
    specialize (Hu u eq_refl). by destruct u.
Qed.

Lemma isvalid_normalised_witness :
  Entry.isvalid Sample.env episode = (episode, Ok true).
Proof.
  rewrite (isvalid_normalised Sample.env episode); [done|].
  split; [|split].
  - intros k v. unfold episode. simpl.
    destruct (decide (k = "title")) as [->|]; [by simplify_map_eq; intros [= <-]|].
    destruct (decide (k = "url")) as [->|]; simplify_map_eq; [|done].
    by intros [= <-].
  - intros v. by intros [= <-].
  - intros v. by intros [= <-].
Defined.

(** ** A deep copy looks like its original *)

(** The value that stands in the copy for a value of the original, given
    the memo of [deepcopy]; and a value whose object, if it has one, is in
    the memo. *)
Definition rename (memo : gmap nat nat) (v : val) : val :=
  match v with
  | VRef a => match memo !! a with Some y => VRef y | None => v end
  | _ => v
  end.
Definition known (memo : gmap nat nat) (v : val) : Prop :=
  match v with
  | VRef a => is_Some (memo !! a)
  | _ => True
  end.

(** The object at [y] is the finished copy of the object that the
    original heap [h0] has at [a]. *)
Definition copied (h0 h : list object) (memo : gmap nat nat) (a y : nat) : Prop :=
  match h0 !! a with
  | Some (OList items) =>
      h !! y = Some (OList (rename memo <$> items)) ∧ Forall (known memo) items
  | Some o => h !! y = Some o
  | None => False
  end.

(** What one level of [deepcopy] owes to the next, when it returns. *)
Definition faithful (h0 : list object)
    (rec : val → cstate → cstate * result val) : Prop :=
  ∀ x h memo h' memo' v,
    rec x (h, memo) = ((h', memo'), Ok v) →
    fresh_val 0 h0 x →
    keeps (length h0) h0 h → memo_fresh 0 h memo →
    keeps (length h) h h' ∧ memo ⊆ memo' ∧ memo_fresh 0 h' memo' ∧
    v = rename memo' x ∧ known memo' x ∧
    ∀ a y, memo' !! a = Some y → memo !! a = None →
           (length h ≤ y ∨ y < length h0) ∧ copied h0 h' memo' a y.

Section Faithful.
Variable h0 : list object.
Hypothesis Hwf : closed 0 h0.
Implicit Types (h : list object) (memo : gmap nat nat) (v : val).

Lemma known_mono memo memo' v : memo ⊆ memo' → known memo v → known memo' v.
Proof.
  intros Hsub. destruct v as [| | | | |a]; try done. simpl.
  intros [y Hy]. exists y. by eapply lookup_weaken.
Qed.

Lemma rename_mono memo memo' v :
  memo ⊆ memo' → known memo v → rename memo' v = rename memo v.
Proof.
  intros Hsub. destruct v as [| | | | |a]; try done. simpl.
  intros [y Hy]. by rewrite Hy, (lookup_weaken _ _ _ _ Hy Hsub).
Qed.

Lemma rename_mono_list memo memo' (l : list val) :
  memo ⊆ memo' → Forall (known memo) l → rename memo' <$> l = rename memo <$> l.
Proof.
  intros Hsub Hl. apply Forall_fmap_ext_1.
  eapply Forall_impl; [done|]. intros v. by apply rename_mono.
Qed.

Lemma copied_mono h h' memo memo' a y :
  memo ⊆ memo' → h' !! y = h !! y →
  copied h0 h memo a y → copied h0 h' memo' a y.
Proof.
  intros Hsub Hy. unfold copied.
  destruct (h0 !! a) as [[items| |]|]; rewrite ?Hy; try done.
  intros [Hobj Hk]. split.
  - by rewrite (rename_mono_list memo memo').
  - eapply Forall_impl; [done|]. intros v. by apply known_mono.
Qed.

Lemma copy_items_faithful rec y :
  faithful h0 rec →
  ∀ items seen h memo h' memo' u,
    copy_items rec y items (h, memo) = ((h', memo'), Ok u) →
    Forall (fresh_val 0 h0) items →
    keeps (length h0) h0 h → memo_fresh 0 h memo →
    length h0 ≤ y < length h →
    h !! y = Some (OList (rename memo <$> seen)) → Forall (known memo) seen →
    length h ≤ length h' ∧ (∀ b, b < length h → b ≠ y → h' !! b = h !! b) ∧
    memo ⊆ memo' ∧ memo_fresh 0 h' memo' ∧
    h' !! y = Some (OList (rename memo' <$> (seen ++ items))) ∧
    Forall (known memo') (seen ++ items) ∧
    ∀ a' y', memo' !! a' = Some y' → memo !! a' = None →
             (length h ≤ y' ∨ y' < length h0) ∧ copied h0 h' memo' a' y'.
Proof.
  intros Hrec. induction items as [|x rest IH];
    intros seen h memo h' memo' u; simpl.
  - intros [= <- <- _] _ Hk Hm Hy Hobj Hseen. rewrite app_nil_r.
    do 6 (split; [done|]). intros a' y' Ha' Hn. congruence.
  - destruct (rec x (h, memo)) as [[h1 memo1] [v|e]] eqn:Hx; [|done].
    intros H Hitems Hk Hm Hy Hobj Hseen.
    apply Forall_cons in Hitems as [Hx0 Hrest].
    destruct (Hrec _ _ _ _ _ _ Hx Hx0 Hk Hm)
      as ([L1 K1] & Hsub1 & Hm1 & -> & Hkx & Hnew1).
    assert (h1 !! y = Some (OList (rename memo1 <$> seen))) as Hobj1.
    { rewrite K1 by lia. by rewrite (rename_mono_list memo memo1). }
    destruct (IH (seen ++ [x]) _ _ _ _ _ H Hrest)
      as (L2 & K2 & Hsub2 & Hm2 & Hobj2 & Hseen2 & Hnew2).
    + split; [rewrite length_alter; destruct Hk; lia|].
      intros b Hb. rewrite list_lookup_alter_ne by lia.
      destruct Hk as [_ Hk]. rewrite K1 by lia. by apply Hk.
    + eapply memo_fresh_mono; [|done]. by rewrite length_alter.
    + rewrite length_alter. lia.
    + rewrite list_lookup_alter_eq, Hobj1. simpl.
      by rewrite fmap_app.
    + apply Forall_app. split; [|by apply Forall_singleton].
      eapply Forall_impl; [done|]. intros w. by apply known_mono.
    + rewrite length_alter in L2, K2. rewrite <-(assoc_L (++)) in Hobj2, Hseen2.
      split; [lia|]. split; [|split; [|split; [|split; [|split]]]]; try done.
      * intros b Hb Hby. rewrite K2 by lia.
        rewrite list_lookup_alter_ne by done. apply K1. lia.
      * by etrans.
      * intros a' y' Ha' Hn.
        destruct (memo1 !! a') as [y1|] eqn:Ha1.
        -- assert (y1 = y') as -> by
             (pose proof (lookup_weaken _ _ _ _ Ha1 Hsub2); congruence).
           destruct (Hnew1 a' y' Ha1 Hn) as [Hge Hc]. split; [done|].
           eapply copied_mono; [done| |done].
           rewrite K2; [by rewrite list_lookup_alter_ne by lia|
                        |lia].
           specialize (Hm1 a' y' Ha1). lia.
        -- destruct (Hnew2 a' y' Ha' Ha1) as [Hge Hc].
           rewrite length_alter in Hge. split; [lia|done].
Qed.

Lemma deepcopy_at_faithful kind n : faithful h0 (deepcopy_at kind n).
Proof.
  induction n as [|n IH]; intros x h memo h' memo' v H Hx Hk Hm.
  - destruct x as [| | | | |a]; simpl in H;
      try (injection H as <- <- <-; split; [apply keeps_refl|];
           do 4 (split; [done|]); intros a y Ha Hn; congruence).
    destruct (memo !! a) as [y|] eqn:Ha; [|done]. injection H as <- <- <-.
    split; [apply keeps_refl|]. split; [done|]. split; [done|].
    simpl. rewrite Ha. split; [done|]. split; [by eauto|].
    intros a' y' Ha' Hn. congruence.
  - destruct x as [| | | | |a]; simpl in H;
      try (injection H as <- <- <-; split; [apply keeps_refl|];
           do 4 (split; [done|]); intros a y Ha Hn; congruence).
    destruct (memo !! a) as [y|] eqn:Ha.
    { injection H as <- <- <-.
      split; [apply keeps_refl|]. split; [done|]. split; [done|].
      simpl. rewrite Ha. split; [done|]. split; [by eauto|].
      intros a' y' Ha' Hn. congruence. }
    simpl in Hx.
    assert (h !! a = h0 !! a) as Hsame by (destruct Hk as [_ Hk]; apply Hk; lia).
    assert (length h0 ≤ length h) as Hlen by (by destruct Hk).
    destruct (h !! a) as [[items|tag cp|field funcs]|] eqn:Hobj; [| | |done].
    + destruct (copy_items (deepcopy_at kind n) (length h) items
                  (h ++ [OList []], <[a := length h]> memo))
        as [[h1 memo1] [u|e]] eqn:Hitems; [|done].
      injection H as <- <- <-.
      assert (Forall (fresh_val 0 h0) items) as Hfresh.
      { apply (Hwf a (OList items)); [lia|done]. }
      destruct (copy_items_faithful _ _ IH _ [] _ _ _ _ _ Hitems Hfresh)
        as (L1 & K1 & Hsub1 & Hm1 & Hobj1 & Hseen1 & Hnew1).
      * split; [rewrite length_app; lia|]. intros b Hb.
        rewrite lookup_app_l by lia. destruct Hk as [_ Hk]. by apply Hk.
      * apply memo_fresh_insert; [rewrite length_app; simpl; lia|].
        eapply memo_fresh_mono; [|done]. rewrite length_app. lia.
      * rewrite length_app. simpl. lia.
      * rewrite lookup_app_r by done. by rewrite Nat.sub_diag.
      * done.
      * rewrite length_app in L1, K1. simpl in *.
        assert (memo ⊆ memo1) as Hsub.
        { etrans; [|done]. by apply insert_subseteq. }
        assert (memo1 !! a = Some (length h)) as Ha1.
        { eapply (lookup_weaken (<[a := length h]> memo)); [|done].
          by rewrite lookup_insert_eq. }
        split; [|split; [done|split; [done|split; [|split]]]].
        -- split; [lia|]. intros b Hb. rewrite K1 by lia.
           by rewrite lookup_app_l.
        -- by rewrite Ha1.
        -- by eauto.
        -- intros a' y' Ha' Hn. destruct (decide (a' = a)) as [->|Hne].
           ++ assert (y' = length h) as -> by congruence. split; [by left|].
              unfold copied. by rewrite <-Hsame.
           ++ destruct (Hnew1 a' y' Ha') as [Hge Hc];
                [by rewrite lookup_insert_ne|].
              rewrite length_app in Hge. split; [lia|done].
    + destruct cp; simpl in H; [| |done|done]; injection H as <- <- <-.
      * split; [apply keeps_app|]. split; [by apply insert_subseteq|].
        split.
        { apply memo_fresh_insert; [rewrite length_app; simpl; lia|].
          eapply memo_fresh_mono; [|done]. rewrite length_app. lia. }
        simpl. rewrite lookup_insert_eq. split; [done|]. split; [by eauto|].
        intros a' y'. rewrite lookup_insert. case_decide as Ha'; [|congruence].
        subst a'. intros [= <-] _. split; [by left|].
        unfold copied. rewrite <-Hsame.
        rewrite lookup_app_r by done. by rewrite Nat.sub_diag.
      * split; [apply keeps_refl|]. split; [by apply insert_subseteq|].
        split.
        { apply memo_fresh_insert; [|done]. apply lookup_lt_Some in Hobj. lia. }
        simpl. rewrite lookup_insert_eq. split; [done|]. split; [by eauto|].
        intros a' y'. rewrite lookup_insert. case_decide as Ha'; [|congruence].
        subst a'. intros [= <-] _. split; [right; lia|].
        unfold copied. by rewrite <-Hsame.
    + destruct (kind a); simpl in H; [| |done|done]; injection H as <- <- <-.
      * split; [apply keeps_app|]. split; [by apply insert_subseteq|].
        split.
        { apply memo_fresh_insert; [rewrite length_app; simpl; lia|].
          eapply memo_fresh_mono; [|done]. rewrite length_app. lia. }
        simpl. rewrite lookup_insert_eq. split; [done|]. split; [by eauto|].
        intros a' y'. rewrite lookup_insert. case_decide as Ha'; [|congruence].
        subst a'. intros [= <-] _. split; [by left|].
        unfold copied. rewrite <-Hsame.
        rewrite lookup_app_r by done. by rewrite Nat.sub_diag.
      * split; [apply keeps_refl|]. split; [by apply insert_subseteq|].
        split.
        { apply memo_fresh_insert; [|done]. apply lookup_lt_Some in Hobj. lia. }
        simpl. rewrite lookup_insert_eq. split; [done|]. split; [by eauto|].
        intros a' y'. rewrite lookup_insert. case_decide as Ha'; [|congruence].
        subst a'. intros [= <-] _. split; [right; lia|].
        unfold copied. by rewrite <-Hsame.
Qed.

Lemma view_copied h' memo' :
  (∀ a y, memo' !! a = Some y → copied h0 h' memo' a y) →
  ∀ d x, known memo' x → view d h' (rename memo' x) = view d h0 x.
Proof.
  intros Hall. induction d as [|d IH]; intros x Hx.
  - destruct x as [| | | | |a]; try done. simpl in *. by destruct Hx as [y ->].
  - destruct x as [| | | | |a]; try done. simpl in Hx. destruct Hx as [y Hy].
    specialize (Hall a y Hy). unfold copied in Hall.
    cbn [rename]. rewrite Hy. cbn [view].
    destruct (h0 !! a) as [[items|tag cp|field funcs]|] eqn:Ha; [| | |done].
    + destruct Hall as [-> Hk]. f_equal. rewrite <-list_fmap_compose.
      apply Forall_fmap_ext_1. eapply Forall_impl; [done|].
      intros w Hw. by apply IH.
    + by rewrite Hall.
    + by rewrite Hall.
Qed.
End Faithful.

Section CopyView.
Variable env : Env.

Lemma deepcopy_view x s s' c :
  closed 0 (heap s) → fresh_val 0 (heap s) x →
  deepcopy env x s = (s', Ok c) →
  ∀ d, view d (heap s') c = view d (heap s) x ∧
       view d (heap s') x = view d (heap s) x.
Proof.
  intros Hwf Hx H d.
  destruct (deepcopy_frame env _ _ _ _ H) as (_&_&_&_& [_ Hk]).
  split.
  - revert H. unfold deepcopy.
    destruct (deepcopy_at (lazy_copy env s) (depth_limit env) x (heap s, ∅))
      as [[h' memo'] r] eqn:Hd. simpl. intros [= <- ->]. simpl.
    destruct (deepcopy_at_faithful (heap s) Hwf _ _ _ _ _ _ _ _ Hd Hx)
      as (_ & _ & _ & -> & Hkx & Hnew).
    { apply keeps_refl. }
    { by intros a y; rewrite lookup_empty. }
    apply view_copied; [|done].
    intros a y Ha. by apply Hnew.
  - apply (view_stable 0); [done| |done].
    intros b Hb. apply Hk. lia.
Qed.
End CopyView.

(** X15. When [copy.deepcopy] returns, on a heap without dangling
    references, the copy looks like the original at any depth, lists that
    share members or contain themselves included, and the original looks
    as it did. *)
Theorem deepcopy_looks_the_same (env : Env) (x c : val) (s s' : State) :
  closed 0 (heap s) → fresh_val 0 (heap s) x →
  deepcopy env x s = (s', Ok c) →
  ∀ d, view d (heap s') c = view d (heap s) x ∧
       view d (heap s') x = view d (heap s) x.
Proof. apply deepcopy_view. Qed.

(** A list that holds a number, another list twice and itself. *)
Definition knot : State :=
  mkState ∅ [] ∅ [OList [VInt 1; VRef 1; VRef 1; VRef 0]; OList [VStr "a"]] [].

Lemma closed_knot : closed 0 (heap knot).
Proof.
  intros b o _. destruct b as [|[|b]]; simpl; intros [= <-]; simpl.
  - repeat constructor; simpl; lia.
  - repeat constructor.
Qed.

Lemma deepcopy_looks_the_same_witness :
  ∃ s', deepcopy Sample.env (VRef 0) knot = (s', Ok (VRef 2)) ∧
        view 4 (heap s') (VRef 2) = view 4 (heap knot) (VRef 0).
Proof.
  destruct (deepcopy Sample.env (VRef 0) knot) as [s' r] eqn:H.
  assert (r = Ok (VRef 2)) as -> by (vm_compute in H; by injection H as _ <-).
  exists s'. split; [done|].
  apply (deepcopy_looks_the_same Sample.env (VRef 0) (VRef 2) knot s');
    [apply closed_knot|simpl; lia|done].
Defined.

(** ** What a snapshot holds *)

Section SnapshotContent.
Variable env : Env.
Variable name : string.

Lemma view_kept h h' v d :
  closed 0 h → keeps (length h) h h' → fresh_val 0 h v →
  view d h' v = view d h v.
Proof.
  intros Hc [_ Hk] Hv. apply (view_stable 0); [done| |done].
  intros b Hb. apply Hk. lia.
Qed.

Lemma snapshot_items_views s0 :
  Entry.lazy_at s0 "title" = None →
  (∀ a, fields s0 !! "title" = Some (VRef a) → a < length (heap s0)) →
  closed 0 (heap s0) →
  ∀ items acc s s' snap,
    Entry.snapshot_items env name items acc s = (s', Ok snap) →
    (∀ k v, (k, v) ∈ items →
            fields s0 !! k = Some v ∧ fresh_val 0 (heap s0) v) →
    fields s = fields s0 → keeps (length (heap s0)) (heap s0) (heap s) →
    closed 0 (heap s) →
    (∀ k c, acc !! k = Some c →
            fresh_val 0 (heap s) c ∧
            ∃ v, fields s0 !! k = Some v ∧
                 ∀ d, view d (heap s) c = view d (heap s0) v) →
    keeps (length (heap s)) (heap s) (heap s') ∧ closed 0 (heap s') ∧
    ∀ k c, snap !! k = Some c →
           ∃ v, fields s0 !! k = Some v ∧
                ∀ d, view d (heap s') c = view d (heap s0) v.
Proof.
  intros Hl0 Hv0 Hwf0. induction items as [|[field value] rest IH];
    intros acc s s' snap; simpl.
  - unfold ret. intros [= <- <-] _ Hf Hk Hc Hacc.
    split; [apply keeps_refl|]. split; [done|].
    intros k c Hkc. by destruct (Hacc k c Hkc) as [_ ?].
  - unfold bind at 1. unfold try_except. unfold bind at 1.
    destruct (deepcopy env value s) as [s1 [c|e]] eqn:Hd;
      intros H Hitems Hf Hk Hc Hacc;
      destruct (deepcopy_sound env _ _ _ _ 0 Hd ltac:(lia) Hc (or_introl eq_refl))
        as (Hf1 & _ & _ & _ & Hk1 & Hc1 & _ & Hfresh).
    all: assert (∀ k c, acc !! k = Some c →
                   fresh_val 0 (heap s1) c ∧
                   ∃ v, fields s0 !! k = Some v ∧
                        ∀ d, view d (heap s1) c = view d (heap s0) v) as Hacc1.
    all: try (intros k c0 Hkc; destruct (Hacc k c0 Hkc) as (Hfc & v & Hkv & Hview);
              split; [eapply fresh_val_mono; [|done]; by destruct Hk1|];
              exists v; split; [done|]; intros d; rewrite <-Hview;
              by apply view_kept).
    + unfold ret at 1 in H.
      destruct (Hitems field value) as [Hfv Hval]; [by left|].
      assert (fresh_val 0 (heap s) value) as Hval'.
      { eapply fresh_val_mono; [|done]. by destruct Hk. }
      destruct (IH _ _ _ _ H) as (Hk' & Hc' & Hr).
      * intros k v Hkv. apply Hitems. by right.
      * congruence.
      * by eapply keeps_step.
      * done.
      * intros k c0. rewrite lookup_insert. case_decide as Hkf.
        -- subst k. intros [= <-]. split; [by apply Hfresh|].
           exists value. split; [done|]. intros d.
           destruct (deepcopy_view env _ _ _ _ Hc Hval' Hd d) as [-> _].
           by apply view_kept.
        -- apply Hacc1.
      * split; [by eapply keeps_step|]. by split.
    + assert (Entry.lazy_at s1 "title" = None) as Hl1.
      { rewrite <-Hl0. apply lazy_at_keeps; [congruence| |done].
        by eapply keeps_step. }
      destruct (is_TypeError e); [|done].
      unfold bind at 1 in H.
      destruct (getitem_unlazy env "title" s1 Hl1) as [[title|e'] Hget];
        rewrite Hget in H; [|done].
      unfold bind at 1, modify at 1, ret at 1 in H.
      destruct (IH _ _ _ _ H) as (Hk' & Hc' & Hr).
      * intros k v Hkv. apply Hitems. by right.
      * simpl. congruence.
      * simpl. by eapply keeps_step.
      * done.
      * done.
      * simpl in *. split; [by eapply keeps_step|]. by split.
Qed.

Lemma take_snapshot_views s s1 :
  iter_ok env →
  Entry.lazy_at s "title" = None → valid_refs s → closed 0 (heap s) →
  Entry.take_snapshot env name s = (s1, Ok tt) →
  snapshots s1 = snapshots s ∨
  ∃ snap, snapshots s1 = <[name := snap]> (snapshots s) ∧
          ∀ k c, snap !! k = Some c →
                 ∃ v, fields s !! k = Some v ∧
                      ∀ d, view d (heap s1) c = view d (heap s) v.
Proof.
  intros Hiter Hl Hv Hwf. unfold Entry.take_snapshot.
  unfold bind at 1. unfold gets at 1. unfold bind at 1.
  destruct (Entry.snapshot_items env name (dict_iter env (fields s)) ∅ s)
    as [s' [snap|e]] eqn:Hloop; [|done].
  destruct (snapshot_items_frame env name s Hl (Hv "title") _ _ _ _ _ Hloop)
    as (Hf & Hs & _ & Hk); [done|apply keeps_refl|].
  destruct (snapshot_items_views s Hl (Hv "title") Hwf _ _ _ _ _ Hloop)
    as (_ & _ & Hviews);
    [|done|apply keeps_refl|done|by intros k c; rewrite lookup_empty|].
  { intros k v Hkv. apply (elem_of_dict_iter env _ _ _ Hiter) in Hkv.
    split; [done|]. destruct v as [| | | | |a]; try done. simpl.
    specialize (Hv k a Hkv). lia. }
  destruct (decide (snap = ∅)) as [->|Hne].
  - unfold ret. intros [= <-]. by left.
  - unfold bind at 1. unfold gets at 1.
    assert (Entry.lazy_at s' "title" = None) as Hl'.
    { rewrite <-Hl. apply lazy_at_keeps; [done|done|apply Hv]. }
    destruct (snapshots s' !! name) as [old|].
    + unfold bind at 1. unfold bind at 1.
      destruct (getitem_unlazy env "title" s' Hl') as [[title|e'] ->]; [|done].
      unfold modify. intros [= <-]. simpl.
      right. exists snap. by rewrite Hs.
    + unfold bind at 1. unfold ret at 1. unfold modify. intros [= <-]. simpl.
      right. exists snap. by rewrite Hs.
Qed.
End SnapshotContent.

(** X16. What [take_snapshot] stores under the name is a picture of the
    entry as it is: every key of the snapshot is a key of the entry, and
    its value in the snapshot looks, at any depth, like the value that the
    entry holds for it (the entry holding valid references, with no
    resolver behind [title]). *)
Theorem snapshot_pictures_the_fields (env : Env) (name : string) (s s1 : State)
    (snap : gmap string val) :
  iter_ok env →
  Entry.lazy_at s "title" = None → valid_refs s → closed 0 (heap s) →
  Entry.take_snapshot env name s = (s1, Ok tt) →
  snapshots s1 !! name = Some snap → snapshots s !! name ≠ Some snap →
  ∀ k c, snap !! k = Some c →
         ∃ v, fields s !! k = Some v ∧
              ∀ d, view d (heap s1) c = view d (heap s) v.
Proof.
  intros Hiter Hl Hv Hwf Htake Hsnap Hnew.
  destruct (take_snapshot_views env name s s1 Hiter Hl Hv Hwf Htake)
    as [Hsame|(snap' & Hs & Hviews)]; [congruence|].
  rewrite Hs, lookup_insert_eq in Hsnap. by injection Hsnap as <-.
Qed.

Lemma closed_tagged : closed 0 (heap tagged).
Proof.
  intros b o _. destruct b as [|b]; simpl; intros [= <-]; simpl.
  repeat constructor.
Qed.

Lemma snapshot_pictures_the_fields_witness :
  ∃ s1 snap c,
    Entry.take_snapshot Sample.env "s1" tagged = (s1, Ok tt) ∧
    snapshots s1 !! "s1" = Some snap ∧ snap !! "tags" = Some c ∧
    view 2 (heap s1) c = view 2 (heap tagged) (VRef 0).
Proof.
  destruct (Entry.take_snapshot Sample.env "s1" tagged) as [s1 r] eqn:H1.
  pose proof H1 as H1'. vm_compute in H1'. injection H1' as <- <-.
  eexists _, _, _.
  split; [reflexivity|].
  split; [vm_compute; reflexivity|].
  split; [vm_compute; reflexivity|].
  match goal with
  | |- view _ (heap ?s1) ?c = _ =>
      destruct (snapshot_pictures_the_fields Sample.env "s1" tagged s1
                  _ (iter_ok_sample _) eq_refl valid_refs_tagged closed_tagged
                  H1 ltac:(vm_compute; reflexivity) ltac:(vm_compute; discriminate)
                  "tags" c ltac:(vm_compute; reflexivity)) as (v & Hv & Hview)
  end.
  vm_compute in Hv. injection Hv as <-. apply Hview.
Defined.

(** * Properties of the command line code *)

(** ** The order of strings *)

Section StringOrder.
Lemma ascii_compare_trans a b c :
  Ascii.compare a b = Lt → Ascii.compare b c = Lt → Ascii.compare a c = Lt.
Proof.
  unfold Ascii.compare. rewrite !N.compare_lt_iff. lia.
Qed.

Lemma string_compare_trans s1 s2 s3 :
  String.compare s1 s2 = Lt → String.compare s2 s3 = Lt →
  String.compare s1 s3 = Lt.
Proof.
  revert s2 s3. induction s1 as [|a s1 IH]; intros [|b s2] [|c s3]; simpl;
    try done.
  destruct (Ascii.compare a b) eqn:Hab; [|clear IH|done];
    destruct (Ascii.compare b c) eqn:Hbc; try done.
  - apply Ascii.compare_eq_iff in Hab, Hbc. subst.
    replace (Ascii.compare c c) with Eq; [apply IH|].
    symmetry. unfold Ascii.compare. apply N.compare_refl.
  - apply Ascii.compare_eq_iff in Hab. subst. by rewrite Hbc.
  - apply Ascii.compare_eq_iff in Hbc. subst. by rewrite Hab.
  - by rewrite (ascii_compare_trans a b c).
Qed.

Lemma string_compare_refl s : String.compare s s = Eq.
Proof.
  induction s as [|a s IH]; [done|]. simpl.
  replace (Ascii.compare a a) with Eq; [done|].
  symmetry. unfold Ascii.compare. apply N.compare_refl.
Qed.

#[global] Instance str_le_trans : Transitive str_le.
Proof.
  intros x y z. unfold str_le, String.leb.
  destruct (String.compare x y) eqn:Hxy; [| |done];
    destruct (String.compare y z) eqn:Hyz; try done; intros _ _.
  - apply String.compare_eq_iff in Hxy, Hyz. subst. by rewrite string_compare_refl.
  - apply String.compare_eq_iff in Hxy. subst. by rewrite Hyz.
  - apply String.compare_eq_iff in Hyz. subst. by rewrite Hxy.
  - by rewrite (string_compare_trans _ _ _ Hxy Hyz).
Qed.

#[global] Instance str_le_antisym : AntiSymm (=) str_le.
Proof. intros x y. apply String.leb_antisym. Qed.

#[global] Instance str_le_total : Total str_le.
Proof. intros x y. apply String.leb_total. Qed.

Lemma sorted_Permutation l l' : l ≡ₚ l' → sorted l = sorted l'.
Proof.
  intros Hp. unfold sorted. apply (Sorted_unique str_le).
  - apply Sorted_merge_sort, _.
  - apply Sorted_merge_sort, _.
  - by rewrite !merge_sort_Permutation.
Qed.

Lemma startswith_refl x : startswith x x = true.
Proof.
  unfold startswith. induction x as [|a x IH]; [done|]. simpl.
  by destruct (Ascii.ascii_dec a a).
Qed.
End StringOrder.

(** ** Abbreviated commands *)

Section GetCommand.
Context {command : Type}.
Variable group_get_command : string → option command.
Implicit Types (l : list string) (n x : string).

Lemma filter_only (P : string → Prop) `{∀ x, Decision (P x)} l x :
  NoDup l → x ∈ l → P x → (∀ y, y ∈ l → P y → y = x) → filter P l = [x].
Proof.
  intros Hnd Hx Px Huniq.
  assert (x ∈ filter P l) as Hin by (by apply list_elem_of_filter).
  assert (∀ y, y ∈ filter P l → y = x) as Hall.
  { intros y [Py Hy]%list_elem_of_filter. by apply Huniq. }
  pose proof (NoDup_filter P l Hnd) as Hnd'.
  destruct (filter P l) as [|a [|b t]].
  - by apply elem_of_nil in Hin.
  - f_equal. apply Hall. by left.
  - assert (a = x) as -> by (apply Hall; by left).
    assert (b = x) as -> by (apply Hall; right; by left).
    apply NoDup_cons in Hnd' as [Hnot _]. destruct Hnot. by left.
Qed.

(** X17. What [get_command] finds is a command that the group knows under
    a name that begins with the name given: that name itself, or one of
    the names listed. *)
Theorem get_command_sound l n c :
  AliasedGroup.get_command command group_get_command l n = Returns (Some c) →
  ∃ x, startswith x n = true ∧ group_get_command x = Some c ∧ (x = n ∨ x ∈ l).
Proof.
  unfold AliasedGroup.get_command.
  destruct (group_get_command n) as [rv|] eqn:Hn.
  - intros [= <-]. exists n. split; [apply startswith_refl|]. by auto.
  - destruct (filter _ l) as [|m [|b t]] eqn:Hm; [done| |done].
    intros [= Hc]. exists m.
    assert (m ∈ filter (λ x, startswith x n = true) l) as Hin
      by (rewrite Hm; by left).
    apply list_elem_of_filter in Hin as [Hp Hl]. auto.
Qed.

(** X18. A name that is not a command and begins exactly one of the
    names listed stands for that command. *)
Theorem get_command_unique_prefix l n x :
  group_get_command n = None → NoDup l →
  x ∈ l → startswith x n = true →
  (∀ y, y ∈ l → startswith y n = true → y = x) →
  AliasedGroup.get_command command group_get_command l n
    = Returns (group_get_command x).
Proof.
  intros Hn Hnd Hx Hp Huniq. unfold AliasedGroup.get_command. rewrite Hn.
  by rewrite (filter_only (λ x, startswith x n = true) l x).
Qed.

(** X19. A name that is not a command and begins two of the names listed
    stands for none of them: [get_command] fails, and its message lists
    the names that match, in order. *)
Theorem get_command_ambiguous l n x y :
  group_get_command n = None →
  x ∈ l → y ∈ l → x ≠ y → startswith x n = true → startswith y n = true →
  ∃ matches,
    AliasedGroup.get_command command group_get_command l n
      = Raises (UsageError ("Too many matches: " +:+ String.concat ", " matches)) ∧
    Sorted str_le matches ∧
    matches ≡ₚ filter (λ z, startswith z n = true) l.
Proof.
  intros Hn Hx Hy Hxy Hpx Hpy. unfold AliasedGroup.get_command. rewrite Hn.
  assert (x ∈ filter (λ z, startswith z n = true) l) as Hx'
    by (by apply list_elem_of_filter).
  assert (y ∈ filter (λ z, startswith z n = true) l) as Hy'
    by (by apply list_elem_of_filter).
  exists (sorted (filter (λ z, startswith z n = true) l)).
  split; [|split; [apply Sorted_merge_sort, _|apply merge_sort_Permutation]].
  destruct (filter _ l) as [|a [|b t]]; [by apply elem_of_nil in Hx'| |done].
  apply list_elem_of_singleton in Hx', Hy'. congruence.
Qed.

(** X20. The order in which [list_commands] lists the names is of no
    consequence for [get_command]: not for the command found, and not for
    the message of the failure, whose names are sorted. *)
Theorem get_command_order_independent l l' n :
  l ≡ₚ l' →
  AliasedGroup.get_command command group_get_command l n
    = AliasedGroup.get_command command group_get_command l' n.
Proof.
  intros Hp. unfold AliasedGroup.get_command.
  destruct (group_get_command n) as [rv|]; [done|].
  assert (filter (λ x, startswith x n = true) l
          ≡ₚ filter (λ x, startswith x n = true) l') as Hf by (by rewrite Hp).
  pose proof (Permutation_length Hf) as Hlen.
  destruct (filter _ l) as [|a [|b t]], (filter _ l') as [|a' [|b' t']];
    try done.
  - apply Permutation_singleton_l in Hf. by injection Hf as <-.
  - by rewrite (sorted_Permutation _ _ Hf).
Qed.
End GetCommand.

(** The commands of [flexget], as [run_flexget] registers them, and a
    group that has a command for each of the names given. *)
Definition named (names : list string) (x : string) : option string :=
  if decide (x ∈ names) then Some x else None.

Lemma get_command_sound_witness :
  ∃ x, startswith x "ex" = true ∧
       named ["execute"; "daemon"] x = Some "execute" ∧
       (x = "ex" ∨ x ∈ ["execute"; "daemon"]).
Proof.
  apply (get_command_sound (named ["execute"; "daemon"]) ["execute"; "daemon"]).
  vm_compute. reflexivity.
Defined.

Lemma get_command_unique_prefix_witness :
  AliasedGroup.get_command string (named ["execute"; "daemon"])
    ["execute"; "daemon"] "d" = Returns (Some "daemon").
Proof.
  apply (get_command_unique_prefix (named ["execute"; "daemon"])
           ["execute"; "daemon"] "d" "daemon").
  - done.
  - apply NoDup_cons. split; [|apply NoDup_singleton].
    intros H. by apply list_elem_of_singleton in H.
  - right. left.
  - done.
  - intros y Hy Hp. apply elem_of_cons in Hy as [->|Hy]; [done|].
    apply elem_of_cons in Hy as [->|Hy]; [done|]. by apply elem_of_nil in Hy.
Defined.

Lemma get_command_ambiguous_witness :
  ∃ matches,
    AliasedGroup.get_command string (named ["series"; "execute"; "seen"])
      ["series"; "execute"; "seen"] "se"
      = Raises (UsageError ("Too many matches: " +:+ String.concat ", " matches)) ∧
    Sorted str_le matches ∧
    matches ≡ₚ filter (λ z, startswith z "se" = true) ["series"; "execute"; "seen"].
Proof.
  apply (get_command_ambiguous (named ["series"; "execute"; "seen"])
           ["series"; "execute"; "seen"] "se" "series" "seen").
  - done.
  - left.
  - right. right. left.
  - done.
  - done.
  - done.
Defined.

Lemma get_command_order_independent_witness :
  AliasedGroup.get_command string (named ["series"; "execute"; "seen"])
    ["series"; "execute"; "seen"] "se"
  = AliasedGroup.get_command string (named ["series"; "execute"; "seen"])
      ["seen"; "series"; "execute"] "se".
Proof.
  apply get_command_order_independent.
  symmetry. apply (Permutation_cons_append ["series"; "execute"] "seen").
Defined.

(** ** Option callbacks *)

(** The three flags whose callbacks set the log level, with the level
    each sets; [click] calls the callbacks one after the other, each with
    the value of its flag. *)
Inductive flag := Debug | DebugTrace | Cron.

Definition callback_of (f : flag) : bool → gmap string val → gmap string val * bool :=
  match f with
  | Debug => debug_callback
  | DebugTrace => debug_trace_callback
  | Cron => cron_callback
  end.
Definition level_of (f : flag) : val :=
  match f with
  | Debug => VStr "debug"
  | DebugTrace => VStr "trace"
  | Cron => VStr "info"
  end.
Definition run_callbacks (given : list (flag * bool)) (default_map : gmap string val)
    : gmap string val :=
  foldl (λ m fv, (callback_of fv.1 fv.2 m).1) default_map given.

(** The last flag of the list that was given (with a true value). *)
Fixpoint last_given (given : list (flag * bool)) : option flag :=
  match given with
  | [] => None
  | (f, v) :: rest =>
      match last_given rest with
      | Some g => Some g
      | None => if v then Some f else None
      end
  end.

Lemma run_callbacks_cons f v rest m :
  run_callbacks ((f, v) :: rest) m = run_callbacks rest (callback_of f v m).1.
Proof. done. Qed.

Lemma run_callbacks_frame given m k :
  k ≠ "loglevel" → k ≠ "debug" → run_callbacks given m !! k = m !! k.
Proof.
  intros H1 H2. revert m. induction given as [|[f v] rest IH]; intros m; [done|].
  rewrite run_callbacks_cons, IH.
  destruct f, v; simpl; by rewrite ?lookup_insert_ne.
Qed.

Lemma run_callbacks_loglevel given m :
  run_callbacks given m !! "loglevel" =
    match last_given given with
    | Some f => Some (level_of f)
    | None => m !! "loglevel"
    end.
Proof.
  revert m. induction given as [|[f v] rest IH]; intros m; [done|].
  rewrite run_callbacks_cons, IH. simpl.
  destruct (last_given rest) as [g|]; [done|].
  destruct f, v; simpl; by simplify_map_eq.
Qed.

(** X21. Of the flags [--debug], [--debug-trace] and [--cron] that are
    given, the last one decides the log level, whatever was set before;
    without any of them the level is left as it was, and no callback
    touches another key than [loglevel] and [debug]. *)
Theorem last_flag_sets_loglevel (given : list (flag * bool))
    (default_map : gmap string val) :
  run_callbacks given default_map !! "loglevel" =
    match last_given given with
    | Some f => Some (level_of f)
    | None => default_map !! "loglevel"
    end ∧
  ∀ k, k ≠ "loglevel" → k ≠ "debug" →
       run_callbacks given default_map !! k = default_map !! k.
Proof.
  split; [apply run_callbacks_loglevel|].
  intros k. apply run_callbacks_frame.
Qed.

(** X22. [version_callback] either returns without a line printed, when
    the flag is not given or the parsing is resilient, or prints two
    lines, the version first, and leaves through [ctx.exit]: it never
    returns after printing, whatever the server answered. *)
Theorem version_callback_prints_and_exits (current : string)
    (latest : option string) (resilient_parsing value : bool)
    (printed : list string) :
  match version_callback current latest resilient_parsing value printed with
  | (printed', Returns _) =>
      printed' = printed ∧ (value = false ∨ resilient_parsing = true)
  | (printed', Raises e) =>
      e = Exit ∧ value = true ∧ resilient_parsing = false ∧
      ∃ line, printed' = printed ++ [current; line]
  end.
Proof.
  unfold version_callback. destruct value, resilient_parsing; simpl; auto.
  do 3 (split; [done|]).
  destruct latest as [l|]; [|by eexists; rewrite <-(assoc_L (++))].
  destruct (String.eqb l ""); simpl; [by eexists; rewrite <-(assoc_L (++))|].
  destruct (String.eqb current l); by eexists; rewrite <-(assoc_L (++)).
Qed.

(** ** Injected entries *)

Section Inject.
Variable env : Env.
Hypothesis Hiter : iter_ok env.

Lemma is_ascii_app a b : is_ascii (a +:+ b) = is_ascii a && is_ascii b.
Proof.
  induction a as [|c a IH]; [done|]. simpl. rewrite IH. by rewrite andb_assoc.
Qed.

Lemma unicode_ascii h b : is_ascii b = true → unicode env h (VStr b) = Ok (VUnicode true b).
Proof. intros H. unfold unicode. simpl. unfold decode_ascii. by rewrite H. Qed.

(** [Entry(title=t, url=u)] on a new object, for strings that the cast
    accepts. *)
Lemma init_title_url t u T U :
  is_basestring t = true → unicode env [] t = Ok (VUnicode true T) →
  is_basestring u = true → unicode env [] u = Ok (VUnicode true U) →
  ∃ entry,
    Entry.__init__ env [] (<["url" := u]> (<["title" := t]> ∅)) new_entry
      = (entry, Ok tt) ∧
    fields entry = {[ "title" := VUnicode true T; "url" := VUnicode true U;
                      "original_url" := VUnicode true U ]} ∧
    heap entry = [].
Proof.
  intros HsT HuT HsU HuU.
  unfold Entry.__init__, Entry.update, bind, modify. simpl.
  set (s0 := set_snapshots (λ _, ∅) (set_trace [] new_entry)).
  destruct (dict_iter_title_url env Hiter t u) as [-> | ->]; simpl; unfold bind.
  - rewrite (setitem_plain_eq env "title" t T s0) by done.
    rewrite (setitem_url_eq env u U) by done. simpl. unfold ret.
    eexists. split; [done|]. split; [|done]. simpl. three_keys.
  - rewrite (setitem_url_eq env u U s0) by done. simpl.
    rewrite (setitem_plain_eq env "title" t T) by done. unfold ret.
    eexists. split; [done|]. split; [|done]. simpl. three_keys.
Qed.

(** X23. [inject_callback] returns one entry for each title given, when
    the titles are strings that the cast accepts: each entry is valid,
    holds its title as unicode, and has recorded its [url] as
    [original_url]; the URLs, made of letters and digits, are always
    accepted. *)
Theorem inject_callback_entries_valid titles : ∀ samples,
  length titles ≤ length samples →
  Forall (λ t, is_basestring t = true ∧ ∃ T, unicode env [] t = Ok (VUnicode true T))
    titles →
  Forall (λ r, is_ascii r = true) samples →
  ∃ entries,
    inject_callback env titles samples = Ok entries ∧
    Forall2 (λ t entry,
               (∃ T, unicode env [] t = Ok T ∧ fields entry !! "title" = Some T) ∧
               fields entry !! "original_url" = fields entry !! "url" ∧
               Entry.isvalid env entry = (entry, Ok true))
      titles entries.
Proof.
  induction titles as [|t titles IH]; intros samples Hlen Ht Hs.
  { exists []. by split. }
  destruct samples as [|r samples]; [simpl in Hlen; lia|].
  apply Forall_cons in Ht as [[HsT [T HuT]] Ht].
  apply Forall_cons in Hs as [Hr Hs].
  destruct (IH samples) as (entries & Hrun & Hall); [simpl in Hlen; lia|done|done|].
  destruct (init_title_url t (VStr ("http://localhost/inject/" +:+ r)) T
              ("http://localhost/inject/" +:+ r) HsT HuT eq_refl)
    as (entry & Hinit & Hf & Hh).
  { apply unicode_ascii. by rewrite is_ascii_app, Hr. }
  exists (entry :: entries). simpl. rewrite Hinit, Hrun. split; [done|].
  constructor; [|done].
  assert (fields entry !! "title" = Some (VUnicode true T)) as Htitle
    by (rewrite Hf; by simplify_map_eq).
  assert (fields entry !! "url"
          = Some (VUnicode true ("http://localhost/inject/" +:+ r))) as Hurl
    by (rewrite Hf; by simplify_map_eq).
  split; [by eauto|]. split.
  - rewrite Hurl, Hf. by simplify_map_eq.
  - rewrite isvalid_unlazy.
    + by rewrite Htitle, Hurl.
    + unfold Entry.lazy_at. by rewrite Htitle.
    + unfold Entry.lazy_at. by rewrite Hurl.
Qed.
End Inject.

Lemma inject_callback_entries_valid_witness :
  ∃ entries,
    inject_callback Sample.env [VUnicode true "Show S01E01"; VStr "Show S01E02"]
      ["aZ3"; "Qr7"] = Ok entries ∧
    length entries = 2.
Proof.
  destruct (inject_callback_entries_valid Sample.env (iter_ok_sample _)
              [VUnicode true "Show S01E01"; VStr "Show S01E02"] ["aZ3"; "Qr7"])
    as (entries & Hrun & Hall).
  - simpl. lia.
  - repeat constructor; by eexists.
  - by repeat constructor.
  - exists entries. split; [done|]. by rewrite <-(Forall2_length _ _ _ Hall).
Defined.

(** ** [update] with keyword arguments *)

Section Update.
Variable env : Env.

(** A write to a key other than [url] looks at the objects only: on two
    states with the same objects it ends alike. *)
Lemma setitem_plain_heap k v s1 s2 :
  k ≠ "url" → heap s1 = heap s2 →
  match Entry.__setitem__ env k v s1, Entry.__setitem__ env k v s2 with
  | (s1', Ok _), (s2', Ok _) =>
      ∃ v', fields s1' = <[k := v']> (fields s1) ∧
            fields s2' = <[k := v']> (fields s2) ∧
            heap s1' = heap s1 ∧ heap s2' = heap s2
  | (s1', Raise e1), (s2', Raise e2) => e1 = e2 ∧ s1' = s1 ∧ s2' = s2
  | _, _ => False
  end.
Proof.
  intros Hk Hh. rewrite !setitem_unfold. unfold Entry.setitem_body, bind.
  assert (∃ r, Entry.enforce_unicode env k v s1 = (s1, r) ∧
               Entry.enforce_unicode env k v s2 = (s2, r)) as (r & -> & ->).
  { unfold Entry.enforce_unicode.
    destruct (is_basestring v && negb (type_is_unicode v)); [|by eexists].
    rewrite Hh. destruct (unicode env (heap s2) v) as [u|[]]; by eexists. }
  destruct r as [v1|e]; [|done].
  rewrite !url_handling_other by done.
  assert (∃ r, Entry.title_handling env k v1 s1 = (s1, r) ∧
               Entry.title_handling env k v1 s2 = (s2, r)) as (r & -> & ->).
  { unfold Entry.title_handling, bind, gets, raise.
    case_decide; [|by eexists]. destruct (is_basestring v1); [by eexists|].
    rewrite Hh. destruct (repr_raises env (heap s2) v1); by eexists. }
  destruct r as [[]|e]; [|done].
  assert (∃ v2 s1' s2', Entry.imdb_handling env k v1 s1 = (s1', Ok v2) ∧
                        Entry.imdb_handling env k v1 s2 = (s2', Ok v2) ∧
                        same_entry s1 s1' ∧ same_entry s2 s2')
    as (v2 & s1' & s2' & -> & -> & (Hf1&_&_&Hh1) & (Hf2&_&_&Hh2)).
  { unfold Entry.imdb_handling, bind, modify, ret.
    repeat case_match; eauto 10 using same_entry_refl, same_entry_emit. }
  rewrite !log_set_eq. unfold modify. simpl.
  exists v2. by rewrite Hf1, Hf2, Hh1, Hh2.
Qed.

Lemma set_each_plain s0 items :
  NoDup items.*1 → "url" ∉ items.*1 →
  (∀ k v, (k, v) ∈ items → ∃ s1, Entry.__setitem__ env k v s0 = (s1, Ok tt)) →
  ∀ s, heap s = heap s0 →
  ∃ s', Entry.set_each env items s = (s', Ok tt) ∧ heap s' = heap s0 ∧
        (∀ k v, (k, v) ∈ items →
                fields s' !! k = fields (Entry.__setitem__ env k v s0).1 !! k) ∧
        (∀ j, j ∉ items.*1 → fields s' !! j = fields s !! j).
Proof.
  induction items as [|[k v] rest IH]; intros Hnd Hurl Hok s Hh.
  { exists s. split; [done|]. split; [done|]. split; [|done].
    intros k v Hkv. by apply elem_of_nil in Hkv. }
  simpl in Hnd, Hurl. apply NoDup_cons in Hnd as [Hk Hnd].
  apply not_elem_of_cons in Hurl as [Hku Hurl].
  destruct (Hok k v) as [s1 H1]; [by left|].
  pose proof (setitem_plain_heap k v s s0 ltac:(done) Hh) as Hpar.
  rewrite H1 in Hpar.
  destruct (Entry.__setitem__ env k v s) as [s2 [[]|e]] eqn:H2; [|done].
  destruct Hpar as (v' & Hf2 & Hf1 & Hh2 & _).
  destruct (IH Hnd Hurl) with (s := s2) as (s' & Hrun & Hh' & Hin & Hout).
  { intros k' w Hkw. apply Hok. by right. }
  { congruence. }
  exists s'. simpl. unfold bind. rewrite H2. split; [done|]. split; [done|].
  split.
  - intros k' w Hkw. apply elem_of_cons in Hkw as [[= -> ->]|Hkw].
    + rewrite Hout by done. rewrite H1. simpl. by rewrite Hf2, Hf1, !lookup_insert_eq.
    + by apply Hin.
  - intros j Hj. apply not_elem_of_cons in Hj as [Hjk Hj].
    rewrite Hout by done. rewrite Hf2. by rewrite lookup_insert_ne.
Qed.

(** X24. [update] with keyword arguments, [url] not among them: when the
    write of each key alone returns, [update] returns, and each key holds
    what its write alone would have stored, in whatever order the dict of
    the arguments is gone through; the other keys and the objects are as
    they were. *)
Theorem update_writes_each_key kwargs s :
  iter_ok env → kwargs !! "url" = None →
  (∀ k v, kwargs !! k = Some v → ∃ s1, Entry.__setitem__ env k v s = (s1, Ok tt)) →
  ∃ s', Entry.update env [] kwargs s = (s', Ok tt) ∧ heap s' = heap s ∧
        ∀ k, fields s' !! k =
               match kwargs !! k with
               | Some v => fields (Entry.__setitem__ env k v s).1 !! k
               | None => fields s !! k
               end.
Proof.
  intros Hiter Hurl Hok.
  pose proof (λ k v, elem_of_dict_iter env k v kwargs Hiter) as Hmem.
  destruct (set_each_plain s (dict_iter env kwargs)) with (s := s)
    as (s' & Hrun & Hh & Hin & Hout).
  - rewrite (Hiter kwargs). apply NoDup_fst_map_to_list.
  - intros Hin. apply list_elem_of_fmap in Hin as ([k v] & Hk & Hkv).
    simpl in Hk. subst k. apply Hmem in Hkv. congruence.
  - intros k v Hkv. apply Hok. by apply Hmem.
  - done.
  - exists s'. unfold Entry.update, bind, ret. rewrite Hrun.
    split; [done|]. split; [done|]. intros k.
    destruct (kwargs !! k) as [v|] eqn:Hk.
    + apply Hin. by apply Hmem.
    + apply Hout. intros Hin'.
      apply list_elem_of_fmap in Hin' as ([k' v] & Hk' & Hkv).
      simpl in Hk'. subst k'. apply Hmem in Hkv. congruence.
Qed.

(** After a write of a value that is not an object, to a key other than
    [url], no resolver stands behind the key. *)
(** X25. A value that is not an object, once written to a key other than
    [url], is what a read of the key returns: no resolver stands behind
    the key any more, whatever stood there before, and the read changes
    nothing. *)
Theorem write_makes_concrete key v s s' :
  key ≠ "url" → (∀ a, v ≠ VRef a) →
  Entry.__setitem__ env key v s = (s', Ok tt) →
  Entry.lazy_at s' key = None ∧
  ∃ v', fields s' !! key = Some v' ∧ Entry.__getitem__ env key s' = (s', Ok v').
Proof.
  intros Hk Hv H.
  pose proof (setitem_plain_heap key v s s ltac:(done) eq_refl) as Hpar.
  rewrite H in Hpar. destruct Hpar as (v' & Hf & _ & Hh & _).
  assert (∀ a, v' ≠ VRef a) as Hv'.
  { revert H Hf. rewrite setitem_unfold. unfold Entry.setitem_body, bind.
    destruct (Entry.enforce_unicode env key v s) as [s0 [v1|e]] eqn:H1;
      pose proof (enforce_unicode_state env _ _ _ _ _ H1) as ->; [|done].
    assert (∀ a, v1 ≠ VRef a) as Hv1.
    { intros a ->. revert H1. unfold Entry.enforce_unicode.
      destruct (is_basestring v) eqn:Hb; simpl.
      - destruct (type_is_unicode v) eqn:Hx; simpl.
        + unfold ret. intros [= ->]. by destruct (Hv a).
        + destruct (unicode env (heap s) v) as [u|e] eqn:Hu; [|by destruct e].
          intros [= ->]. by destruct (unicode_of_string env _ _ _ Hb Hu).
      - unfold ret. intros [= ->]. by destruct (Hv a). }
    rewrite url_handling_other by done.
    destruct (Entry.title_handling env key v1 s) as [s0 [[]|e]] eqn:H2;
      pose proof (title_handling_state env _ _ _ _ _ H2) as ->; [|done].
    destruct (Entry.imdb_handling env key v1 s) as [s2 r2] eqn:H3.
    destruct (imdb_handling_same env _ _ _ _ _ H3) as [(Hf2&_) [v2 ->]].
    destruct (log_set_same env key v2 s2) as (s3 & -> & (Hf3&_)).
    unfold modify. intros [= <-]. simpl. rewrite Hf3, Hf2. intros Hins a ->.
    assert (v2 = VRef a) as ->.
    { apply (f_equal (λ m, m !! key)) in Hins.
      rewrite !lookup_insert_eq in Hins. congruence. }
    destruct (imdb_handling_value env _ _ _ _ _ H3)
      as [[_ Heq]|[_ [[Heq _]|[Heq|[t Heq]]]]]; try done.
    all: by destruct (Hv1 a). }
  assert (fields s' !! key = Some v') as Hkey by (by rewrite Hf, lookup_insert_eq).
  assert (as_lazy (heap s') v' = None) as Hl.
  { destruct v' as [| | | | |a]; try done. by destruct (Hv' a). }
  split; [unfold Entry.lazy_at; by rewrite Hkey|].
  exists v'. split; [done|]. by apply getitem_concrete.
Qed.
End Update.

Lemma update_writes_each_key_witness :
  ∃ s', Entry.update Sample.env []
          {[ "quality" := VStr "720p"; "size" := VInt 700 ]} episode = (s', Ok tt) ∧
        fields s' !! "quality" = Some (VUnicode true "720p") ∧
        fields s' !! "title" = Some (VUnicode true "Show S01E01").
Proof.
  destruct (update_writes_each_key Sample.env
              {[ "quality" := VStr "720p"; "size" := VInt 700 ]} episode
              (iter_ok_sample _)) as (s' & Hrun & _ & Hf).
  - vm_compute. reflexivity.
  - intros k v.
    destruct (decide (k = "quality")) as [->|].
    { intros H. simplify_map_eq. eexists. vm_compute. reflexivity. }
    destruct (decide (k = "size")) as [->|].
    { intros H. simplify_map_eq. eexists. vm_compute. reflexivity. }
    intros H. by simplify_map_eq.
  - exists s'. split; [exact Hrun|]. rewrite !Hf.
    split; vm_compute; reflexivity.
Defined.

Lemma write_makes_concrete_witness :
  ∃ s', Entry.__setitem__ Sample.env_chain "imdb_score" (VInt 8) lazy_failing
          = (s', Ok tt) ∧
        Entry.__getitem__ Sample.env_chain "imdb_score" s' = (s', Ok (VInt 8)).
Proof.
  destruct (Entry.__setitem__ Sample.env_chain "imdb_score" (VInt 8) lazy_failing)
    as [s' r] eqn:H.
  assert (r = Ok tt) as -> by (vm_compute in H; by injection H as _ <-).
  destruct (write_makes_concrete Sample.env_chain "imdb_score" (VInt 8)
              lazy_failing s' ltac:(done) ltac:(done) H)
    as (_ & v' & Hv' & Hget).
  exists s'. split; [done|]. rewrite Hget.
  vm_compute in H. injection H as <-. vm_compute in Hv'. by injection Hv' as <-.
Defined.

(** ** A name that is taken *)

Section Overwrite.
Variable env : Env.
Variable name : string.


End Overwrite.

